(** * Timeline interval algebra of the hardcut pipeline

    A shallow embedding of the interval code of [hardcut.py], [bgm_create.py]
    and [final_mapping.py], of the mood analysis of [bgm_create.py] and of
    the merge of the transcribed segments into the shots in [main.py], with
    the properties stated about it.

    Modelling decisions.
    - A Python [float] holding a time in seconds is read as an exact rational
      ([Q]), and sums, differences and products of times are exact: their
      rounding error in binary floating point is outside the model.  The
      exceptions are the tests whose outcome depends on that rounding for
      values that stored data meet to the digit: the length of a segment
      against 0.01 s and against 15 s, where the segment times come from
      two-decimal strings, and the ratios of the mood analysis against their
      thresholds.  There [Py.float] and the operations [Py.fsub], [Py.fadd],
      [Py.fmul] and [Py.fdiv] round to binary64 as the code does.
      [min], [max], [abs] and [round] follow the Python built-ins
      ([round] rounds half to even).
    - A JSON object field read with [d.get(key, default)] is an [option]: [None]
      is an absent key.  Values on which [float()] raises are outside the
      model (the documents are those written by the shot detector and the
      transcriber).
    - A [dict] is a list of entries in insertion order, which is the order of
      [dict.items()] and [dict.keys()].
    - A raised exception is the [Raise] result of the [result] type. *)

From Stdlib Require Import QArith Qround Qpower Lqa ZArith Lia List Bool String DecimalString.
From Stdlib Require Import Permutation.
Import ListNotations.
Local Open Scope Q_scope.

(** ** Python built-ins on numbers and lists *)

Module Py.

Inductive exn : Type :=
| ValueError (msg : string)
| IndexError (msg : string).

Inductive result (A : Type) : Type :=
| Return (a : A)
| Raise (e : exn).
Arguments Return {A} a.
Arguments Raise {A} e.

Definition bind {A B : Type} (m : result A) (f : A -> result B) : result B :=
  match m with
  | Return a => f a
  | Raise e => Raise e
  end.

(** [a < b], [a <= b] as tests. *)
Definition ltb (a b : Q) : bool := negb (Qle_bool b a).
Definition leb (a b : Q) : bool := Qle_bool a b.

(** [min(a, b)]: the first of the smallest. *)
Definition min (a b : Q) : Q := if ltb b a then b else a.

(** [max(a, b)]: the first of the largest. *)
Definition max (a b : Q) : Q := if ltb a b then b else a.

(** [abs(x)]. *)
Definition abs (x : Q) : Q := if ltb x 0 then - x else x.

(** [d.get(key, default)] followed by [float()], on a numeric field. *)
Definition get (o : option Q) (default : Q) : Q :=
  match o with
  | Some x => x
  | None => default
  end.

(** Rounding to the nearest integer, ties to the even one. *)
Definition round_half_even (x : Q) : Z :=
  let f := Qfloor x in
  let r := x - inject_Z f in
  if ltb r (1 # 2) then f
  else if ltb (1 # 2) r then (f + 1)%Z
  else if Z.even f then f else (f + 1)%Z.

(** [round(x, ndigits)] for [ndigits >= 0]. *)
Definition round (x : Q) (ndigits : nat) : Q :=
  let p := Z.pow 10 (Z.of_nat ndigits) in
  Qred (inject_Z (round_half_even (x * inject_Z p)) / inject_Z p).

(** [int(round(x))]. *)
Definition int_round (x : Q) : Z := round_half_even x.

(** The binary64 number nearest to [x], ties to even: what [float()] makes
    of a decimal, and what an operation on two floats returns for its exact
    result [x].  The exponent range is taken unbounded: no overflow and no
    subnormal numbers, which times in seconds and ratios never meet.

    [binade x], for [0 < x], is the exponent [e] with
    [2^e <= x < 2^(e+1)]; the numbers of that binade are the multiples of
    [2^(e-52)]. *)
Definition binade (x : Q) : Z :=
  let l := (Z.log2 (Qnum x) - Z.log2 (Zpos (Qden x)))%Z in
  if Qle_bool (2 ^ l) x then l else (l - 1)%Z.

Definition nearest (x : Q) : Q :=
  let p := 2 ^ (binade x - 52) in
  inject_Z (round_half_even (x / p)) * p.

Definition float (x : Q) : Q :=
  let x := Qred x in
  if ltb 0 x then Qred (nearest x)
  else if ltb x 0 then Qred (- nearest (- x))
  else 0.

(** [a - b], [a + b], [a * b] and [a / b] on floats. *)
Definition fsub (a b : Q) : Q := float (a - b).
Definition fadd (a b : Q) : Q := float (a + b).
Definition fmul (a b : Q) : Q := float (a * b).
Definition fdiv (a b : Q) : Q := float (a / b).
Arguments float : simpl never.
Arguments fsub : simpl never.
Arguments fadd : simpl never.
Arguments fmul : simpl never.
Arguments fdiv : simpl never.

(** [list.sort(key=...)] and [sorted(..., key=...)]: a stable sort by a
    numeric key.  An element goes before the first element of the sorted
    rest whose key is not smaller, so equal keys keep their input order. *)
Section Sort.
Context {A : Type} (key : A -> Q).

Fixpoint insert (x : A) (l : list A) : list A :=
  match l with
  | [] => [x]
  | y :: l' => if leb (key x) (key y) then x :: l else y :: insert x l'
  end.

Definition sort (l : list A) : list A := fold_right insert [] l.
End Sort.

End Py.

Export Py (exn(..), result(..)).

(** ** The analysis document *)

Definition Interval : Type := (Q * Q)%type.

(** A transcribed segment: a JSON object with [start], [end], the
    transcriber's other fields (here [text]) and, once remapped, [orig_start]
    and [orig_end]. *)
Record Segment : Type := mkSegment {
  seg_start : option Q;
  seg_end : option Q;
  seg_text : string;
  seg_orig_start : option Q;
  seg_orig_end : option Q
}.

Record Shot : Type := mkShot {
  shot_start : option Q;
  shot_end : option Q;
  shot_start_frame : option Z;
  shot_end_frame : option Z;
  shot_probability : option Q;
  shot_segments : list Segment
}.

Record Video : Type := mkVideo {
  video_duration : option Q;
  video_fps : option Q;
  video_orig_duration : option Q;
  video_logical_duration : option Q
}.

Record HardcutInfo : Type := mkHardcutInfo {
  hc_cuts : list Interval;
  hc_keeps : list Interval;
  hc_total_duration : Q
}.

(** [data]: [video] is [data.get("video", {})], [shots] is
    [data.get("shots", {})] with each key bound to a list of shots. *)
Record Doc : Type := mkDoc {
  video : Video;
  shots : list (string * list Shot);
  whisper_num_segments : option nat;
  hardcut : option HardcutInfo
}.

(** [d.get(k, [])] on the [shots] dict. *)
Fixpoint dict_get (d : list (string * list Shot)) (k : string) : list Shot :=
  match d with
  | [] => []
  | (k', v) :: d' => if String.eqb k k' then v else dict_get d' k
  end.

(** ** hardcut.py *)

Module Hardcut.

Definition TRIM_HEAD_SEC : Q := 2.
Definition TRIM_TAIL_SEC : Q := 2.
Definition SHOT_MARGIN_SEC : Q := 35 # 10.
Definition LONG_SEG_THRESH_SEC : Q := 15.
Definition SEG_TAIL_CUT_SEC : Q := 2.
Definition EPS : Q := 1 # 1000000.

(** [lst[0]] of every non-empty entry, in dict order. *)
Fixpoint first_shots (d : list (string * list Shot)) : list Shot :=
  match d with
  | [] => []
  | (_, []) :: d' => first_shots d'
  | (_, shot :: _) :: d' => shot :: first_shots d'
  end.

Definition _collect_shots (data : Doc) : list Shot :=
  Py.sort (fun s => Py.get (shot_start s) 0) (first_shots (shots data)).

Definition _collect_segments (data : Doc) : list Segment :=
  flat_map shot_segments (first_shots (shots data)).

(** [_add_interval] appends to [intervals] in place; here it returns the
    list after the call. *)
Definition _add_interval (intervals : list Interval) (s e duration : Q)
  : list Interval :=
  let s := Py.max 0 (Py.min s duration) in
  let e := Py.max 0 (Py.min e duration) in
  if Py.ltb EPS (e - s) then intervals ++ [(s, e)] else intervals.

(** The comprehension of [_merge_intervals]. *)
Definition normalize (intervals : list Interval) : list Interval :=
  map (fun ab => (Py.min (fst ab) (snd ab), Py.max (fst ab) (snd ab)))
      (filter (fun ab => Py.ltb EPS (Py.abs (snd ab - fst ab))) intervals).

(** The sweep of [_merge_intervals] over [intervals[1:]], with the loop
    state [merged], [cur_s], [cur_e], and the final [append]. *)
Fixpoint sweep (merged : list Interval) (cur_s cur_e : Q)
  (rest : list Interval) : list Interval :=
  match rest with
  | [] => merged ++ [(cur_s, cur_e)]
  | (s, e) :: rest' =>
      if Py.leb s (cur_e + EPS)
      then sweep merged cur_s (Py.max cur_e e) rest'
      else sweep (merged ++ [(cur_s, cur_e)]) s e rest'
  end.

Definition _merge_intervals (intervals : list Interval)
  : result (list Interval) :=
  match intervals with
  | [] => Return []
  | _ =>
      match Py.sort fst (normalize intervals) with
      | [] => Raise (IndexError "list index out of range")
      | (cur_s, cur_e) :: rest => Return (sweep [] cur_s cur_e rest)
      end
  end.

(** The loop of [_build_keeps], with the loop state [keeps], [cur]. *)
Fixpoint keeps_loop (keeps : list Interval) (cur : Q) (cuts : list Interval)
  : list Interval * Q :=
  match cuts with
  | [] => (keeps, cur)
  | (s, e) :: cuts' =>
      let keeps := if Py.ltb EPS (s - cur) then keeps ++ [(cur, s)] else keeps in
      keeps_loop keeps (Py.max cur e) cuts'
  end.

Definition _build_keeps (cuts : list Interval) (duration : Q) : list Interval :=
  let (keeps, cur) := keeps_loop [] 0 cuts in
  if Py.ltb EPS (duration - cur) then keeps ++ [(cur, duration)] else keeps.

Fixpoint offsets_loop (offsets : list Q) (acc : Q) (keeps : list Interval)
  : list Q * Q :=
  match keeps with
  | [] => (offsets, acc)
  | (s, e) :: keeps' => offsets_loop (offsets ++ [acc]) (acc + (e - s)) keeps'
  end.

Definition _compute_offsets (keeps : list Interval) : list Q * Q :=
  offsets_loop [] 0 keeps.

(** The cuts around the shot transitions, [for i in range(1, len(shots))]. *)
Definition add_shot_cuts (cuts : list Interval) (shots : list Shot)
  (duration : Q) : list Interval :=
  fold_left
    (fun cuts shot =>
       let t := Py.get (shot_start shot) 0 in
       _add_interval cuts (t - SHOT_MARGIN_SEC) (t + SHOT_MARGIN_SEC) duration)
    (tl shots) cuts.

(** The cuts at the end of the long segments.  The segment times are read
    with [float()] from two-decimal strings and their difference is compared
    with 15.0: both are binary64 here, since a stored segment can be 15 s
    long to the digit.  The start [e - 2.0] of the cut is left exact: in
    binary64 it is exact for [2 <= e < 2^53], and a negative start is
    clamped to 0 by [_add_interval]. *)
Definition add_segment_cuts (cuts : list Interval) (segments : list Segment)
  (duration : Q) : list Interval :=
  fold_left
    (fun cuts seg =>
       let s := Py.float (Py.get (seg_start seg) 0) in
       let e := Py.float (Py.get (seg_end seg) 0) in
       if Py.leb e s then cuts
       else
         let length := Py.fsub e s in
         if Py.leb LONG_SEG_THRESH_SEC length
         then _add_interval cuts (e - SEG_TAIL_CUT_SEC) e duration
         else cuts)
    segments cuts.

Definition raw_cuts (data : Doc) (duration : Q) : list Interval :=
  let shots := _collect_shots data in
  let segments := _collect_segments data in
  let cuts := [] in
  let cuts := _add_interval cuts 0 TRIM_HEAD_SEC duration in
  let cuts := _add_interval cuts (duration - TRIM_TAIL_SEC) duration duration in
  let cuts := add_shot_cuts cuts shots duration in
  add_segment_cuts cuts segments duration.

(** Returns [(cuts_merged, keeps, duration)]; the diagnostic prints are
    left out. *)
Definition compute_cut_and_keep_intervals (data : Doc)
  : result (list Interval * list Interval * Q) :=
  let duration := Py.get (video_duration (video data)) 0 in
  if Py.leb duration 0
  then Raise (ValueError "[hardcut] video.duration 이 0초 이하임")
  else
    Py.bind (_merge_intervals (raw_cuts data duration)) (fun cuts_merged =>
    let keeps := _build_keeps cuts_merged duration in
    Return (cuts_merged, keeps, duration)).

(** *** [rebuild_json_with_shots] *)

(** [_shot_start], the sort key of the shot keys. *)
Definition _shot_start (shots_dict : list (string * list Shot)) (k : string) : Q :=
  match dict_get shots_dict k with
  | [] => 0
  | shot :: _ => Py.get (shot_start shot) 0
  end.

(** The flattened segments: each copy with its [_orig_seg_start] and
    [_orig_seg_end], which are [float(s_val)] and [float(e_val)].  The
    segment times of the analysis are the two-decimal strings written by
    [main.py], so [float()] rounds them to binary64 here. *)
Definition flatten (shots_dict : list (string * list Shot))
  : list (Segment * Q * Q) :=
  flat_map
    (fun shot_key =>
       match dict_get shots_dict shot_key with
       | [] => []
       | shot :: _ =>
           map (fun seg =>
                  let s_float := Py.float (Py.get (seg_start seg) 0) in
                  let e_float := Py.float (Py.get (seg_end seg) 0) in
                  (seg, s_float, e_float))
               (shot_segments shot)
       end)
    (Py.sort (_shot_start shots_dict) (map fst shots_dict)).

(** The first loop over [flat], with the loop state [new_segments], [t].
    The length is the difference of two floats and is compared with the
    float [0.01]: both are binary64 here, since a stored segment can be
    0.01 s long to the digit and the test then depends on the rounding. *)
Fixpoint remap_loop (new_segments : list Segment) (t : Q)
  (flat : list (Segment * Q * Q)) : list Segment * Q :=
  match flat with
  | [] => (new_segments, t)
  | (seg, s_orig, e_orig) :: flat' =>
      let length := Py.max (Py.fsub e_orig s_orig) 0 in
      if Py.leb length (Py.float (1 # 100)) then remap_loop new_segments t flat'
      else
        let seg := {| seg_start := Some (Py.round t 2);
                      seg_end := Some (Py.round (t + length) 2);
                      seg_text := seg_text seg;
                      seg_orig_start := Some (Py.round s_orig 3);
                      seg_orig_end := Some (Py.round e_orig 3) |} in
        remap_loop (new_segments ++ [seg]) (t + length) flat'
  end.

(** The scaling loop; the segments are updated in place, here the updated
    list is [done]. *)
Fixpoint rescale_loop (ratio : Q) (done : list Segment) (t : Q)
  (new_segments : list Segment) : list Segment * Q :=
  match new_segments with
  | [] => (done, t)
  | seg :: rest =>
      let length := Py.get (seg_end seg) 0 - Py.get (seg_start seg) 0 in
      let new_len := length * ratio in
      let seg := {| seg_start := Some (Py.round t 2);
                    seg_end := Some (Py.round (t + new_len) 2);
                    seg_text := seg_text seg;
                    seg_orig_start := seg_orig_start seg;
                    seg_orig_end := seg_orig_end seg |} in
      rescale_loop ratio (done ++ [seg]) (t + new_len) rest
  end.

(** Step 1 of [rebuild_json_with_shots]: [(new_segments, logical_duration)]. *)
Definition remap_segments (data : Doc) (hardcut_duration : Q)
  : list Segment * Q :=
  let flat := flatten (shots data) in
  let (new_segments, t) := remap_loop [] 0 flat in
  let logical_duration := t in
  if Py.ltb 0 hardcut_duration
     && Py.ltb (hardcut_duration + (1 # 1000)) logical_duration
  then
    let ratio := hardcut_duration / logical_duration in
    rescale_loop ratio [] 0 new_segments
  else (new_segments, logical_duration).

Record ShotInfo : Type := mkShotInfo {
  info_orig_start : Q;
  info_orig_end : Q;
  info_probability : Q;
  info_kept_len : Q
}.

(** The inner loop over [keeps], with the loop state [kept_len]. *)
Definition kept_length (s0 e0 : Q) (keeps : list Interval) : Q :=
  fold_left
    (fun kept_len ks_ke =>
       let inter_s := Py.max s0 (fst ks_ke) in
       let inter_e := Py.min e0 (snd ks_ke) in
       if Py.ltb EPS (inter_e - inter_s)
       then kept_len + (inter_e - inter_s)
       else kept_len)
    keeps 0.

Definition shot_info (keeps : list Interval) (shot : Shot) : ShotInfo :=
  let s0 := Py.get (shot_start shot) 0 in
  let e0 := Py.get (shot_end shot) 0 in
  {| info_orig_start := s0;
     info_orig_end := e0;
     info_probability := Py.get (shot_probability shot) 1;
     info_kept_len := kept_length s0 e0 keeps |}.

(** The loop over [shot_infos], with the loop state [new_shots_list],
    [cur]. *)
Fixpoint new_shots_loop (fps : Q) (new_shots_list : list Shot) (cur : Q)
  (shot_infos : list ShotInfo) : list Shot :=
  match shot_infos with
  | [] => new_shots_list
  | info :: rest =>
      let kept_len := info_kept_len info in
      if Py.leb kept_len EPS then new_shots_loop fps new_shots_list cur rest
      else
        let s_new := cur in
        let e_new := cur + kept_len in
        let shot := {| shot_start := Some (Py.round s_new 3);
                       shot_end := Some (Py.round e_new 3);
                       shot_start_frame := Some (Py.int_round (s_new * fps));
                       shot_end_frame := Some (Py.int_round (e_new * fps));
                       shot_probability := Some (info_probability info);
                       shot_segments := [] |} in
        new_shots_loop fps (new_shots_list ++ [shot]) e_new rest
  end.

(** Step 2, with the single shot of the whole timeline when no shot is
    left. *)
Definition rebuild_shots (data : Doc) (keeps : list Interval)
  (logical_duration : Q) : list Shot :=
  let fps := Py.get (video_fps (video data)) 30 in
  let orig_shots := _collect_shots data in
  let shot_infos := map (shot_info keeps) orig_shots in
  match new_shots_loop fps [] 0 shot_infos with
  | [] =>
      [ {| shot_start := Some 0;
           shot_end := Some (Py.round logical_duration 3);
           shot_start_frame := Some 0%Z;
           shot_end_frame := Some (Py.int_round (logical_duration * fps));
           shot_probability := Some 1;
           shot_segments := [] |} ]
  | new_shots_list => new_shots_list
  end.

(** [shot["segments"].append(seg)]. *)
Definition append_segment (shot : Shot) (seg : Segment) : Shot :=
  {| shot_start := shot_start shot;
     shot_end := shot_end shot;
     shot_start_frame := shot_start_frame shot;
     shot_end_frame := shot_end_frame shot;
     shot_probability := shot_probability shot;
     shot_segments := shot_segments shot ++ [seg] |}.

Definition contains_mid (shot : Shot) (mid : Q) : bool :=
  let st := Py.get (shot_start shot) 0 in
  let ed := Py.get (shot_end shot) 0 in
  Py.leb (st - (1 # 1000000)) mid && Py.leb mid (ed + (1 # 1000000)).

(** The inner loop of step 3: [None] when the loop ends with
    [attached = False]. *)
Fixpoint attach_first (mid : Q) (seg : Segment) (new_shots_list : list Shot)
  : option (list Shot) :=
  match new_shots_list with
  | [] => None
  | shot :: rest =>
      if contains_mid shot mid then Some (append_segment shot seg :: rest)
      else option_map (cons shot) (attach_first mid seg rest)
  end.

(** [new_shots_list[-1]["segments"].append(seg)]. *)
Fixpoint attach_last (seg : Segment) (new_shots_list : list Shot) : list Shot :=
  match new_shots_list with
  | [] => []
  | [shot] => [append_segment shot seg]
  | shot :: rest => shot :: attach_last seg rest
  end.

Definition seg_mid (seg : Segment) : Q :=
  let s := Py.get (seg_start seg) 0 in
  let e := Py.get (seg_end seg) 0 in
  (1 # 2) * (s + e).

Definition attach (new_shots_list : list Shot) (seg : Segment) : list Shot :=
  match attach_first (seg_mid seg) seg new_shots_list with
  | Some l => l
  | None => attach_last seg new_shots_list
  end.

Definition attach_all (new_shots_list : list Shot) (new_segments : list Segment)
  : list Shot :=
  fold_left attach new_segments new_shots_list.

(** The keys [shot_1], [shot_2], ... of the new dict. *)
Fixpoint enumerate_shots (idx : nat) (l : list Shot) : list (string * list Shot) :=
  match l with
  | [] => []
  | shot :: l' =>
      (("shot_" ++ NilEmpty.string_of_uint (Nat.to_uint idx))%string, [shot])
        :: enumerate_shots (S idx) l'
  end.

Definition rebuild_json_with_shots (data : Doc) (keeps : list Interval)
  (hardcut_duration : Q) : Doc :=
  let (new_segments, logical_duration) := remap_segments data hardcut_duration in
  let new_shots_list := rebuild_shots data keeps logical_duration in
  let new_shots_list := attach_all new_shots_list new_segments in
  let orig_duration := Py.get (video_duration (video data)) hardcut_duration in
  {| video := {| video_duration := Some (Py.round hardcut_duration 3);
                 video_fps := video_fps (video data);
                 video_orig_duration := Some (Py.round orig_duration 3);
                 video_logical_duration := Some (Py.round logical_duration 3) |};
     shots := enumerate_shots 1 new_shots_list;
     whisper_num_segments := Some (List.length new_segments);
     hardcut := hardcut data |}.

(** What [main] does once the analysis is loaded, up to the JSON it writes:
    [MainNoKeeps] is the return after the print "keep 구간이 없어 종료합니다.". *)
Inductive main_outcome : Type :=
| MainNoKeeps
| MainWritten (new_data : Doc).

Definition main (data : Doc) : result main_outcome :=
  Py.bind (compute_cut_and_keep_intervals data) (fun '(cuts, keeps, duration) =>
  match keeps with
  | [] => Return MainNoKeeps
  | _ =>
      let hardcut_duration := snd (_compute_offsets keeps) in
      let new_data := rebuild_json_with_shots data keeps hardcut_duration in
      let r3 := fun se : Interval => (Py.round (fst se) 3, Py.round (snd se) 3) in
      Return (MainWritten
        {| video := video new_data;
           shots := shots new_data;
           whisper_num_segments := whisper_num_segments new_data;
           hardcut := Some {| hc_cuts := map r3 cuts;
                              hc_keeps := map r3 keeps;
                              hc_total_duration := Py.round hardcut_duration 3 |} |})
  end).

End Hardcut.

(** ** bgm_create.py *)

Module BgmCreate.

Definition MIN_BGM_WINDOW_SEC : Q := 15.

(** An entry of the list built by [_extract_shots]. *)
Record BgmShot : Type := mkBgmShot {
  key : string;
  start : Q;
  end_ : Q;
  segments : list Segment
}.

Fixpoint extract_entries (shots_raw : list (string * list Shot)) : list BgmShot :=
  match shots_raw with
  | [] => []
  | (_, []) :: d' => extract_entries d'
  | (k, shot :: _) :: d' =>
      {| key := k;
         start := Py.get (shot_start shot) 0;
         end_ := Py.get (shot_end shot) 0;
         segments := shot_segments shot |} :: extract_entries d'
  end.

Definition _extract_shots (data : Doc) : list BgmShot :=
  Py.sort start (extract_entries (shots data)).

(** The loop over [shots[1:]], with the loop state [groups], [cur_start],
    [cur_end], and the [append] after it. *)
Fixpoint groups_loop (min_window : Q) (groups : list Interval)
  (cur_start cur_end : Q) (rest : list BgmShot) : list Interval :=
  match rest with
  | [] => groups ++ [(cur_start, cur_end)]
  | shot :: rest' =>
      let s := start shot in
      let e := end_ shot in
      let cur_end := if Py.ltb cur_end s then s else cur_end in
      let cur_len := cur_end - cur_start in
      if Py.ltb cur_len min_window
      then groups_loop min_window groups cur_start e rest'
      else groups_loop min_window (groups ++ [(cur_start, cur_end)]) s e rest'
  end.

(** The last step: a short last group is merged into the one before it. *)
Definition merge_short_tail (min_window : Q) (groups : list Interval)
  : list Interval :=
  match rev groups with
  | (last_s, last_e) :: (prev_s, prev_e) :: before =>
      if Py.ltb (last_e - last_s) min_window
      then rev before ++ [(prev_s, last_e)]
      else groups
  | _ => groups
  end.

Definition _build_bgm_groups (shots : list BgmShot) (min_window : Q)
  : list Interval :=
  match shots with
  | [] => []
  | first :: rest =>
      merge_short_tail min_window
        (groups_loop min_window [] (start first) (end_ first) rest)
  end.

(** The segments that overlap the group [[g_start, g_end]], each with the
    length of the overlap as its weight. *)
Definition _collect_segments_for_group (shots : list BgmShot)
  (g_start g_end : Q) : list (Segment * Q) :=
  flat_map
    (fun shot =>
       flat_map
         (fun seg =>
            let s := Py.get (seg_start seg) 0 in
            let e := Py.get (seg_end seg) 0 in
            if Py.leb e g_start || Py.leb g_end s then []
            else
              let overlap := Py.min e g_end - Py.max s g_start in
              if Py.leb overlap 0 then [] else [(seg, overlap)])
         (segments shot))
    shots.

(** *** The mood of a group

    What [_analyze_mood] reads of a segment: [seg.get("emotion")] when it is
    a string, and of [seg.get("features")] the number [bpm_est] and the
    strings [arrangement_tag] and [rhythm_tag]; [None] is an absent field
    or one of another type (a value of [emotion] that is not a string is
    never counted under one of the four prefixes; a JSON [true] in
    [bpm_est] would count as the number 1). *)
Record MoodSeg : Type := mkMoodSeg {
  emotion : option string;
  bpm_est : option Q;
  arrangement_tag : option string;
  rhythm_tag : option string
}.

(** The keys of [emo_dur], in the order of the dict. *)
Inductive EmoKey : Type := hap | ang | sad | neu | other.

Definition emo_eqb (a b : EmoKey) : bool :=
  match a, b with
  | hap, hap | ang, ang | sad, sad | neu, neu | other, other => true
  | _, _ => false
  end.

(** [str.lower()] on the letters A to Z; no other character becomes one of
    the letters of the four prefixes tested below. *)
Definition lower_char (c : Ascii.ascii) : Ascii.ascii :=
  let n := Ascii.nat_of_ascii c in
  if ((65 <=? n) && (n <=? 90))%nat then Ascii.ascii_of_nat (n + 32) else c.

Fixpoint lower (s : string) : string :=
  match s with
  | EmptyString => EmptyString
  | String c r => String (lower_char c) (lower r)
  end.

(** The key under which the segment is counted. *)
Definition emo_key (seg : MoodSeg) : EmoKey :=
  let label := lower (match emotion seg with Some s => s | None => "" end) in
  if String.prefix "hap" label then hap
  else if String.prefix "ang" label then ang
  else if String.prefix "sad" label then sad
  else if String.prefix "neu" label then neu
  else other.

Record EmoDur : Type := mkEmoDur {
  d_hap : Q; d_ang : Q; d_sad : Q; d_neu : Q; d_other : Q
}.

(** [emo_dur[key] += w]. *)
Definition emo_add (d : EmoDur) (k : EmoKey) (w : Q) : EmoDur :=
  match k with
  | hap => {| d_hap := d_hap d + w; d_ang := d_ang d; d_sad := d_sad d;
              d_neu := d_neu d; d_other := d_other d |}
  | ang => {| d_hap := d_hap d; d_ang := d_ang d + w; d_sad := d_sad d;
              d_neu := d_neu d; d_other := d_other d |}
  | sad => {| d_hap := d_hap d; d_ang := d_ang d; d_sad := d_sad d + w;
              d_neu := d_neu d; d_other := d_other d |}
  | neu => {| d_hap := d_hap d; d_ang := d_ang d; d_sad := d_sad d;
              d_neu := d_neu d + w; d_other := d_other d |}
  | other => {| d_hap := d_hap d; d_ang := d_ang d; d_sad := d_sad d;
                d_neu := d_neu d; d_other := d_other d + w |}
  end.

(** [counter[tag_val] = counter.get(tag_val, 0.0) + w]: a key already there
    keeps its place, a new one goes to the end. *)
Fixpoint counter_add (counter : list (string * Q)) (tag_val : string) (w : Q)
  : list (string * Q) :=
  match counter with
  | [] => [(tag_val, 0 + w)]
  | (k, v) :: r =>
      if String.eqb tag_val k then (k, v + w) :: r
      else (k, v) :: counter_add r tag_val w
  end.

(** The body of the loop over the two counters: only a non-empty string is
    counted. *)
Definition count_tag (counter : list (string * Q)) (tag_val : option string)
  (w : Q) : list (string * Q) :=
  match tag_val with
  | Some t => if String.eqb t "" then counter else counter_add counter t w
  | None => counter
  end.

(** The state of the loop of [_analyze_mood]. *)
Record MoodState : Type := mkMoodState {
  emo_dur : EmoDur;
  bpm_sum : Q;
  bpm_w : Q;
  arr_counts : list (string * Q);
  rhythm_counts : list (string * Q)
}.

Definition counts_bpm (seg : MoodSeg) : bool :=
  match bpm_est seg with
  | Some bpm => Py.ltb 0 bpm
  | None => false
  end.

Definition mood_step (st : MoodState) (sw : MoodSeg * Q) : MoodState :=
  let (seg, w) := sw in
  {| emo_dur := emo_add (emo_dur st) (emo_key seg) w;
     bpm_sum := if counts_bpm seg
                then bpm_sum st + Py.get (bpm_est seg) 0 * w else bpm_sum st;
     bpm_w := if counts_bpm seg then bpm_w st + w else bpm_w st;
     arr_counts := count_tag (arr_counts st) (arrangement_tag seg) w;
     rhythm_counts := count_tag (rhythm_counts st) (rhythm_tag seg) w |}.

Definition mood_loop (segs_with_weight : list (MoodSeg * Q)) : MoodState :=
  fold_left mood_step segs_with_weight
    {| emo_dur := {| d_hap := 0; d_ang := 0; d_sad := 0; d_neu := 0;
                     d_other := 0 |};
       bpm_sum := 0; bpm_w := 0; arr_counts := []; rhythm_counts := [] |}.

(** [max(items, key=lambda x: x[1])]: the first item with the largest
    value. *)
Fixpoint max_item {K : Type} (best : K * Q) (items : list (K * Q)) : K * Q :=
  match items with
  | [] => best
  | x :: r => max_item (if Py.ltb (snd best) (snd x) then x else best) r
  end.

Definition _pick_top_label (counter : list (string * Q)) : option string :=
  match counter with
  | [] => None
  | x :: r => Some (fst (max_item x r))
  end.

(** The string literals of [_analyze_mood]. *)
Definition MOOD_UPLIFTING : string :=
  "soft, positive and lightly uplifting, with a relaxed atmosphere".
Definition MOOD_WARM : string := "calm, warm and slightly hopeful".
Definition MOOD_STEADY : string := "neutral and steady, with a gentle tone".
Definition MOOD_UNOBTRUSIVE : string :=
  "neutral and unobtrusive, slightly on the serious side".
Definition MOOD_SERIOUS : string :=
  "calm but clearly serious and somewhat heavy in tone".
Definition MOOD_TENSE : string :=
  "calm and a bit tense or somber, but still understated".
Definition TEMPO_UPBEAT : string :=
  "a light, moderately upbeat tempo around 95–105 BPM".
Definition TEMPO_RELAXED : string :=
  "a relaxed mid-tempo pace around 90–100 BPM".
Definition TEMPO_SLOW : string :=
  "a calm, slightly slower tempo around 80–90 BPM".

(** The double quote put around a label. *)
Definition dquote : string := String (Ascii.ascii_of_nat 34) EmptyString.

(** [if label:] on the result of [_pick_top_label], and the part of the
    texture phrase made of it. *)
Definition texture_part (intro : string) (label : option string) : list string :=
  match label with
  | Some l => if String.eqb l "" then [] else [(intro ++ dquote ++ l ++ dquote)%string]
  | None => []
  end.

Record MoodInfo : Type := mkMoodInfo {
  mood_core : string;
  mood_nuance : string;
  tempo_phrase : string;
  avg_bpm : Q;
  texture_phrase : string
}.

(** [_analyze_mood]; [secondary], which the code computes and does not use,
    is left out.  The durations, the counters and the tempo sums are added
    up exactly.  The ratios, the bright ratio and the thresholds they are
    compared with are binary64, as in the code: small whole weights already
    meet a threshold to the digit (3, 5 and 2 s of happy, neutral and other
    speech give 0.3 + 0.5 * 0.7, which is below 0.65 in binary64). *)
Definition _analyze_mood (segs_with_weight : list (MoodSeg * Q)) : MoodInfo :=
  let st := mood_loop segs_with_weight in
  let d := emo_dur st in
  let sum := 0 + d_hap d + d_ang d + d_sad d + d_neu d + d_other d in
  let total_dur := if Qeq_bool sum 0 then 1 else sum in
  let anger_ratio := Py.fdiv (d_ang d) total_dur in
  let sad_ratio := Py.fdiv (d_sad d) total_dur in
  let happy_ratio := Py.fdiv (d_hap d) total_dur in
  let neu_ratio := Py.fdiv (d_neu d) total_dur in
  let primary :=
    fst (max_item (hap, d_hap d)
           [(ang, d_ang d); (sad, d_sad d); (neu, d_neu d); (other, d_other d)]) in
  let bright_ratio :=
    Py.fadd happy_ratio (Py.fmul neu_ratio (Py.float (7 # 10))) in
  let neg_strength := Py.max anger_ratio sad_ratio in
  let mood_core :=
    if Py.leb (Py.float (65 # 100)) bright_ratio then MOOD_UPLIFTING
    else if Py.leb (Py.float (45 # 100)) bright_ratio then MOOD_WARM
    else if Py.leb (Py.float (25 # 100)) bright_ratio then MOOD_STEADY
    else MOOD_UNOBTRUSIVE in
  let mood_core :=
    if Py.leb (Py.float (6 # 10)) neg_strength then MOOD_SERIOUS
    else if Py.leb (Py.float (4 # 10)) neg_strength
            && Py.ltb bright_ratio (Py.float (5 # 10))
         then MOOD_TENSE
         else mood_core in
  let nuance_parts :=
    (if Py.ltb (Py.float (15 # 100)) anger_ratio && negb (emo_eqb primary ang)
     then if Py.leb (Py.float (3 # 10)) anger_ratio
          then ["with a gentle sense of background tension"%string]
          else ["with a subtle, almost imperceptible sense of tension"%string]
     else [])
    ++ (if Py.ltb (Py.float (15 # 100)) happy_ratio
           && negb (emo_eqb primary hap)
        then if Py.leb (Py.float (3 # 10)) happy_ratio
             then ["with some quiet warmth and optimism"%string]
             else ["with a light, soft positive undertone"%string]
        else [])
    ++ (if Py.ltb (Py.float (15 # 100)) sad_ratio
           && negb (emo_eqb primary sad)
        then if Py.leb (Py.float (3 # 10)) sad_ratio
             then ["with a soft, reflective feeling"%string]
             else ["with a gentle touch of melancholy"%string]
        else []) in
  let mood_nuance :=
    match nuance_parts with
    | [] => ""%string
    | _ => (" " ++ String.concat " " nuance_parts)%string
    end in
  let avg_bpm :=
    if Py.ltb 0 (bpm_w st) then bpm_sum st / bpm_w st else 100 in
  let tempo_phrase :=
    if Py.leb (Py.float (55 # 100)) bright_ratio then TEMPO_UPBEAT
    else if Py.leb (Py.float (35 # 100)) bright_ratio then TEMPO_RELAXED
    else TEMPO_SLOW in
  let arrangement := _pick_top_label (arr_counts st) in
  let rhythm := _pick_top_label (rhythm_counts st) in
  let texture_parts :=
    texture_part "arrangement that feels like " arrangement
    ++ texture_part "rhythmic feel similar to " rhythm in
  let texture_phrase :=
    match texture_parts with
    | [] => ""%string
    | _ => ("The texture should have " ++ String.concat ", " texture_parts
            ++ ".")%string
    end in
  {| mood_core := mood_core;
     mood_nuance := mood_nuance;
     tempo_phrase := tempo_phrase;
     avg_bpm := avg_bpm;
     texture_phrase := texture_phrase |}.

(** The segment that [main] gives to [_analyze_mood] for a group without
    segments: [{"emotion": "neu", "features": {}}]. *)
Definition dummy_seg : MoodSeg :=
  {| emotion := Some "neu"%string; bpm_est := None;
     arrangement_tag := None; rhythm_tag := None |}.

End BgmCreate.

(** ** final_mapping.py *)

Module FinalMapping.

Definition MIN_BGM_SEC : Q := 15.

(** The same code as in [hardcut.py]. *)
Definition _collect_shots (data : Doc) : list Shot :=
  Py.sort (fun s => Py.get (shot_start s) 0) (Hardcut.first_shots (shots data)).

(** The shot starts strictly inside [(0, duration)], from [shots[1:]]. *)
Definition boundaries_of (shots : list Shot) (duration : Q) : list Q :=
  filter (fun t => Py.ltb 0 t && Py.ltb t duration)
         (map (fun s => Py.get (shot_start s) 0) (tl shots)).

(** The loop over the sorted boundaries, with the loop state [groups],
    [cur_start]. *)
Fixpoint accept_loop (duration min_bgm_sec : Q) (groups : list Interval)
  (cur_start : Q) (boundaries : list Q) : list Interval * Q :=
  match boundaries with
  | [] => (groups, cur_start)
  | t :: rest =>
      let front := t - cur_start in
      let back := duration - t in
      if Py.leb min_bgm_sec front && Py.leb min_bgm_sec back
      then accept_loop duration min_bgm_sec (groups ++ [(cur_start, t)]) t rest
      else accept_loop duration min_bgm_sec groups cur_start rest
  end.

Definition compute_bgm_groups (data : Doc) (min_bgm_sec : Q)
  : result (list Interval) :=
  let duration := Py.get (video_duration (video data)) 0 in
  if Py.leb duration 0
  then Raise (ValueError "[final] video.duration 이 0초 이하임")
  else
    match _collect_shots data with
    | [] => Return [(0, duration)]
    | shots =>
        let boundaries := Py.sort (fun t => t) (boundaries_of shots duration) in
        let (groups, cur_start) :=
          accept_loop duration min_bgm_sec [] 0 boundaries in
        if Py.ltb (1 # 10) (duration - cur_start)
        then Return (groups ++ [(cur_start, duration)])
        else Return groups
    end.

End FinalMapping.

(** ** main.py *)

Module Main.

(** The entry stored for a transcribed segment.  The code stores the start
    and the end as the strings [f"{s:.2f}"] and [f"{e:.2f}"]; the numbers
    here are the decimals that these strings spell.  [hardcut.py] reads
    them back with [float()], see [Hardcut.flatten]. *)
Definition seg_entry (seg : Segment) : Segment :=
  let s := Py.get (seg_start seg) 0 in
  let e := Py.get (seg_end seg) 0 in
  {| seg_start := Some (Py.round s 2);
     seg_end := Some (Py.round e 2);
     seg_text := seg_text seg;
     seg_orig_start := None;
     seg_orig_end := None |}.

(** The inner loop over [shots.items()]: the entry goes to the first shot
    of the first key whose list is not empty and whose shot holds [mid];
    the dict is left as it is when there is none. *)
Fixpoint attach_in_dict (mid : Q) (entry : Segment)
  (shots : list (string * list Shot)) : list (string * list Shot) :=
  match shots with
  | [] => []
  | (shot_key, []) :: rest => (shot_key, []) :: attach_in_dict mid entry rest
  | (shot_key, shot :: others) :: rest =>
      let st := Py.get (shot_start shot) 0 in
      let ed := Py.get (shot_end shot) 0 in
      if Py.leb st mid && Py.leb mid ed
      then (shot_key, Hardcut.append_segment shot entry :: others) :: rest
      else (shot_key, shot :: others) :: attach_in_dict mid entry rest
  end.

(** The body of the loop over the segments. *)
Definition merge_step (shots : list (string * list Shot)) (seg : Segment)
  : list (string * list Shot) :=
  let s := Py.get (seg_start seg) 0 in
  let e := Py.get (seg_end seg) 0 in
  if Py.leb e s then shots
  else attach_in_dict ((1 # 2) * (s + e)) (seg_entry seg) shots.

Definition _merge_segments_into_shots (shot_meta : Doc)
  (segments : list Segment) : Doc :=
  {| video := video shot_meta;
     shots := fold_left merge_step segments (shots shot_meta);
     whisper_num_segments := Some (List.length segments);
     hardcut := hardcut shot_meta |}.

End Main.

(** ** Predicates of the specification *)

Definition len (i : Interval) : Q := snd i - fst i.

(** The sum of the lengths of a list of intervals. *)
Definition total (l : list Interval) : Q := fold_right (fun i acc => len i + acc) 0 l.

Definition long (i : Interval) : Prop := Hardcut.EPS < len i.

(** Ascending keys, each element against the next one. *)
Fixpoint ascending {A : Type} (key : A -> Q) (l : list A) : Prop :=
  match l with
  | [] => True
  | x :: r =>
      match r with
      | [] => True
      | y :: _ => key x <= key y
      end /\ ascending key r
  end.

(** [inner] lies within [outer]. *)
Definition within (inner outer : Interval) : Prop :=
  fst outer <= fst inner /\ snd inner <= snd outer.

(** A merged list: every interval longer than [EPS], each one starting more
    than [EPS] after the end of the one before it. *)
Fixpoint separated (l : list Interval) : Prop :=
  match l with
  | [] => True
  | (s, e) :: r =>
      Hardcut.EPS < e - s
      /\ match r with
         | [] => True
         | (s', _) :: _ => e + Hardcut.EPS < s'
         end
      /\ separated r
  end.

(** [merge(merge(S))]. *)
Definition merge_twice (S : list Interval) : result (list Interval) :=
  Py.bind (Hardcut._merge_intervals S) Hardcut._merge_intervals.

(** The number of intervals of a list, as a rational. *)
Definition count (l : list Interval) : Q := inject_Z (Z.of_nat (List.length l)).

(** A cut-set for the duration [D], from the time [lo] on: sorted, pairwise
    disjoint and contained in [[lo, D]]. *)
Fixpoint chain (D lo : Q) (C : list Interval) : Prop :=
  match C with
  | [] => lo <= D
  | (s, e) :: r => lo <= s /\ s <= e /\ chain D e r
  end.

Definition cut_set (D : Q) (C : list Interval) : Prop := chain D 0 C.

(** [_build_keeps] with the cursor starting at [cur]. *)
Definition keeps_from (cur : Q) (cuts : list Interval) (duration : Q)
  : list Interval :=
  let (keeps, cur) := Hardcut.keeps_loop [] cur cuts in
  if Py.ltb Hardcut.EPS (duration - cur) then keeps ++ [(cur, duration)]
  else keeps.

(** The time [t] lies in an interval of [l]. *)
Definition covered (l : list Interval) (t : Q) : Prop :=
  exists i, In i l /\ fst i <= t <= snd i.

(** No keep interval overlaps a cut interval. *)
Definition no_overlap (K C : list Interval) : Prop :=
  forall k c, In k K -> In c C -> snd k <= fst c \/ snd c <= fst k.

(** The time [t] is at most [EPS] before the start of a cut or before the
    end of the recording. *)
Definition before_boundary (D : Q) (C : list Interval) (t : Q) : Prop :=
  exists b, t <= b <= t + Hardcut.EPS /\ (b = D \/ In b (map fst C)).

(** The partition of [[0, D]] into keeps and cuts with the error bound
    [EPS * |C|]. *)
Definition partition_within (bound : Q) (D : Q) (C : list Interval) : Prop :=
  let K := Hardcut._build_keeps C D in
  no_overlap K C
  /\ D - bound <= total K + total C <= D + bound.

(** *** The shot reconstructor *)

(** [overlap(a, b) = max(0, min(a.end, b.end) - max(a.start, b.start))]. *)
Definition overlap (a b : Interval) : Q :=
  Py.max 0 (Py.min (snd a) (snd b) - Py.max (fst a) (fst b)).

(** The kept length as the sum of the overlaps with the keep intervals. *)
Definition overlap_sum (shot : Interval) (keeps : list Interval) : Q :=
  fold_right (fun k acc => overlap shot k + acc) 0 keeps.

(** The overlap when it is longer than [EPS], and 0 otherwise. *)
Definition counted_overlap (a b : Interval) : Q :=
  let d := Py.min (snd a) (snd b) - Py.max (fst a) (fst b) in
  if Py.ltb Hardcut.EPS d then d else 0.

Definition counted_overlap_sum (shot : Interval) (keeps : list Interval) : Q :=
  fold_right (fun k acc => counted_overlap shot k + acc) 0 keeps.

(** A shot is kept when its kept length is more than [EPS]. *)
Definition survives (info : Hardcut.ShotInfo) : bool :=
  Py.ltb Hardcut.EPS (Hardcut.info_kept_len info).

(** The new shot of a kept one, placed at [cursor]. *)
Definition placed_shot (fps cursor : Q) (info : Hardcut.ShotInfo) : Shot :=
  let kept := Hardcut.info_kept_len info in
  {| shot_start := Some (Py.round cursor 3);
     shot_end := Some (Py.round (cursor + kept) 3);
     shot_start_frame := Some (Py.round_half_even (cursor * fps));
     shot_end_frame := Some (Py.round_half_even ((cursor + kept) * fps));
     shot_probability := Some (Hardcut.info_probability info);
     shot_segments := [] |}.

(** The kept shots on consecutive intervals [[cursor, cursor + kept]]. *)
Fixpoint placed (fps cursor : Q) (kept_infos : list Hardcut.ShotInfo)
  : list Shot :=
  match kept_infos with
  | [] => []
  | info :: rest =>
      placed_shot fps cursor info
        :: placed fps (cursor + Hardcut.info_kept_len info) rest
  end.

(** The single shot [[0, logicalDuration]]. *)
Definition fallback_shot (fps logical_duration : Q) : Shot :=
  {| shot_start := Some 0;
     shot_end := Some (Py.round logical_duration 3);
     shot_start_frame := Some 0%Z;
     shot_end_frame := Some (Py.round_half_even (logical_duration * fps));
     shot_probability := Some 1;
     shot_segments := [] |}.

(** Each shot ends where the next one starts. *)
Fixpoint abutting (l : list Shot) : Prop :=
  match l with
  | [] => True
  | shot :: rest =>
      match rest with
      | [] => True
      | next :: _ => shot_end shot = shot_start next
      end /\ abutting rest
  end.

Definition plain_shot (s e : Q) : Shot :=
  {| shot_start := Some s; shot_end := Some e;
     shot_start_frame := None; shot_end_frame := None;
     shot_probability := None; shot_segments := [] |}.

(** The document of scenario 2: the shots [(0,10)], [(10,20)], [(20,100)]. *)
Definition scenario2_doc : Doc :=
  {| video := {| video_duration := Some 100; video_fps := None;
                 video_orig_duration := None; video_logical_duration := None |};
     shots := [ ("shot_1"%string, [plain_shot 0 10]);
                ("shot_2"%string, [plain_shot 10 20]);
                ("shot_3"%string, [plain_shot 20 100]) ];
     whisper_num_segments := None;
     hardcut := None |}.

(** *** The timeline remapper *)

Definition seg_start_of (seg : Segment) : Q := Py.get (seg_start seg) 0.
Definition seg_end_of (seg : Segment) : Q := Py.get (seg_end seg) 0.

(** The original length of a flattened segment, and whether it is kept. *)
Definition flat_length (entry : Segment * Q * Q) : Q :=
  Py.max (Py.fsub (snd entry) (snd (fst entry))) 0.

Definition kept_entry (entry : Segment * Q * Q) : bool :=
  negb (Py.leb (flat_length entry) (Py.float (1 # 100))).

(** What a remapped segment keeps of its source: the transcriber's fields
    and the original times. *)
Definition provenance (seg : Segment) : string * option Q * option Q :=
  (seg_text seg, seg_orig_start seg, seg_orig_end seg).

Definition flat_provenance (entry : Segment * Q * Q)
  : string * option Q * option Q :=
  (seg_text (fst (fst entry)),
   Some (Py.round (snd (fst entry)) 3),
   Some (Py.round (snd entry) 3)).

(** The running offset after the lengths [lens], from [t]. *)
Definition offset_after (t : Q) (lens : list Q) : Q := fold_left Qplus lens t.

Definition Qsum (l : list Q) : Q := fold_right Qplus 0 l.

(** The segments lie one after the other from the running offset [t], with
    the lengths [lens]; the stored times are rounded to two decimals. *)
Fixpoint laid_out (t : Q) (lens : list Q) (segs : list Segment) : Prop :=
  match lens, segs with
  | [], [] => True
  | l :: lens', seg :: segs' =>
      seg_start seg = Some (Py.round t 2)
      /\ seg_end seg = Some (Py.round (t + l) 2)
      /\ laid_out (t + l) lens' segs'
  | _, _ => False
  end.

(** Each segment ends where the next one starts. *)
Fixpoint seg_abutting (segs : list Segment) : Prop :=
  match segs with
  | [] => True
  | seg :: rest =>
      match rest with
      | [] => True
      | next :: _ => seg_end seg = seg_start next
      end /\ seg_abutting rest
  end.

(** Starts never decrease, and no segment ends more than [EPS] after the
    start of the next one. *)
Fixpoint monotone_timeline (segs : list Segment) : Prop :=
  match segs with
  | [] => True
  | seg :: rest =>
      match rest with
      | [] => True
      | next :: _ =>
          seg_start_of seg <= seg_start_of next
          /\ seg_end_of seg <= seg_start_of next + Hardcut.EPS
      end /\ monotone_timeline rest
  end.

(** The end of the last segment. *)
Fixpoint last_end (segs : list Segment) : option Q :=
  match segs with
  | [] => None
  | [seg] => seg_end seg
  | _ :: rest => last_end rest
  end.

(** The flattened, not yet rescaled timeline: [(new_segments, t)] after
    the first loop. *)
Definition first_pass (data : Doc) : list Segment * Q :=
  Hardcut.remap_loop [] 0 (Hardcut.flatten (shots data)).

(** The test before the rescale. *)
Definition rescales (hardcut_duration logical_duration : Q) : bool :=
  Py.ltb 0 hardcut_duration
  && Py.ltb (hardcut_duration + (1 # 1000)) logical_duration.

(** The lengths of the rescaled segments. *)
Definition scaled_lengths (ratio : Q) (segs : list Segment) : list Q :=
  map (fun seg => (seg_end_of seg - seg_start_of seg) * ratio) segs.

(** The remapper invariant with every duration above 0.01 s. *)
Definition remap_invariant (data : Doc) (hardcut_duration : Q) : Prop :=
  let segs := fst (Hardcut.remap_segments data hardcut_duration) in
  monotone_timeline segs
  /\ Forall (fun seg => (1 # 100) < seg_end_of seg - seg_start_of seg) segs.

(** The rescale policy with the tolerance [eps] and no other condition. *)
Definition rescale_policy (eps : Q) (data : Doc) (hardcut_duration : Q) : Prop :=
  let (segs, logical_duration) := first_pass data in
  (hardcut_duration + eps < logical_duration ->
   Hardcut.remap_segments data hardcut_duration
   = Hardcut.rescale_loop (hardcut_duration / logical_duration) [] 0 segs)
  /\ (logical_duration <= hardcut_duration ->
      Hardcut.remap_segments data hardcut_duration = (segs, logical_duration)).

(** [x] is a number of hundredths. *)
Definition hundredths (x : Q) : Prop := exists k : Z, x == inject_Z k / 100.

(** [x] is [y] rounded to two decimals, whichever way a tie goes: a number
    of hundredths at most half a hundredth away from [y].  The nanosecond
    leaves room for the rounding of the products and sums in binary64. *)
Definition rounded2 (y x : Q) : Prop :=
  hundredths x
  /\ y - ((5 # 1000) + (1 # 1000000000)) <= x
  /\ x <= y + ((5 # 1000) + (1 # 1000000000)).

(** Every segment of [new] is the segment of [old] at the same place with
    its stored start and end multiplied by [ratio] and rounded to two
    decimals, its other fields unchanged. *)
Definition rescaled_by (ratio : Q) (old new : list Segment) : Prop :=
  Forall2 (fun o n =>
             rounded2 (seg_start_of o * ratio) (seg_start_of n)
             /\ rounded2 (seg_end_of o * ratio) (seg_end_of n)
             /\ provenance n = provenance o)
          old new.

Definition plain_segment (s e : Q) : Segment :=
  {| seg_start := Some s; seg_end := Some e; seg_text := "";
     seg_orig_start := None; seg_orig_end := None |}.

(** A document with one shot holding the given segments. *)
Definition one_shot_doc (segs : list Segment) : Doc :=
  {| video := {| video_duration := Some 100; video_fps := None;
                 video_orig_duration := None; video_logical_duration := None |};
     shots := [ ("shot_1"%string,
                 [ {| shot_start := Some 0; shot_end := Some 100;
                      shot_start_frame := None; shot_end_frame := None;
                      shot_probability := None; shot_segments := segs |} ]) ];
     whisper_num_segments := None;
     hardcut := None |}.

(** *** The attachment of the segments *)

(** The segment [seg] goes to [shot], found in [shots] after the shots
    [before]: none of those contains the midpoint; [shot] contains it, or is
    the last shot. *)
Definition attached_to (shots : list Shot) (seg : Segment)
  (before : list Shot) (shot : Shot) (after : list Shot) : Prop :=
  shots = before ++ shot :: after
  /\ Forall (fun s => Hardcut.contains_mid s (Hardcut.seg_mid seg) = false) before
  /\ (Hardcut.contains_mid shot (Hardcut.seg_mid seg) = true
      \/ (Hardcut.contains_mid shot (Hardcut.seg_mid seg) = false /\ after = [])).

(** The tolerant containment test, as inequalities. *)
Definition mid_in_shot (shot : Shot) (seg : Segment) : Prop :=
  let mid := (seg_start_of seg + seg_end_of seg) / 2 in
  Py.get (shot_start shot) 0 - Hardcut.EPS <= mid
  /\ mid <= Py.get (shot_end shot) 0 + Hardcut.EPS.

(** *** The window partitioner *)

(** The windows [ws] go from [a] to [b] one after the other: each starts
    where the one before it ends, none is reversed; no gap, no overlap. *)
Fixpoint tiles (a : Q) (ws : list Interval) (b : Q) : Prop :=
  match ws with
  | [] => a == b
  | (s, e) :: r => s == a /\ s <= e /\ tiles e r b
  end.

(** Every window but the last one is at least [W] long. *)
Definition all_but_last_long (W : Q) (ws : list Interval) : Prop :=
  Forall (fun w => W <= len w) (removelast ws).

(** Shots that come one after the other from the time [from] on, without
    overlap: each starts at or after the end of the one before it, none is
    reversed. *)
Fixpoint in_sequence (from : Q) (shots : list BgmCreate.BgmShot) : Prop :=
  match shots with
  | [] => True
  | shot :: r =>
      from <= BgmCreate.start shot
      /\ BgmCreate.start shot <= BgmCreate.end_ shot
      /\ in_sequence (BgmCreate.end_ shot) r
  end.

(** The end of the last shot, [from] when there is none. *)
Fixpoint final_end (from : Q) (shots : list BgmCreate.BgmShot) : Q :=
  match shots with
  | [] => from
  | shot :: r => final_end (BgmCreate.end_ shot) r
  end.

Definition bgm_shot (s e : Q) : BgmCreate.BgmShot :=
  {| BgmCreate.key := ""; BgmCreate.start := s; BgmCreate.end_ := e;
     BgmCreate.segments := [] |}.

(** A document with the given duration and shots, one per key. *)
Definition doc_of (duration : Q) (l : list Shot) : Doc :=
  {| video := {| video_duration := Some duration; video_fps := None;
                 video_orig_duration := None; video_logical_duration := None |};
     shots := map (fun shot => ("shot"%string, [shot])) l;
     whisper_num_segments := None;
     hardcut := None |}.

(** The guarantee for the windows of the greedy variant, from the time [a]
    to the end [D] of the timeline. *)
Definition greedy_partition (shots : list BgmCreate.BgmShot) (W a D : Q) : Prop :=
  let ws := BgmCreate._build_bgm_groups shots W in
  tiles a ws D /\ all_but_last_long W ws.

(** The guarantee for the windows of the boundary-acceptance variant. *)
Definition boundary_partition (data : Doc) (W : Q) : Prop :=
  exists ws,
    FinalMapping.compute_bgm_groups data W = Return ws
    /\ tiles 0 ws (Py.get (video_duration (video data)) 0)
    /\ all_but_last_long W ws.

(** *** The fatal conditions *)

Definition duration_of (data : Doc) : Q := Py.get (video_duration (video data)) 0.

(** An empty keep-set reaches the caller of [main] as a raised error. *)
Definition empty_keeps_raise (data : Doc) : Prop :=
  forall cuts d,
    Hardcut.compute_cut_and_keep_intervals data = Return (cuts, [], d) ->
    exists e, Hardcut.main data = Raise e.

(** The error raised for a duration carries that duration: the durations of
    two documents with the same error are equal. *)
Definition duration_error_carries_value (data data' : Doc) : Prop :=
  forall e,
    Hardcut.compute_cut_and_keep_intervals data = Raise e ->
    Hardcut.compute_cut_and_keep_intervals data' = Raise e ->
    duration_of data == duration_of data'.

(** An interval inside [[0, D]]. *)
Definition inside (D : Q) (i : Interval) : Prop := 0 <= fst i /\ snd i <= D.

(** *** Further predicates *)

(** The start and the end of a segment as [float()] reads them, and its
    length as the code computes it. *)
Definition float_start (seg : Segment) : Q := Py.float (Py.get (seg_start seg) 0).
Definition float_end (seg : Segment) : Q := Py.float (Py.get (seg_end seg) 0).
Definition float_length (seg : Segment) : Q :=
  Py.fsub (float_end seg) (float_start seg).

(** The pair [(s, e)] clamped into [[0, D]], as [_add_interval] does. *)
Definition clamped (s e D : Q) : Interval :=
  (Py.max 0 (Py.min s D), Py.max 0 (Py.min e D)).

(** The last interval of the list ends at [D]. *)
Fixpoint ends_at (D : Q) (M : list Interval) : Prop :=
  match M with
  | [] => True
  | (s, e) :: r =>
      match r with
      | [] => e == D
      | _ => ends_at D r
      end
  end.

(** The keep interval [k] has nothing in common with the open interval
    from [a] to [b]. *)
Definition clear_of (k : Interval) (a b : Q) : Prop :=
  snd k <= a \/ b <= fst k.

(** The segments come with midpoints that never decrease, from [m] on. *)
Fixpoint mids_from (m : Q) (segs : list Segment) : Prop :=
  match segs with
  | [] => True
  | seg :: rest => m <= Hardcut.seg_mid seg /\ mids_from (Hardcut.seg_mid seg) rest
  end.

(** The shots that hold segments come first: from each shot on, either no
    later shot holds a segment, or the shot ends more than the tolerance
    before the midpoint [m]. *)
Fixpoint filled_in_order (m : Q) (shots : list Shot) : Prop :=
  match shots with
  | [] => True
  | shot :: rest =>
      flat_map shot_segments rest = []
      \/ (Py.get (shot_end shot) 0 + (1 # 1000000) < m
          /\ filled_in_order m rest)
  end.

(** The start and the end of every shot. *)
Definition frames (shots : list Shot) : list (option Q * option Q) :=
  map (fun shot => (shot_start shot, shot_end shot)) shots.

(** The first shot starts at the latest at [m], up to the tolerance. *)
Definition starts_by (m : Q) (shots : list Shot) : Prop :=
  match shots with
  | [] => True
  | shot :: _ => Py.get (shot_start shot) 0 - (1 # 1000000) <= m
  end.

(** Intervals in ascending order without overlap, from [lo] on. *)
Fixpoint in_order (lo : Q) (l : list Interval) : Prop :=
  match l with
  | [] => True
  | (s, e) :: r => lo <= s /\ s <= e /\ in_order e r
  end.

(** The span of a shot, with the defaults of the code. *)
Definition span (shot : Shot) : Interval :=
  (Py.get (shot_start shot) 0, Py.get (shot_end shot) 0).

(** The kept length of a span. *)
Definition kept_of (keeps : list Interval) (sp : Interval) : Q :=
  Hardcut.kept_length (fst sp) (snd sp) keeps.

(** The total weight of the segments collected for a group. *)
Definition group_weight (shots : list BgmCreate.BgmShot) (g : Interval) : Q :=
  Qsum (map snd (BgmCreate._collect_segments_for_group shots (fst g) (snd g))).

(** All the segments of the shots, and the length of a segment. *)
Definition speech (shots : list BgmCreate.BgmShot) : list Segment :=
  flat_map BgmCreate.segments shots.

Definition seg_length (seg : Segment) : Q := seg_end_of seg - seg_start_of seg.

(** The weight of one segment in one group. *)
Definition seg_weight (seg : Segment) (g : Interval) : Q :=
  Py.max 0 (Py.min (seg_end_of seg) (snd g) - Py.max (seg_start_of seg) (fst g)).

(** The start and the end of an entry of [_extract_shots]. *)
Definition bgm_span (shot : BgmCreate.BgmShot) : Interval :=
  (BgmCreate.start shot, BgmCreate.end_ shot).

(** Two lists of windows with the same bounds, window by window. *)
Definition same_windows (ws ws' : list Interval) : Prop :=
  Forall2 (fun w w' => fst w == fst w' /\ snd w == snd w') ws ws'.

(** The shots cover the timeline from [from] to [D] one after the other:
    the first starts at [from], each starts where the one before it ends,
    none is reversed, the last ends at [D]. *)
Fixpoint joined (from : Q) (shots : list BgmCreate.BgmShot) (D : Q) : Prop :=
  match shots with
  | [] => from == D
  | shot :: r =>
      BgmCreate.start shot == from
      /\ BgmCreate.start shot <= BgmCreate.end_ shot
      /\ joined (BgmCreate.end_ shot) r D
  end.

(** Times that never decrease, from [lo] on. *)
Fixpoint rising (lo : Q) (l : list Q) : Prop :=
  match l with
  | [] => True
  | t :: r => lo <= t /\ rising t r
  end.

(** Spans that follow one another from [from] on: each starts where the one
    before it ends, none is reversed. *)
Fixpoint linked (from : Q) (l : list Interval) : Prop :=
  match l with
  | [] => True
  | (s, e) :: r => s == from /\ s <= e /\ linked e r
  end.

(** *** The mood of a group *)

Definition emo_get (d : BgmCreate.EmoDur) (k : BgmCreate.EmoKey) : Q :=
  match k with
  | BgmCreate.hap => BgmCreate.d_hap d
  | BgmCreate.ang => BgmCreate.d_ang d
  | BgmCreate.sad => BgmCreate.d_sad d
  | BgmCreate.neu => BgmCreate.d_neu d
  | BgmCreate.other => BgmCreate.d_other d
  end.

(** The weight of the segments counted under the key [k], and the weight of
    all the segments. *)
Definition label_weight (k : BgmCreate.EmoKey)
  (segs : list (BgmCreate.MoodSeg * Q)) : Q :=
  Qsum (map (fun sw =>
               if BgmCreate.emo_eqb (BgmCreate.emo_key (fst sw)) k
               then snd sw else 0) segs).

Definition total_weight (segs : list (BgmCreate.MoodSeg * Q)) : Q :=
  Qsum (map snd segs).

Definition weights_nonneg (segs : list (BgmCreate.MoodSeg * Q)) : Prop :=
  Forall (fun sw => 0 <= snd sw) segs.

(** The segments with a tempo estimate above 0. *)
Definition tempo_votes (segs : list (BgmCreate.MoodSeg * Q))
  : list (BgmCreate.MoodSeg * Q) :=
  filter (fun sw => BgmCreate.counts_bpm (fst sw)) segs.

(** The tempo estimates above 0, each times the weight of its segment,
    added up. *)
Definition bpm_mass (segs : list (BgmCreate.MoodSeg * Q)) : Q :=
  Qsum (map (fun sw => Py.get (BgmCreate.bpm_est (fst sw)) 0 * snd sw)
            (tempo_votes segs)).

(** *** The labels of the texture phrase *)

(** [counter.get(k, 0.0)]. *)
Fixpoint counter_get (counter : list (string * Q)) (k : string) : Q :=
  match counter with
  | [] => 0
  | (k', v) :: r => if String.eqb k k' then v else counter_get r k
  end.

(** One of the two counters after the loop over the segments, from the
    counter [counter] on; [tag_of] reads the tag of a segment. *)
Definition count_all (tag_of : BgmCreate.MoodSeg -> option string)
  (counter : list (string * Q)) (segs : list (BgmCreate.MoodSeg * Q))
  : list (string * Q) :=
  fold_left (fun c sw => BgmCreate.count_tag c (tag_of (fst sw)) (snd sw))
            segs counter.

(** The weight of the segments that carry the tag [t]. *)
Definition tag_weight (tag_of : BgmCreate.MoodSeg -> option string)
  (t : string) (segs : list (BgmCreate.MoodSeg * Q)) : Q :=
  Qsum (map (fun sw =>
               match tag_of (fst sw) with
               | Some t' => if String.eqb t' t then snd sw else 0
               | None => 0
               end) segs).

(** Some segment carries the non-empty tag [t]. *)
Definition tagged (tag_of : BgmCreate.MoodSeg -> option string)
  (t : string) (segs : list (BgmCreate.MoodSeg * Q)) : Prop :=
  t <> ""%string /\ exists sw, In sw segs /\ tag_of (fst sw) = Some t.

(** The label picked for a field is the heaviest tag of that field. *)
Definition heaviest_tag (tag_of : BgmCreate.MoodSeg -> option string)
  (segs : list (BgmCreate.MoodSeg * Q)) (label : option string) : Prop :=
  match label with
  | None => forall t, ~ tagged tag_of t segs
  | Some t =>
      tagged tag_of t segs
      /\ forall t', tagged tag_of t' segs ->
           tag_weight tag_of t' segs <= tag_weight tag_of t segs
  end.

(** *** The segments merged into the shots *)

(** The segment [seg] is the entry of one of the transcribed segments, one
    that is not empty and whose midpoint lies in the span [sp]. *)
Definition merged_from (segments : list Segment) (sp : Interval)
  (seg : Segment) : Prop :=
  exists raw,
    In raw segments
    /\ seg_start_of raw < seg_end_of raw
    /\ seg = Main.seg_entry raw
    /\ fst sp <= (1 # 2) * (seg_start_of raw + seg_end_of raw) <= snd sp.

(** The shot [shot'] is the shot [shot] with entries of [segments] added
    after its own segments. *)
Definition shot_grown (segments : list Segment) (shot shot' : Shot) : Prop :=
  span shot' = span shot
  /\ exists added,
       shot_segments shot' = shot_segments shot ++ added
       /\ Forall (merged_from segments (span shot)) added.

(** * Properties *)

(** ** The comparisons of [Py] *)

Lemma ltb_true (a b : Q) : Py.ltb a b = true <-> a < b.
Proof.
  unfold Py.ltb. rewrite negb_true_iff. split; intro H.
  - apply Qnot_le_lt. intro Hle. apply Qle_bool_iff in Hle. congruence.
  - destruct (Qle_bool b a) eqn:E; [|reflexivity].
    apply Qle_bool_iff in E. lra.
Qed.

Lemma ltb_false (a b : Q) : Py.ltb a b = false <-> b <= a.
Proof.
  unfold Py.ltb. rewrite negb_false_iff. apply Qle_bool_iff.
Qed.

Lemma leb_true (a b : Q) : Py.leb a b = true <-> a <= b.
Proof. apply Qle_bool_iff. Qed.

Lemma leb_false (a b : Q) : Py.leb a b = false <-> b < a.
Proof.
  unfold Py.leb. split; intro H.
  - apply Qnot_le_lt. intro Hle. apply Qle_bool_iff in Hle. congruence.
  - destruct (Qle_bool a b) eqn:E; [|reflexivity].
    apply Qle_bool_iff in E. lra.
Qed.

(** Case analysis on every comparison in the goal, leaving its outcome as
    an inequality among the hypotheses. *)
Ltac py_case :=
  match goal with
  | |- context [Py.ltb ?a ?b] =>
      let E := fresh "E" in
      destruct (Py.ltb a b) eqn:E;
      [apply ltb_true in E | apply ltb_false in E]
  | |- context [Py.leb ?a ?b] =>
      let E := fresh "E" in
      destruct (Py.leb a b) eqn:E;
      [apply leb_true in E | apply leb_false in E]
  end.

Ltac py_cases := unfold Py.min, Py.max, Py.abs; repeat py_case.

Lemma max_ge_l (a b : Q) : a <= Py.max a b.
Proof. py_cases; lra. Qed.

Lemma max_ge_r (a b : Q) : b <= Py.max a b.
Proof. py_cases; lra. Qed.

Lemma min_lt (a b : Q) : a < b -> Py.min a b = a.
Proof. intro H. py_cases; [lra | reflexivity]. Qed.

Lemma max_lt (a b : Q) : a < b -> Py.max a b = b.
Proof. intro H. py_cases; [reflexivity | lra]. Qed.

(** ** The stable sort *)

Section SortFacts.
Context {A : Type} (key : A -> Q).

Lemma insert_Forall (P : A -> Prop) (x : A) (l : list A) :
  P x -> Forall P l -> Forall P (Py.insert key x l).
Proof.
  intros Hx Hl. induction Hl as [|y l Hy Hl IH]; simpl.
  - constructor; [assumption | constructor].
  - destruct (Py.leb (key x) (key y)).
    + constructor; [assumption | constructor; assumption].
    + constructor; assumption.
Qed.

Lemma sort_Forall (P : A -> Prop) (l : list A) :
  Forall P l -> Forall P (Py.sort key l).
Proof.
  unfold Py.sort. induction 1 as [|x l Hx Hl IH]; simpl.
  - constructor.
  - apply insert_Forall; assumption.
Qed.

Lemma insert_In (x y : A) (l : list A) :
  In y (Py.insert key x l) <-> y = x \/ In y l.
Proof.
  induction l as [|z l IH]; simpl.
  - intuition.
  - destruct (Py.leb (key x) (key z)); simpl; rewrite ?IH; intuition.
Qed.

Lemma sort_In (y : A) (l : list A) : In y (Py.sort key l) <-> In y l.
Proof.
  unfold Py.sort. induction l as [|x l IH]; simpl.
  - tauto.
  - rewrite insert_In, IH. intuition.
Qed.

Lemma insert_ascending (x : A) (l : list A) :
  ascending key l -> ascending key (Py.insert key x l).
Proof.
  induction l as [|y l IH]; simpl; intros Hl.
  - tauto.
  - destruct (Py.leb (key x) (key y)) eqn:E.
    + apply leb_true in E. simpl. tauto.
    + apply leb_false in E. destruct Hl as [Hy Hl].
      specialize (IH Hl). simpl. split; [|exact IH].
      destruct l as [|z l]; simpl in *.
      * lra.
      * destruct (Py.leb (key x) (key z)); [lra | exact Hy].
Qed.

Lemma sort_ascending (l : list A) : ascending key (Py.sort key l).
Proof.
  unfold Py.sort. induction l as [|x l IH]; simpl.
  - exact I.
  - apply insert_ascending, IH.
Qed.

(** A list already in ascending key order is left as it is. *)
Lemma sort_of_ascending (l : list A) : ascending key l -> Py.sort key l = l.
Proof.
  unfold Py.sort. induction l as [|x l IH]; simpl; intros Hl.
  - reflexivity.
  - destruct Hl as [Hx Hl]. rewrite (IH Hl).
    destruct l as [|y l]; simpl.
    + reflexivity.
    + apply leb_true in Hx. rewrite Hx. reflexivity.
Qed.
End SortFacts.

(** ** The interval merger *)

Lemma EPS_pos : 0 < Hardcut.EPS.
Proof. reflexivity. Qed.

Lemma sweep_app (merged : list Interval) (cur_s cur_e : Q) (rest : list Interval) :
  Hardcut.sweep merged cur_s cur_e rest
  = merged ++ Hardcut.sweep [] cur_s cur_e rest.
Proof.
  revert merged cur_s cur_e.
  induction rest as [|[s e] rest IH]; intros merged cur_s cur_e; simpl.
  - reflexivity.
  - destruct (Py.leb s (cur_e + Hardcut.EPS)).
    + apply IH.
    + rewrite IH. rewrite (IH [(cur_s, cur_e)]).
      rewrite <- app_assoc. reflexivity.
Qed.

(** The equations of the sweep, without the accumulator. *)
Lemma sweep_absorb (cur_s cur_e s e : Q) (rest : list Interval) :
  s <= cur_e + Hardcut.EPS ->
  Hardcut.sweep [] cur_s cur_e ((s, e) :: rest)
  = Hardcut.sweep [] cur_s (Py.max cur_e e) rest.
Proof.
  intro H. apply leb_true in H. simpl. rewrite H. reflexivity.
Qed.

Lemma sweep_emit (cur_s cur_e s e : Q) (rest : list Interval) :
  cur_e + Hardcut.EPS < s ->
  Hardcut.sweep [] cur_s cur_e ((s, e) :: rest)
  = (cur_s, cur_e) :: Hardcut.sweep [] s e rest.
Proof.
  intro H. apply leb_false in H. simpl. rewrite H.
  rewrite sweep_app. reflexivity.
Qed.

Lemma sweep_separated (rest : list Interval) :
  forall cur_s cur_e,
    Hardcut.EPS < cur_e - cur_s ->
    Forall long rest ->
    separated (Hardcut.sweep [] cur_s cur_e rest)
    /\ exists e' out, Hardcut.sweep [] cur_s cur_e rest = (cur_s, e') :: out.
Proof.
  induction rest as [|[s e] rest IH]; intros cur_s cur_e Hcur Hrest.
  - simpl. split; [tauto | eauto].
  - inversion Hrest as [|? ? Hse Hrest']; subst.
    destruct (Qlt_le_dec (cur_e + Hardcut.EPS) s) as [Hgap|Hnear].
    + rewrite sweep_emit by assumption.
      destruct (IH s e Hse Hrest') as [Hsep (e' & out & Heq)].
      split; [|eauto].
      rewrite Heq in *. simpl. simpl in Hsep. tauto.
    + rewrite sweep_absorb by assumption.
      apply IH; [|assumption].
      pose proof (max_ge_l cur_e e). lra.
Qed.

Lemma normalize_long (l : list Interval) : Forall long (Hardcut.normalize l).
Proof.
  unfold Hardcut.normalize. apply Forall_forall. intros i Hi.
  apply in_map_iff in Hi. destruct Hi as ([a b] & <- & Hab).
  apply filter_In in Hab. destruct Hab as [_ Hab]. simpl in Hab.
  apply ltb_true in Hab. unfold long, len. simpl.
  revert Hab. py_cases; lra.
Qed.

Lemma merge_separated (S M : list Interval) :
  Hardcut._merge_intervals S = Return M -> separated M.
Proof.
  unfold Hardcut._merge_intervals. destruct S as [|i S].
  - intros [= <-]. exact I.
  - pose proof (sort_Forall fst long _ (normalize_long (i :: S))) as Hl.
    destruct (Py.sort fst (Hardcut.normalize (i :: S))) as [|[s e] rest];
      [discriminate|].
    intros [= <-]. inversion Hl as [|? ? Hse Hrest]; subst.
    apply sweep_separated; assumption.
Qed.

Lemma separated_long (M : list Interval) : separated M -> Forall long M.
Proof.
  induction M as [|[s e] M IH]; simpl; intros H.
  - constructor.
  - constructor; [unfold long, len; simpl; tauto | apply IH; tauto].
Qed.

Lemma separated_ascending (M : list Interval) : separated M -> ascending fst M.
Proof.
  induction M as [|[s e] M IH]; simpl; intros H.
  - exact I.
  - destruct H as (Hse & Hnext & Hsep). split; [|apply IH; assumption].
    destruct M as [|[s' e'] M]; [exact I|]. simpl.
    pose proof EPS_pos. lra.
Qed.

Lemma normalize_of_long (M : list Interval) :
  Forall long M -> Hardcut.normalize M = M.
Proof.
  unfold Hardcut.normalize.
  induction 1 as [|[s e] M Hse HM IH]; simpl.
  - reflexivity.
  - unfold long, len in Hse. simpl in Hse. pose proof EPS_pos.
    assert (Hkeep : Py.ltb Hardcut.EPS (Py.abs (e - s)) = true).
    { apply ltb_true. py_cases; lra. }
    rewrite Hkeep. simpl. rewrite IH.
    rewrite min_lt, max_lt by lra. reflexivity.
Qed.

Lemma sweep_of_separated (M : list Interval) :
  forall s e, separated ((s, e) :: M) -> Hardcut.sweep [] s e M = (s, e) :: M.
Proof.
  induction M as [|[s' e'] M IH]; intros s e H.
  - reflexivity.
  - destruct H as (Hse & Hnext & Hsep).
    rewrite sweep_emit by assumption. rewrite IH by assumption. reflexivity.
Qed.

(** A merged list is a fixed point of the merger. *)
Lemma merge_of_separated (M : list Interval) :
  separated M -> Hardcut._merge_intervals M = Return M.
Proof.
  intro H. unfold Hardcut._merge_intervals.
  destruct M as [|[s e] M]; [reflexivity|].
  rewrite normalize_of_long by (apply separated_long; assumption).
  rewrite sort_of_ascending by (apply separated_ascending; assumption).
  rewrite sweep_of_separated by assumption. reflexivity.
Qed.

(** C3. Merge idempotence: for every list of intervals [S],
    [merge(merge(S))] gives the result of [merge(S)].  Where [merge(S)]
    returns a list, merging that list returns it unchanged; where
    [merge(S)] raises, so does [merge(merge(S))]. *)
Theorem merge_idempotent (S : list Interval) :
  merge_twice S = Hardcut._merge_intervals S.
Proof.
  unfold merge_twice.
  destruct (Hardcut._merge_intervals S) as [M|e] eqn:E; simpl.
  - apply merge_of_separated. eapply merge_separated. exact E.
  - reflexivity.
Qed.

(** The merger on an input it accepts: the result is a merged list, it
    covers every pair that is kept, and its boundaries are boundaries of
    kept pairs. *)
Lemma sweep_cover (rest : list Interval) :
  forall cur_s cur_e i,
    ascending fst ((cur_s, cur_e) :: rest) ->
    In i ((cur_s, cur_e) :: rest) ->
    exists o, In o (Hardcut.sweep [] cur_s cur_e rest) /\ within i o.
Proof.
  induction rest as [|[s e] rest IH]; intros cur_s cur_e i Hasc Hin.
  - destruct Hin as [<-|[]]. exists (cur_s, cur_e).
    split; [left; reflexivity | unfold within; simpl; lra].
  - destruct Hasc as [Hcs Hasc]. simpl in Hcs.
    destruct (Qlt_le_dec (cur_e + Hardcut.EPS) s) as [Hgap|Hnear].
    + rewrite sweep_emit by assumption.
      destruct Hin as [<-|Hin].
      * exists (cur_s, cur_e).
        split; [left; reflexivity | unfold within; simpl; lra].
      * destruct (IH s e i Hasc Hin) as (o & Ho & Hw).
        exists o. split; [right; assumption | assumption].
    + rewrite sweep_absorb by assumption.
      assert (Hasc' : ascending fst ((cur_s, Py.max cur_e e) :: rest)).
      { destruct Hasc as [Hs Hasc]. split; [|assumption].
        destruct rest as [|[s' e'] rest]; [exact I|]. simpl in *. lra. }
      pose proof (max_ge_l cur_e e). pose proof (max_ge_r cur_e e).
      assert (Hhead : exists o,
                 In o (Hardcut.sweep [] cur_s (Py.max cur_e e) rest)
                 /\ within (cur_s, Py.max cur_e e) o).
      { apply IH; [assumption | left; reflexivity]. }
      destruct Hin as [<-|[<-|Hin]].
      * destruct Hhead as (o & Ho & Hw). exists o. split; [assumption|].
        unfold within in *. simpl in *. lra.
      * destruct Hhead as (o & Ho & Hw). exists o. split; [assumption|].
        unfold within in *. simpl in *. lra.
      * apply IH; [assumption | right; assumption].
Qed.

Lemma sweep_boundaries (rest : list Interval) :
  forall cur_s cur_e o,
    In o (Hardcut.sweep [] cur_s cur_e rest) ->
    In (fst o) (map fst ((cur_s, cur_e) :: rest))
    /\ In (snd o) (map snd ((cur_s, cur_e) :: rest)).
Proof.
  induction rest as [|[s e] rest IH]; intros cur_s cur_e o Ho.
  - destruct Ho as [<-|[]]. simpl. tauto.
  - simpl in Ho. destruct (Py.leb s (cur_e + Hardcut.EPS)).
    + apply IH in Ho. simpl in Ho. simpl.
      assert (Hmax : Py.max cur_e e = cur_e \/ Py.max cur_e e = e)
        by (unfold Py.max; destruct (Py.ltb cur_e e); tauto).
      destruct Ho as [Hs He]. split; [tauto|].
      destruct He as [He|He]; [|tauto].
      destruct Hmax as [Hm|Hm]; rewrite Hm in He; tauto.
    + rewrite sweep_app in Ho. destruct Ho as [<-|Ho].
      * simpl. tauto.
      * apply IH in Ho. simpl in *. tauto.
Qed.

Lemma merge_contract (S M : list Interval) :
  Hardcut._merge_intervals S = Return M ->
  separated M
  /\ (forall i, In i (Hardcut.normalize S) -> exists o, In o M /\ within i o)
  /\ (forall o, In o M ->
        In (fst o) (map fst (Hardcut.normalize S))
        /\ In (snd o) (map snd (Hardcut.normalize S))).
Proof.
  intro H. split; [eapply merge_separated; eassumption|].
  unfold Hardcut._merge_intervals in H. destruct S as [|i0 S].
  - injection H as <-. split; [intros i []|intros o []].
  - pose proof (sort_ascending fst (Hardcut.normalize (i0 :: S))) as Hasc.
    pose proof (fun y => sort_In fst y (Hardcut.normalize (i0 :: S))) as Hin.
    destruct (Py.sort fst (Hardcut.normalize (i0 :: S))) as [|[s e] rest];
      [discriminate|].
    injection H as <-. split.
    + intros i Hi. apply sweep_cover; [assumption | apply Hin; assumption].
    + intros o Ho. apply sweep_boundaries in Ho. destruct Ho as [Hs He].
      apply in_map_iff in Hs. destruct Hs as (x & Hx & Hxin).
      apply in_map_iff in He. destruct He as (y & Hy & Hyin).
      rewrite <- Hx, <- Hy. split; apply in_map, Hin; assumption.
Qed.

(** The merger returns on every input that holds a pair longer than
    [EPS], and raises on a non-empty input that holds none. *)
Lemma merge_returns (S : list Interval) :
  Exists (fun ab => Hardcut.EPS < Py.abs (snd ab - fst ab)) S ->
  exists M, Hardcut._merge_intervals S = Return M.
Proof.
  intro H. unfold Hardcut._merge_intervals.
  destruct S as [|i0 S]; [eauto|].
  destruct (Py.sort fst (Hardcut.normalize (i0 :: S))) as [|[s e] rest] eqn:E;
    [|eauto].
  exfalso. apply Exists_exists in H. destruct H as (ab & Hin & Hab).
  assert (In (Py.min (fst ab) (snd ab), Py.max (fst ab) (snd ab))
             (Py.sort fst (Hardcut.normalize (i0 :: S)))) as Hn.
  { apply sort_In. unfold Hardcut.normalize.
    apply (in_map (fun ab => (Py.min (fst ab) (snd ab), Py.max (fst ab) (snd ab)))).
    apply filter_In. split; [assumption | apply ltb_true; assumption]. }
  rewrite E in Hn. destruct Hn.
Qed.

Lemma merge_raises (S : list Interval) :
  S <> [] ->
  Forall (fun ab => Py.abs (snd ab - fst ab) <= Hardcut.EPS) S ->
  Hardcut._merge_intervals S = Raise (IndexError "list index out of range").
Proof.
  intros Hne Hall. unfold Hardcut._merge_intervals.
  destruct S as [|i0 S]; [congruence|].
  assert (Hnil : Hardcut.normalize (i0 :: S) = []).
  { unfold Hardcut.normalize. generalize (i0 :: S) Hall. clear.
    induction 1 as [|ab l Hab Hl IH]; simpl.
    - reflexivity.
    - apply ltb_false in Hab. simpl in Hab. rewrite Hab. exact IH. }
  rewrite Hnil. reflexivity.
Qed.

(** C2. The interval merger on [[(1.0, 1.0)]]: the only pair is discarded
    as degenerate, and reading the first interval of the now empty list
    raises [IndexError], where the contract asks for the empty cover. *)
Theorem merge_degenerate_input_raises :
  Hardcut._merge_intervals [(1, 1)]
  = Raise (IndexError "list index out of range").
Proof. reflexivity. Qed.

(** ** The keep-set builder *)

Lemma total_app (a b : list Interval) : total (a ++ b) == total a + total b.
Proof.
  induction a as [|i a IH]; simpl.
  - lra.
  - rewrite IH. lra.
Qed.

Lemma count_cons (i : Interval) (l : list Interval) :
  count (i :: l) == count l + 1.
Proof.
  unfold count. simpl List.length. rewrite Nat2Z.inj_succ.
  unfold Z.succ. rewrite inject_Z_plus. reflexivity.
Qed.

Lemma count_nonneg (l : list Interval) : 0 <= count l.
Proof.
  unfold count. change 0 with (inject_Z 0). rewrite <- Zle_Qle. lia.
Qed.

Lemma keeps_loop_app (cuts keeps : list Interval) (cur : Q) :
  Hardcut.keeps_loop keeps cur cuts
  = (keeps ++ fst (Hardcut.keeps_loop [] cur cuts),
     snd (Hardcut.keeps_loop [] cur cuts)).
Proof.
  revert keeps cur. induction cuts as [|[s e] cuts IH]; intros keeps cur; simpl.
  - rewrite app_nil_r. reflexivity.
  - destruct (Py.ltb Hardcut.EPS (s - cur)).
    + rewrite IH. rewrite (IH ([] ++ [(cur, s)])). simpl.
      rewrite <- app_assoc. reflexivity.
    + apply IH.
Qed.

Lemma build_keeps_from (cuts : list Interval) (duration : Q) :
  Hardcut._build_keeps cuts duration = keeps_from 0 cuts duration.
Proof. reflexivity. Qed.

Lemma keeps_from_nil (cur duration : Q) :
  keeps_from cur [] duration
  = if Py.ltb Hardcut.EPS (duration - cur) then [(cur, duration)] else [].
Proof. reflexivity. Qed.

Lemma keeps_from_cons (cur s e duration : Q) (cuts : list Interval) :
  keeps_from cur ((s, e) :: cuts) duration
  = (if Py.ltb Hardcut.EPS (s - cur) then [(cur, s)] else [])
      ++ keeps_from (Py.max cur e) cuts duration.
Proof.
  unfold keeps_from. simpl. rewrite keeps_loop_app.
  destruct (Hardcut.keeps_loop [] (Py.max cur e) cuts) as [keeps cur'].
  simpl. destruct (Py.ltb Hardcut.EPS (s - cur));
    destruct (Py.ltb Hardcut.EPS (duration - cur')); simpl;
    rewrite ?app_nil_r; reflexivity.
Qed.

Lemma chain_le (D lo lo' : Q) (C : list Interval) :
  lo' <= lo -> chain D lo C -> chain D lo' C.
Proof.
  destruct C as [|[s e] C]; simpl; intros; intuition lra.
Qed.

Lemma chain_bounds (D : Q) (C : list Interval) :
  forall lo, chain D lo C ->
    lo <= D /\ forall c, In c C -> lo <= fst c /\ fst c <= snd c /\ snd c <= D.
Proof.
  induction C as [|[s e] C IH]; simpl; intros lo H.
  - split; [assumption | intros c []].
  - destruct H as (Hlo & Hse & Hc). destruct (IH e Hc) as [HeD Hall].
    split; [lra|]. intros c [<-|Hin]; simpl.
    + repeat split; lra.
    + destruct (Hall c Hin) as (H1 & H2 & H3). repeat split; lra.
Qed.

Lemma chain_step (D cur s e : Q) (C : list Interval) :
  chain D cur ((s, e) :: C) -> chain D (Py.max cur e) C /\ Py.max cur e == e.
Proof.
  simpl. intros (Hlo & Hse & Hc).
  assert (Hm : Py.max cur e == e) by (py_cases; lra).
  split; [|assumption]. apply (chain_le D e); [lra | assumption].
Qed.

Lemma keeps_total (D : Q) (C : list Interval) :
  forall cur, chain D cur C ->
    D - cur - Hardcut.EPS * (count C + 1)
    <= total (keeps_from cur C D) + total C <= D - cur.
Proof.
  pose proof EPS_pos as Heps.
  induction C as [|[s e] C IH]; intros cur H.
  - rewrite keeps_from_nil. simpl in H. change (count []) with 0.
    py_cases; unfold total, len; simpl fold_right; simpl fst; simpl snd; lra.
  - destruct (chain_step _ _ _ _ _ H) as [Hc Hm].
    specialize (IH _ Hc). destruct H as (Hlo & Hse & _).
    rewrite keeps_from_cons, total_app, count_cons.
    change (total ((s, e) :: C)) with (e - s + total C).
    assert (Hhead : total (if Py.ltb Hardcut.EPS (s - cur) then [(cur, s)] else [])
                    == if Py.ltb Hardcut.EPS (s - cur) then s - cur else 0).
    { destruct (Py.ltb Hardcut.EPS (s - cur)); unfold total, len; simpl; lra. }
    rewrite Hhead.
    py_case; cbv beta iota; lra.
Qed.

Lemma keeps_no_overlap (D : Q) (C : list Interval) :
  forall cur, chain D cur C ->
    forall k, In k (keeps_from cur C D) ->
      cur <= fst k /\ snd k <= D
      /\ forall c, In c C -> snd k <= fst c \/ snd c <= fst k.
Proof.
  induction C as [|[s e] C IH]; intros cur H k Hk.
  - rewrite keeps_from_nil in Hk. simpl in H.
    destruct (Py.ltb Hardcut.EPS (D - cur)); [|destruct Hk].
    destruct Hk as [<-|[]]. simpl. repeat split; try lra. intros c [].
  - destruct (chain_step _ _ _ _ _ H) as [Hc Hm].
    destruct H as (Hlo & Hse & Hch).
    destruct (chain_bounds _ _ _ Hch) as [HeD Hall].
    rewrite keeps_from_cons in Hk. apply in_app_iff in Hk.
    destruct Hk as [Hk|Hk].
    + destruct (Py.ltb Hardcut.EPS (s - cur)); [|destruct Hk].
      destruct Hk as [<-|[]]. simpl. repeat split; try lra.
      intros c [<-|Hin]; simpl; [lra|].
      destruct (Hall c Hin) as (H1 & _). lra.
    + destruct (IH _ Hc k Hk) as (H1 & H2 & H3).
      repeat split; try lra.
      intros c [<-|Hin]; simpl; [right; lra | apply H3; assumption].
Qed.

Lemma keeps_cover (D : Q) (C : list Interval) :
  forall cur, chain D cur C ->
    forall t, cur <= t <= D ->
      covered (keeps_from cur C D ++ C) t \/ before_boundary D C t.
Proof.
  induction C as [|[s e] C IH]; intros cur H t Ht.
  - rewrite keeps_from_nil. py_case.
    + left. exists (cur, D). simpl. split; [tauto | lra].
    + right. exists D. split; [lra | tauto].
  - destruct (chain_step _ _ _ _ _ H) as [Hc Hm].
    destruct H as (Hlo & Hse & Hch).
    rewrite keeps_from_cons.
    destruct (Qlt_le_dec t s) as [Hts|Hst].
    { py_case.
      - left. exists (cur, s). simpl. split; [tauto | lra].
      - right. exists s. simpl. split; [lra | tauto]. }
    destruct (Qlt_le_dec e t) as [Het|Hte].
    + destruct (IH _ Hc t ltac:(lra)) as [(i & Hi & Hti)|(b & Hb & Hbb)].
      * left. exists i. split; [|assumption].
        rewrite !in_app_iff in *. simpl. tauto.
      * right. exists b. split; [assumption|]. simpl. tauto.
    + left. exists (s, e). split; [|simpl; lra].
      rewrite !in_app_iff. simpl. tauto.
Qed.

(** C1. The keep-set builder on a cut-set [C] of a duration [D > 0] (sorted,
    pairwise disjoint, contained in [[0, D]]): no keep interval overlaps a
    cut interval; the keep lengths and the cut lengths add up to [D] less at
    most [EPS * (|C| + 1)], a gap of at most [EPS] before each cut and at the
    end being left out of the keeps; every time of [[0, D]] lies in a keep, in
    a cut, or at most [EPS] before a cut or the end.  With duration 100 the
    cuts [(0,2),(1,3),(50,50.5)] merge to [(0,3),(50,50.5)] and the keeps
    are [(3,50),(50.5,100)]. *)
Theorem keep_cut_partition :
  (forall (D : Q) (C : list Interval),
      0 < D -> cut_set D C ->
      let K := Hardcut._build_keeps C D in
      no_overlap K C
      /\ D - Hardcut.EPS * (count C + 1) <= total K + total C <= D
      /\ forall t, 0 <= t <= D -> covered (K ++ C) t \/ before_boundary D C t)
  /\ Hardcut._merge_intervals [(0, 2); (1, 3); (50, 101 # 2)]
     = Return [(0, 3); (50, 101 # 2)]
  /\ Hardcut._build_keeps [(0, 3); (50, 101 # 2)] 100
     = [(3, 50); (101 # 2, 100)].
Proof.
  split; [|split; reflexivity].
  intros D C HD HC K. subst K. rewrite build_keeps_from.
  unfold cut_set in HC. split; [|split].
  - intros k c Hk Hc.
    destruct (keeps_no_overlap D C 0 HC k Hk) as (_ & _ & H). apply H, Hc.
  - pose proof (keeps_total D C 0 HC). lra.
  - intros t Ht. apply keeps_cover; assumption.
Qed.

Lemma keep_cut_partition_witness :
  let D := 100 in
  let C := [(0, 3); (50, 101 # 2)] in
  let K := Hardcut._build_keeps C D in
  no_overlap K C
  /\ D - Hardcut.EPS * (count C + 1) <= total K + total C <= D
  /\ forall t, 0 <= t <= D -> covered (K ++ C) t \/ before_boundary D C t.
Proof.
  apply (proj1 keep_cut_partition).
  - reflexivity.
  - unfold cut_set. simpl. repeat split; unfold Qle; simpl; lia.
Defined.

(** C1, as first stated: with [D = 1] and the single cut
    [(9e-7, 1 - 9e-7)], a merged cut-set, no keep is produced and the
    lengths add up to [1 - 1.8e-6], which is further from [D] than
    [EPS * |C|]. *)
Lemma keep_cut_partition_counterexample :
  let D := 1 in
  let C := [(9 # 10000000, 1 - (9 # 10000000))] in
  cut_set D C
  /\ Hardcut._merge_intervals C = Return C
  /\ ~ partition_within (Hardcut.EPS * count C) D C.
Proof.
  split; [|split].
  - unfold cut_set. simpl. repeat split; unfold Qle; simpl; lia.
  - reflexivity.
  - intros (_ & Hlow & _). vm_compute in Hlow. apply Hlow. reflexivity.
Qed.

(** ** The shot reconstructor *)

Lemma kept_length_from (s0 e0 : Q) (keeps : list Interval) :
  forall acc,
    fold_left
      (fun kept_len ks_ke =>
         let inter_s := Py.max s0 (fst ks_ke) in
         let inter_e := Py.min e0 (snd ks_ke) in
         if Py.ltb Hardcut.EPS (inter_e - inter_s)
         then kept_len + (inter_e - inter_s)
         else kept_len)
      keeps acc
    == acc + counted_overlap_sum (s0, e0) keeps.
Proof.
  induction keeps as [|[ks ke] keeps IH]; intros acc; simpl.
  - lra.
  - rewrite IH. unfold counted_overlap. simpl.
    destruct (Py.ltb Hardcut.EPS (Py.min e0 ke - Py.max s0 ks)); lra.
Qed.

Lemma kept_length_counted (s0 e0 : Q) (keeps : list Interval) :
  Hardcut.kept_length s0 e0 keeps == counted_overlap_sum (s0, e0) keeps.
Proof.
  unfold Hardcut.kept_length. rewrite kept_length_from. lra.
Qed.

Lemma counted_overlap_bounds (a b : Interval) :
  overlap a b - Hardcut.EPS <= counted_overlap a b <= overlap a b.
Proof.
  unfold overlap, counted_overlap.
  set (d := Py.min (snd a) (snd b) - Py.max (fst a) (fst b)).
  pose proof EPS_pos. unfold Py.max at 1 2. repeat py_case; lra.
Qed.

Lemma counted_overlap_sum_bounds (shot : Interval) (keeps : list Interval) :
  overlap_sum shot keeps - Hardcut.EPS * count keeps
  <= counted_overlap_sum shot keeps <= overlap_sum shot keeps.
Proof.
  induction keeps as [|k keeps IH].
  - change (count []) with 0. simpl. lra.
  - rewrite count_cons. simpl.
    pose proof (counted_overlap_bounds shot k). lra.
Qed.

Lemma new_shots_loop_placed (fps : Q) (infos : list Hardcut.ShotInfo) :
  forall new_shots_list cur,
    Hardcut.new_shots_loop fps new_shots_list cur infos
    = new_shots_list ++ placed fps cur (filter survives infos).
Proof.
  induction infos as [|info infos IH]; intros acc cur; simpl.
  - rewrite app_nil_r. reflexivity.
  - unfold survives at 1. unfold Py.ltb, Py.leb.
    destruct (Qle_bool (Hardcut.info_kept_len info) Hardcut.EPS); simpl.
    + apply IH.
    + rewrite IH. rewrite <- app_assoc. reflexivity.
Qed.

Lemma placed_abutting (fps : Q) (kept_infos : list Hardcut.ShotInfo) :
  forall cursor, abutting (placed fps cursor kept_infos).
Proof.
  induction kept_infos as [|info rest IH]; intros cursor; simpl.
  - exact I.
  - split; [|apply IH]. destruct rest; simpl; [exact I | reflexivity].
Qed.

Lemma rebuild_shots_placed (data : Doc) (keeps : list Interval)
  (logical_duration : Q) :
  let fps := Py.get (video_fps (video data)) 30 in
  let infos := map (Hardcut.shot_info keeps) (Hardcut._collect_shots data) in
  Hardcut.rebuild_shots data keeps logical_duration
  = match filter survives infos with
    | [] => [fallback_shot fps logical_duration]
    | _ => placed fps 0 (filter survives infos)
    end.
Proof.
  intros fps infos. unfold Hardcut.rebuild_shots. fold fps. fold infos.
  rewrite new_shots_loop_placed. simpl.
  destruct (filter survives infos); reflexivity.
Qed.



(** ** Rounding *)

Lemma floor_bounds (x : Q) :
  inject_Z (Qfloor x) <= x /\ x < inject_Z (Qfloor x) + 1.
Proof.
  split; [apply Qfloor_le|].
  pose proof (Qlt_floor x) as H. rewrite inject_Z_plus in H. exact H.
Qed.

Lemma round_half_even_floor (x : Q) :
  (Qfloor x <= Py.round_half_even x <= Qfloor x + 1)%Z.
Proof.
  unfold Py.round_half_even.
  destruct (Py.ltb _ _); [lia|].
  destruct (Py.ltb _ _); [lia|].
  destruct (Z.even _); lia.
Qed.

Lemma round_half_even_bounds (x : Q) :
  x - (1 # 2) <= inject_Z (Py.round_half_even x) <= x + (1 # 2).
Proof.
  destruct (floor_bounds x) as [Hlo Hhi].
  unfold Py.round_half_even.
  repeat py_case; try destruct (Z.even (Qfloor x));
    rewrite ?inject_Z_plus; change (inject_Z 1) with 1; lra.
Qed.

Lemma round_half_even_mono (x y : Q) :
  x <= y -> (Py.round_half_even x <= Py.round_half_even y)%Z.
Proof.
  intro Hxy. pose proof (Qfloor_resp_le x y Hxy) as Hf.
  destruct (Z.eq_dec (Qfloor x) (Qfloor y)) as [Heq|Hne].
  - unfold Py.round_half_even. rewrite <- Heq.
    repeat py_case; try destruct (Z.even (Qfloor x)); try lia; lra.
  - pose proof (round_half_even_floor x). pose proof (round_half_even_floor y).
    lia.
Qed.

Lemma round_half_even_comp (x y : Q) :
  x == y -> Py.round_half_even x = Py.round_half_even y.
Proof.
  intro H. apply Z.le_antisymm; apply round_half_even_mono; lra.
Qed.

Lemma pow10_pos (n : nat) : 0 < inject_Z (10 ^ Z.of_nat n).
Proof.
  change 0 with (inject_Z 0). rewrite <- Zlt_Qlt.
  apply Z.pow_pos_nonneg; lia.
Qed.

Lemma round_eq (x : Q) (n : nat) :
  Py.round x n
  == inject_Z (Py.round_half_even (x * inject_Z (10 ^ Z.of_nat n)))
     / inject_Z (10 ^ Z.of_nat n).
Proof. unfold Py.round. apply Qred_correct. Qed.

Lemma round_mono (x y : Q) (n : nat) : x <= y -> Py.round x n <= Py.round y n.
Proof.
  intro Hxy. rewrite !round_eq. pose proof (pow10_pos n) as Hp.
  set (p := inject_Z (10 ^ Z.of_nat n)) in *.
  unfold Qdiv. apply Qmult_le_compat_r.
  - rewrite <- Zle_Qle. apply round_half_even_mono.
    apply Qmult_le_compat_r; lra.
  - apply Qlt_le_weak, Qinv_lt_0_compat. exact Hp.
Qed.

Lemma round_comp (x y : Q) (n : nat) : x == y -> Py.round x n = Py.round y n.
Proof.
  intro H. unfold Py.round. cbv zeta.
  set (p := inject_Z (10 ^ Z.of_nat n)).
  rewrite (round_half_even_comp (x * p) (y * p)); [reflexivity|].
  rewrite H. reflexivity.
Qed.

(** ** Binary64 rounding *)

Lemma pow2_pos (z : Z) : 0 < 2 ^ z.
Proof. apply Qpower_0_lt. reflexivity. Qed.

Lemma pow2_succ (z : Z) : 2 ^ (z + 1) == 2 ^ z * 2.
Proof. rewrite Qpower_plus by discriminate. reflexivity. Qed.

Lemma pow2_inject (a : Z) : (0 <= a)%Z -> inject_Z (2 ^ a) == 2 ^ a.
Proof. intro H. rewrite Zpower_Qpower by exact H. reflexivity. Qed.

(** [binade x] is the exponent of [x]. *)
Lemma binade_spec (x : Q) :
  0 < x -> 2 ^ Py.binade x <= x /\ x < 2 ^ (Py.binade x + 1).
Proof.
  intro Hx. destruct x as [n d].
  assert (Hn : (0 < n)%Z).
  { unfold Qlt in Hx. simpl in Hx. lia. }
  unfold Py.binade. cbn [Qnum Qden].
  set (a := Z.log2 n). set (b := Z.log2 (Z.pos d)).
  destruct (Z.log2_spec n Hn) as [Ha1 Ha2]. fold a in Ha1, Ha2.
  destruct (Z.log2_spec (Z.pos d) ltac:(lia)) as [Hb1 Hb2]. fold b in Hb1, Hb2.
  assert (Ha0 : (0 <= a)%Z) by apply Z.log2_nonneg.
  assert (Hb0 : (0 <= b)%Z) by apply Z.log2_nonneg.
  rewrite Zle_Qle, pow2_inject in Ha1, Hb1 by assumption.
  rewrite Zlt_Qlt, pow2_inject in Ha2, Hb2 by lia.
  replace (Z.succ a) with (a + 1)%Z in Ha2 by lia.
  replace (Z.succ b) with (b + 1)%Z in Hb2 by lia.
  rewrite pow2_succ in Ha2, Hb2.
  assert (Hx' : (n # d) * inject_Z (Z.pos d) == inject_Z n).
  { rewrite (Qmake_Qdiv n d). field. discriminate. }
  assert (Hl : 2 ^ (a - b) * 2 ^ b == 2 ^ a).
  { rewrite <- Qpower_plus by discriminate. replace (a - b + b)%Z with a by lia.
    reflexivity. }
  pose proof (pow2_pos a) as Pa. pose proof (pow2_pos b) as Pb.
  pose proof (pow2_pos (a - b)) as Pl.
  set (x := n # d) in *. set (N := inject_Z n) in *.
  set (D := inject_Z (Z.pos d)) in *.
  set (A := 2 ^ a) in *. set (B := 2 ^ b) in *. set (L := 2 ^ (a - b)) in *.
  destruct (Qle_bool L x) eqn:E.
  - apply Qle_bool_iff in E. split; [exact E|].
    rewrite pow2_succ. fold L. clearbody x N D A B L. nra.
  - assert (E' : x < L).
    { apply Qnot_le_lt. intro H. apply Qle_bool_iff in H. congruence. }
    replace (a - b - 1 + 1)%Z with (a - b)%Z by lia. fold L.
    split; [|exact E'].
    assert (Hl' : 2 ^ (a - b - 1) * 2 == L).
    { rewrite <- pow2_succ. replace (a - b - 1 + 1)%Z with (a - b)%Z by lia.
      reflexivity. }
    pose proof (pow2_pos (a - b - 1)) as Pl'.
    set (L' := 2 ^ (a - b - 1)) in *. clearbody x N D A B L L'. nra.
Qed.

Lemma round_half_even_inject (k : Z) : Py.round_half_even (inject_Z k) = k.
Proof.
  pose proof (round_half_even_bounds (inject_Z k)) as [H1 H2].
  set (r := Py.round_half_even (inject_Z k)) in *.
  destruct (Z.lt_trichotomy r k) as [H|[H|H]]; [exfalso | exact H | exfalso].
  - assert (H' : (r + 1 <= k)%Z) by lia.
    rewrite Zle_Qle, inject_Z_plus in H'. change (inject_Z 1) with 1 in H'. lra.
  - assert (H' : (k + 1 <= r)%Z) by lia.
    rewrite Zle_Qle, inject_Z_plus in H'. change (inject_Z 1) with 1 in H'. lra.
Qed.

(** The grid of the binade of [x]. *)
Lemma grid_spec (x : Q) :
  let p := 2 ^ (Py.binade x - 52) in
  0 < p
  /\ p * 4503599627370496 == 2 ^ Py.binade x
  /\ p * 9007199254740992 == 2 ^ (Py.binade x + 1).
Proof.
  cbv zeta. split; [apply pow2_pos|].
  assert (H52 : 2 ^ (Py.binade x - 52) * 2 ^ 52 == 2 ^ Py.binade x).
  { rewrite <- Qpower_plus by discriminate.
    replace (Py.binade x - 52 + 52)%Z with (Py.binade x) by lia. reflexivity. }
  change (2 ^ 52) with 4503599627370496 in H52.
  split; [exact H52|]. rewrite pow2_succ, <- H52. ring.
Qed.

Lemma nearest_eq (x : Q) :
  Py.nearest x
  = inject_Z (Py.round_half_even (x / 2 ^ (Py.binade x - 52)))
    * 2 ^ (Py.binade x - 52).
Proof. reflexivity. Qed.

(** The nearest number is within half a grid step, which is at most
    [2^-53] times [x]. *)
Lemma nearest_close (x : Q) :
  0 < x ->
  x * (1 - (1 # 9007199254740992)) <= Py.nearest x
  /\ Py.nearest x <= x * (1 + (1 # 9007199254740992)).
Proof.
  intro Hx. rewrite nearest_eq.
  destruct (binade_spec x Hx) as [He _].
  destruct (grid_spec x) as (Hp & Hp52 & _).
  set (p := 2 ^ (Py.binade x - 52)) in *.
  set (E := 2 ^ Py.binade x) in *.
  pose proof (round_half_even_bounds (x / p)) as [H1 H2].
  set (R := inject_Z (Py.round_half_even (x / p))) in *.
  assert (Hq : x / p * p == x) by (field; lra).
  set (q := x / p) in *. clearbody R q p E. nra.
Qed.

(** The nearest number stays in the closed binade. *)
Lemma nearest_binade (x : Q) :
  0 < x ->
  2 ^ Py.binade x <= Py.nearest x <= 2 ^ (Py.binade x + 1).
Proof.
  intro Hx. rewrite nearest_eq.
  destruct (binade_spec x Hx) as [He1 He2].
  destruct (grid_spec x) as (Hp & Hp52 & Hp53).
  set (p := 2 ^ (Py.binade x - 52)) in *.
  assert (Hlo : inject_Z 4503599627370496 <= x / p).
  { apply Qle_shift_div_l; [exact Hp|].
    change (inject_Z 4503599627370496) with 4503599627370496.
    rewrite (Qmult_comm _ p), Hp52. exact He1. }
  assert (Hhi : x / p <= inject_Z 9007199254740992).
  { apply Qle_shift_div_r; [exact Hp|].
    change (inject_Z 9007199254740992) with 9007199254740992.
    rewrite (Qmult_comm _ p), Hp53. lra. }
  apply round_half_even_mono in Hlo. apply round_half_even_mono in Hhi.
  rewrite round_half_even_inject in Hlo, Hhi.
  rewrite Zle_Qle in Hlo, Hhi.
  change (inject_Z 4503599627370496) with 4503599627370496 in Hlo.
  change (inject_Z 9007199254740992) with 9007199254740992 in Hhi.
  set (R := inject_Z (Py.round_half_even (x / p))) in *.
  rewrite <- Hp52, <- Hp53. clearbody R p. nra.
Qed.

Lemma nearest_mono (x y : Q) :
  0 < x -> x <= y -> Py.nearest x <= Py.nearest y.
Proof.
  intros Hx Hxy. assert (Hy : 0 < y) by lra.
  destruct (binade_spec x Hx) as [Hx1 Hx2].
  destruct (binade_spec y Hy) as [Hy1 Hy2].
  assert (Hle : (Py.binade x <= Py.binade y)%Z).
  { assert (H : 2 ^ Py.binade x < 2 ^ (Py.binade y + 1)) by lra.
    apply Qpower_lt_compat_l_inv in H; [lia | reflexivity]. }
  destruct (Z.eq_dec (Py.binade x) (Py.binade y)) as [Heq|Hne].
  - rewrite !nearest_eq, <- Heq.
    destruct (grid_spec x) as (Hp & _).
    set (p := 2 ^ (Py.binade x - 52)) in *.
    apply Qmult_le_compat_r; [|lra].
    rewrite <- Zle_Qle. apply round_half_even_mono.
    unfold Qdiv. apply Qmult_le_compat_r; [exact Hxy|].
    apply Qlt_le_weak, Qinv_lt_0_compat, Hp.
  - destruct (nearest_binade x Hx) as [_ Hnx].
    destruct (nearest_binade y Hy) as [Hny _].
    assert (Hpow : 2 ^ (Py.binade x + 1) <= 2 ^ Py.binade y).
    { apply Qpower_le_compat_l; [lia | discriminate]. }
    lra.
Qed.

(** *** [float] *)

Lemma float_comp (x y : Q) : x == y -> Py.float x = Py.float y.
Proof.
  intro H. unfold Py.float. rewrite (Qred_complete x y H). reflexivity.
Qed.

Lemma float_pos (x : Q) : 0 < x -> Py.float x == Py.nearest (Qred x).
Proof.
  intro Hx. unfold Py.float. cbv zeta.
  assert (E : Py.ltb 0 (Qred x) = true)
    by (apply ltb_true; rewrite Qred_correct; exact Hx).
  rewrite E. apply Qred_correct.
Qed.

Lemma float_neg (x : Q) : x < 0 -> Py.float x == - Py.nearest (- Qred x).
Proof.
  intro Hx. unfold Py.float. cbv zeta.
  assert (E : Py.ltb 0 (Qred x) = false)
    by (apply ltb_false; rewrite Qred_correct; lra).
  assert (E' : Py.ltb (Qred x) 0 = true)
    by (apply ltb_true; rewrite Qred_correct; exact Hx).
  rewrite E, E'. apply Qred_correct.
Qed.

Lemma float_zero (x : Q) : x == 0 -> Py.float x = 0.
Proof. intro H. rewrite (float_comp x 0 H). reflexivity. Qed.

(** The relative error of a rounding is at most [2^-53]. *)
Lemma float_close (x : Q) :
  0 <= x ->
  x * (1 - (1 # 9007199254740992)) <= Py.float x
  /\ Py.float x <= x * (1 + (1 # 9007199254740992)).
Proof.
  intro Hx. destruct (Qle_lt_or_eq 0 x Hx) as [Hpos|Hz].
  - rewrite (float_pos x Hpos).
    pose proof (Qred_correct x) as Hr.
    assert (Hpos' : 0 < Qred x) by (rewrite Hr; exact Hpos).
    destruct (nearest_close (Qred x) Hpos') as [H1 H2].
    set (N := Py.nearest (Qred x)) in *. clearbody N.
    set (x' := Qred x) in *. clearbody x'. split; lra.
  - rewrite (float_zero x) by (symmetry; exact Hz). lra.
Qed.

Lemma float_close_neg (x : Q) :
  x <= 0 ->
  x * (1 + (1 # 9007199254740992)) <= Py.float x
  /\ Py.float x <= x * (1 - (1 # 9007199254740992)).
Proof.
  intro Hx. destruct (Qle_lt_or_eq x 0 Hx) as [Hneg|Hz].
  - rewrite (float_neg x Hneg).
    pose proof (Qred_correct x) as Hr.
    assert (Hpos' : 0 < - Qred x) by (rewrite Hr; lra).
    destruct (nearest_close (- Qred x) Hpos') as [H1 H2].
    set (N := Py.nearest (- Qred x)) in *. clearbody N.
    set (x' := Qred x) in *. clearbody x'. split; lra.
  - rewrite (float_zero x) by exact Hz. lra.
Qed.

Lemma float_nonneg (x : Q) : 0 <= x -> 0 <= Py.float x.
Proof. intro Hx. destruct (float_close x Hx) as [H _]. nra. Qed.

Lemma float_nonpos (x : Q) : x <= 0 -> Py.float x <= 0.
Proof. intro Hx. destruct (float_close_neg x Hx) as [_ H]. nra. Qed.

(** Rounding keeps the order. *)
Lemma float_mono (x y : Q) : x <= y -> Py.float x <= Py.float y.
Proof.
  intro Hxy. pose proof (Qred_correct x) as Hrx. pose proof (Qred_correct y) as Hry.
  destruct (Qlt_le_dec 0 x) as [Hx|Hx].
  - rewrite (float_pos x Hx), (float_pos y) by lra.
    apply nearest_mono; rewrite ?Hrx, ?Hry; assumption.
  - destruct (Qlt_le_dec 0 y) as [Hy|Hy].
    + pose proof (float_nonpos x Hx). pose proof (float_nonneg y ltac:(lra)). lra.
    + destruct (Qle_lt_or_eq y 0 Hy) as [Hy'|Hy'].
      * rewrite (float_neg x), (float_neg y) by lra.
        assert (H : Py.nearest (- Qred y) <= Py.nearest (- Qred x)).
        { apply nearest_mono; rewrite ?Hrx, ?Hry; lra. }
        lra.
      * rewrite (float_zero y Hy'). apply float_nonpos. exact Hx.
Qed.

Lemma round2_close (x : Q) :
  x - (5 # 1000) <= Py.round x 2 <= x + (5 # 1000).
Proof.
  rewrite round_eq. change (inject_Z (10 ^ Z.of_nat 2)) with 100.
  pose proof (round_half_even_bounds (x * 100)) as H.
  set (r := inject_Z (Py.round_half_even (x * 100))) in *. clearbody r.
  unfold Qdiv. change (/ 100) with (1 # 100). lra.
Qed.

Lemma round2_rounded (y : Q) : rounded2 y (Py.round y 2).
Proof.
  pose proof (round2_close y) as [H1 H2].
  split; [|split; lra].
  exists (Py.round_half_even (y * 100)). rewrite round_eq. reflexivity.
Qed.

(** Two times more than 0.01 apart are at least 0.01 apart once rounded to
    two decimals. *)
Lemma round2_gap (x y : Q) :
  x + (1 # 100) < y -> Py.round x 2 + (1 # 100) <= Py.round y 2.
Proof.
  intro H. rewrite !round_eq. change (inject_Z (10 ^ Z.of_nat 2)) with 100.
  pose proof (round_half_even_bounds (x * 100)) as Hx.
  pose proof (round_half_even_bounds (y * 100)) as Hy.
  assert (Hz : (Py.round_half_even (x * 100) + 1
                <= Py.round_half_even (y * 100))%Z).
  { apply Z.lt_succ_r. unfold Z.succ. apply Z.add_lt_mono_r.
    rewrite Zlt_Qlt. lra. }
  rewrite Zle_Qle, inject_Z_plus in Hz. change (inject_Z 1) with 1 in Hz.
  set (a := inject_Z (Py.round_half_even (x * 100))) in *.
  set (b := inject_Z (Py.round_half_even (y * 100))) in *.
  clearbody a b. unfold Qdiv. change (/ 100) with (1 # 100). lra.
Qed.

(** ** The timeline remapper *)

Lemma remap_loop_app (flat : list (Segment * Q * Q)) :
  forall new_segments t,
    Hardcut.remap_loop new_segments t flat
    = (new_segments ++ fst (Hardcut.remap_loop [] t flat),
       snd (Hardcut.remap_loop [] t flat)).
Proof.
  induction flat as [|[[seg s] e] flat IH]; intros acc t; simpl.
  - rewrite app_nil_r. reflexivity.
  - destruct (Py.leb _ _).
    + apply IH.
    + rewrite IH. rewrite (IH [_]). simpl. rewrite <- app_assoc. reflexivity.
Qed.

Lemma rescale_loop_app (ratio : Q) (segs : list Segment) :
  forall done t,
    Hardcut.rescale_loop ratio done t segs
    = (done ++ fst (Hardcut.rescale_loop ratio [] t segs),
       snd (Hardcut.rescale_loop ratio [] t segs)).
Proof.
  induction segs as [|seg segs IH]; intros acc t; simpl.
  - rewrite app_nil_r. reflexivity.
  - rewrite IH. rewrite (IH [_]). simpl. rewrite <- app_assoc. reflexivity.
Qed.

(** The first loop lays the kept segments out from the offset [t]. *)
Lemma remap_loop_laid_out (flat : list (Segment * Q * Q)) :
  forall t,
    let lens := map flat_length (filter kept_entry flat) in
    let out := Hardcut.remap_loop [] t flat in
    laid_out t lens (fst out)
    /\ snd out = offset_after t lens
    /\ map provenance (fst out)
       = map flat_provenance (filter kept_entry flat).
Proof.
  induction flat as [|[[seg s] e] flat IH]; intros t.
  - simpl. repeat split.
  - assert (K : Py.leb (Py.max (Py.fsub e s) 0) (Py.float (1 # 100))
                = negb (kept_entry (seg, s, e))).
    { unfold kept_entry, flat_length. simpl. rewrite negb_involutive.
      reflexivity. }
    cbn beta iota zeta delta [Hardcut.remap_loop filter].
    rewrite K. destruct (kept_entry (seg, s, e)); cbn [negb].
    + rewrite remap_loop_app. cbn [map fst snd app laid_out seg_start seg_end].
      destruct (IH (t + Py.max (Py.fsub e s) 0)) as (H1 & H2 & H3).
      repeat split; try assumption.
      rewrite H3. reflexivity.
    + apply IH.
Qed.

(** The scaling loop lays the segments out again with the scaled lengths. *)
Lemma rescale_loop_laid_out (ratio : Q) (segs : list Segment) :
  forall t,
    let lens := scaled_lengths ratio segs in
    let out := Hardcut.rescale_loop ratio [] t segs in
    laid_out t lens (fst out)
    /\ snd out = offset_after t lens
    /\ map provenance (fst out) = map provenance segs.
Proof.
  induction segs as [|seg segs IH]; intros t; simpl.
  - repeat split.
  - rewrite rescale_loop_app. simpl.
    destruct (IH (t + (Py.get (seg_end seg) 0 - Py.get (seg_start seg) 0) * ratio))
      as (H1 & H2 & H3).
    repeat split; try assumption.
    unfold provenance at 1 3. simpl. rewrite H3. reflexivity.
Qed.

Lemma laid_out_timeline (lens : list Q) :
  forall t segs,
    laid_out t lens segs ->
    Forall (fun l => 0 <= l) lens ->
    ascending seg_start_of segs
    /\ seg_abutting segs
    /\ Forall (fun seg => seg_start_of seg <= seg_end_of seg) segs.
Proof.
  induction lens as [|l lens IH]; intros t [|seg segs] H Hl; simpl in H;
    try contradiction.
  - simpl. repeat split. constructor.
  - destruct H as (Hs & He & Hrest).
    inversion Hl as [|? ? Hl0 Hl']; subst.
    destruct (IH _ _ Hrest Hl') as (Ha & Hb & Hc).
    assert (Hround : Py.round t 2 <= Py.round (t + l) 2)
      by (apply round_mono; lra).
    repeat split; try assumption.
    + destruct segs as [|next segs]; [exact I|].
      destruct lens as [|l' lens]; simpl in Hrest; [contradiction|].
      destruct Hrest as (Hs' & _).
      unfold seg_start_of. rewrite Hs, Hs'. simpl. exact Hround.
    + destruct segs as [|next segs]; [exact I|].
      destruct lens as [|l' lens]; simpl in Hrest; [contradiction|].
      destruct Hrest as (Hs' & _). rewrite He, Hs'. reflexivity.
    + constructor; [|assumption].
      unfold seg_start_of, seg_end_of. rewrite Hs, He. simpl. exact Hround.
Qed.

Lemma laid_out_min_duration (lens : list Q) :
  forall t segs,
    laid_out t lens segs ->
    Forall (fun l => (1 # 100) < l) lens ->
    Forall (fun seg => seg_start_of seg + (1 # 100) <= seg_end_of seg) segs.
Proof.
  induction lens as [|l lens IH]; intros t [|seg segs] H Hl; simpl in H;
    try contradiction.
  - constructor.
  - destruct H as (Hs & He & Hrest).
    inversion Hl as [|? ? Hl0 Hl']; subst.
    constructor; [|eapply IH; eassumption].
    unfold seg_start_of, seg_end_of. rewrite Hs, He. simpl.
    apply round2_gap. lra.
Qed.

Lemma abutting_monotone (segs : list Segment) :
  ascending seg_start_of segs -> seg_abutting segs -> monotone_timeline segs.
Proof.
  induction segs as [|seg segs IH]; simpl; intros Ha Hb.
  - exact I.
  - destruct Ha as [Ha Ha']. destruct Hb as [Hb Hb'].
    split; [|apply IH; assumption].
    destruct segs as [|next segs]; [exact I|].
    split; [exact Ha|].
    unfold seg_end_of, seg_start_of. rewrite Hb.
    pose proof EPS_pos. lra.
Qed.

(** The float [0.01] is a little more than 0.01. *)
Lemma float_hundredth : (1 # 100) < Py.float (1 # 100).
Proof. vm_compute. reflexivity. Qed.

Lemma kept_lengths_long (flat : list (Segment * Q * Q)) :
  Forall (fun l => (1 # 100) < l) (map flat_length (filter kept_entry flat)).
Proof.
  apply Forall_forall. intros l Hl. apply in_map_iff in Hl.
  destruct Hl as (entry & <- & Hin). apply filter_In in Hin.
  destruct Hin as [_ Hk]. unfold kept_entry in Hk.
  apply negb_true_iff in Hk. apply leb_false in Hk.
  pose proof float_hundredth. lra.
Qed.

Lemma Forall_lt_le (c : Q) (l : list Q) :
  0 <= c -> Forall (fun x => c < x) l -> Forall (fun x => 0 <= x) l.
Proof.
  intros Hc H. eapply Forall_impl; [|exact H]. simpl. intros; lra.
Qed.

Lemma first_pass_timeline (data : Doc) :
  let flat := Hardcut.flatten (shots data) in
  let lens := map flat_length (filter kept_entry flat) in
  laid_out 0 lens (fst (first_pass data))
  /\ snd (first_pass data) = offset_after 0 lens
  /\ map provenance (fst (first_pass data))
     = map flat_provenance (filter kept_entry flat).
Proof. apply remap_loop_laid_out. Qed.

Lemma remap_segments_cases (data : Doc) (hardcut_duration : Q) :
  Hardcut.remap_segments data hardcut_duration
  = if rescales hardcut_duration (snd (first_pass data))
    then Hardcut.rescale_loop (hardcut_duration / snd (first_pass data)) [] 0
           (fst (first_pass data))
    else first_pass data.
Proof.
  unfold Hardcut.remap_segments, first_pass, rescales.
  destruct (Hardcut.remap_loop [] 0 (Hardcut.flatten (shots data))) as [segs t].
  reflexivity.
Qed.

Lemma rescales_true (hd L : Q) :
  rescales hd L = true <-> 0 < hd /\ hd + (1 # 1000) < L.
Proof.
  unfold rescales. rewrite andb_true_iff, !ltb_true. tauto.
Qed.

Lemma rescales_false (hd L : Q) :
  rescales hd L = false <-> hd <= 0 \/ L <= hd + (1 # 1000).
Proof.
  unfold rescales. rewrite andb_false_iff, !ltb_false. tauto.
Qed.

Lemma ratio_nonneg (hd L : Q) : 0 < hd -> 0 < L -> 0 <= hd / L.
Proof.
  intros Hh HL. unfold Qdiv. apply Qmult_le_0_compat; [lra|].
  apply Qlt_le_weak, Qinv_lt_0_compat. exact HL.
Qed.

Lemma scaled_lengths_nonneg (ratio : Q) (segs : list Segment) :
  0 <= ratio ->
  Forall (fun seg => seg_start_of seg <= seg_end_of seg) segs ->
  Forall (fun l => 0 <= l) (scaled_lengths ratio segs).
Proof.
  intros Hr H. unfold scaled_lengths. apply Forall_forall. intros l Hl.
  apply in_map_iff in Hl. destruct Hl as (seg & <- & Hin).
  rewrite Forall_forall in H. specialize (H seg Hin).
  apply Qmult_le_0_compat; lra.
Qed.

Lemma remap_segments_timeline (data : Doc) (hardcut_duration : Q) :
  let segs := fst (Hardcut.remap_segments data hardcut_duration) in
  ascending seg_start_of segs
  /\ seg_abutting segs
  /\ Forall (fun seg => seg_start_of seg <= seg_end_of seg) segs
  /\ map provenance segs
     = map flat_provenance (filter kept_entry (Hardcut.flatten (shots data))).
Proof.
  destruct (first_pass_timeline data) as (Hlaid & HL & Hprov).
  pose proof (kept_lengths_long (Hardcut.flatten (shots data))) as Hlong.
  pose proof (laid_out_timeline _ _ _ Hlaid
                (Forall_lt_le (1 # 100) _ ltac:(lra) Hlong)) as (Ha & Hb & Hc).
  cbv zeta. rewrite remap_segments_cases.
  destruct (rescales hardcut_duration (snd (first_pass data))) eqn:R.
  - apply rescales_true in R. destruct R as [Hhd HR].
    set (ratio := hardcut_duration / snd (first_pass data)).
    destruct (rescale_loop_laid_out ratio (fst (first_pass data)) 0)
      as (Hlaid2 & _ & Hprov2).
    assert (Hratio : 0 <= ratio) by (apply ratio_nonneg; lra).
    pose proof (laid_out_timeline _ _ _ Hlaid2
                  (scaled_lengths_nonneg _ _ Hratio Hc)) as (Ha2 & Hb2 & Hc2).
    repeat split; try assumption. rewrite Hprov2. exact Hprov.
  - repeat split; assumption.
Qed.

(** An entry of the flattened list carries the times of its segment as
    [float()] reads them. *)
Lemma flatten_entry (d : list (string * list Shot)) (entry : Segment * Q * Q) :
  In entry (Hardcut.flatten d) ->
  snd (fst entry) = float_start (fst (fst entry))
  /\ snd entry = float_end (fst (fst entry)).
Proof.
  unfold Hardcut.flatten. intro H. apply in_flat_map in H.
  destruct H as (k & _ & H). destruct (dict_get d k) as [|shot l]; [destruct H|].
  apply in_map_iff in H. destruct H as (seg & <- & _). split; reflexivity.
Qed.

(** The test of the first loop away from the tie: for times between 0 and
    10^6 s, a segment longer than 0.01 s by a nanosecond is kept and one
    shorter by a nanosecond is dropped, whatever the rounding. *)
Lemma kept_entry_margin (s e : Q) (seg : Segment) :
  0 <= s -> 0 <= e -> s <= 1000000 -> e <= 1000000 ->
  ((1 # 100) + (1 # 1000000000) <= e - s ->
   kept_entry (seg, Py.float s, Py.float e) = true)
  /\ (e - s <= (1 # 100) - (1 # 1000000000) ->
      kept_entry (seg, Py.float s, Py.float e) = false).
Proof.
  intros Hs He Hs' He'. unfold kept_entry, flat_length, Py.fsub. cbn [fst snd].
  destruct (float_close s Hs) as [Hs1 Hs2].
  destruct (float_close e He) as [He1 He2].
  assert (Hc : Py.float (1 # 100)
               = (5764607523034235 # 576460752303423488))
    by (vm_compute; reflexivity).
  rewrite Hc. set (fs := Py.float s) in *. set (fe := Py.float e) in *.
  split; intro Hlen.
  - assert (Hd : (1 # 100) + (1 # 2000000000) <= fe - fs)
      by (clearbody fs fe; lra).
    destruct (float_close (fe - fs) ltac:(lra)) as [Hfl _].
    set (fl := Py.float (fe - fs)) in *. clearbody fl fs fe.
    apply negb_true_iff, leb_false. py_cases; lra.
  - apply negb_false_iff, leb_true.
    destruct (Qlt_le_dec (fe - fs) 0) as [Hneg|Hpos].
    + pose proof (float_nonpos (fe - fs) ltac:(lra)) as Hfl.
      set (fl := Py.float (fe - fs)) in *. clearbody fl fs fe. py_cases; lra.
    + destruct (float_close (fe - fs) Hpos) as [_ Hfl].
      set (fl := Py.float (fe - fs)) in *. clearbody fl fs fe. py_cases; lra.
Qed.

(** C5. The output of the timeline remapper, rescaled or not: the start
    times never decrease in traversal order and every segment ends exactly
    where the next one starts, so no end exceeds the next start plus [EPS];
    the output segments are, in order, the flattened segments whose length
    as the code computes it, the binary64 difference of the end and the
    start read with [float()] and not below 0, is more than the float
    [0.01], the others being dropped; for times between 0 and 10^6 s that
    keeps every segment whose stored length is at least 0.01 s and a
    nanosecond and drops every one whose stored length is at most 0.01 s
    less a nanosecond; every output segment has [start <= end], and when no
    rescale is applied its stored duration is at least 0.01 s. *)
Theorem remap_timeline :
  forall (data : Doc) (hardcut_duration : Q),
    let flat := Hardcut.flatten (shots data) in
    let segs := fst (Hardcut.remap_segments data hardcut_duration) in
    monotone_timeline segs
    /\ seg_abutting segs
    /\ Forall (fun seg => seg_start_of seg <= seg_end_of seg) segs
    /\ map provenance segs = map flat_provenance (filter kept_entry flat)
    /\ Forall (fun entry =>
                 let seg := fst (fst entry) in
                 flat_length entry = Py.max (float_length seg) 0
                 /\ (kept_entry entry = true
                     <-> Py.float (1 # 100) < Py.max (float_length seg) 0)
                 /\ (0 <= seg_start_of seg -> 0 <= seg_end_of seg ->
                     seg_start_of seg <= 1000000 ->
                     seg_end_of seg <= 1000000 ->
                     ((1 # 100) + (1 # 1000000000)
                      <= seg_end_of seg - seg_start_of seg ->
                      kept_entry entry = true)
                     /\ (seg_end_of seg - seg_start_of seg
                         <= (1 # 100) - (1 # 1000000000) ->
                         kept_entry entry = false)))
              flat
    /\ (rescales hardcut_duration (snd (first_pass data)) = false ->
        Forall (fun seg => seg_start_of seg + (1 # 100) <= seg_end_of seg) segs).
Proof.
  intros data hd flat segs.
  destruct (remap_segments_timeline data hd) as (Ha & Hb & Hc & Hd).
  fold segs in Ha, Hb, Hc, Hd. fold flat in Hd.
  split; [apply abutting_monotone; assumption|].
  repeat split; try assumption.
  - apply Forall_forall. intros [[seg s] e] Hin.
    destruct (flatten_entry _ _ Hin) as [Hs He]. cbn [fst snd] in Hs, He.
    subst s e. cbn [fst snd]. split; [reflexivity|]. split.
    + unfold kept_entry, flat_length. cbn [fst snd].
      fold (float_length seg).
      rewrite negb_true_iff. apply leb_false.
    + intros H1 H2 H3 H4.
      apply (kept_entry_margin (seg_start_of seg) (seg_end_of seg) seg);
        assumption.
  - intro R. subst segs. rewrite remap_segments_cases, R.
    destruct (first_pass_timeline data) as (Hlaid & _ & _).
    eapply laid_out_min_duration; [exact Hlaid | apply kept_lengths_long].
Qed.

(** At the tie the rounding decides, as in the code: the stored segment
    [(0.30, 0.31)] is kept, its binary64 length being a little more than the
    float [0.01], and the stored segment [(0.00, 0.01)] is dropped. *)
Example remap_at_the_tie :
  List.length (fst (Hardcut.remap_segments
                      (one_shot_doc [plain_segment (30 # 100) (31 # 100)]) 1000))
  = 1%nat
  /\ fst (Hardcut.remap_segments
            (one_shot_doc [plain_segment 0 (1 # 100)]) 1000) = [].
Proof. split; vm_compute; reflexivity. Qed.

Lemma remap_timeline_witness :
  let data := one_shot_doc [plain_segment 0 (1004 # 1000);
                            plain_segment 5 (50105 # 10000)] in
  Forall (fun seg => seg_start_of seg + (1 # 100) <= seg_end_of seg)
         (fst (Hardcut.remap_segments data 1000)).
Proof.
  intro data.
  apply (proj2 (proj2 (proj2 (proj2 (proj2 (remap_timeline data 1000)))))).
  reflexivity.
Defined.

(** C5, as first stated: the segments [(0, 0.02)] and [(0.02, 100)]
    against a post-cut duration of 10 s are rescaled by 0.1, and the first
    one comes out as [(0.0, 0.0)], a duration of 0. *)
Lemma remap_timeline_counterexample :
  ~ remap_invariant
      (one_shot_doc [plain_segment 0 (2 # 100); plain_segment (2 # 100) 100]) 10.
Proof.
  intros [_ H]. vm_compute in H. inversion H as [|seg segs Hseg _].
  vm_compute in Hseg. discriminate.
Qed.

(** *** The rescale *)

Lemma offset_after_sum (lens : list Q) :
  forall t, offset_after t lens == t + Qsum lens.
Proof.
  unfold offset_after.
  induction lens as [|l lens IH]; intros t; simpl.
  - lra.
  - rewrite IH. lra.
Qed.

Lemma laid_out_telescope (lens : list Q) :
  forall t segs,
    laid_out t lens segs ->
    Qsum (map (fun seg => seg_end_of seg - seg_start_of seg) segs)
    == Py.round (offset_after t lens) 2 - Py.round t 2.
Proof.
  induction lens as [|l lens IH]; intros t [|seg segs] H; simpl in H;
    try contradiction.
  - simpl. lra.
  - destruct H as (Hs & He & Hrest). specialize (IH _ _ Hrest).
    simpl. rewrite IH. unfold seg_end_of, seg_start_of. rewrite Hs, He.
    simpl. unfold offset_after. simpl. lra.
Qed.

Lemma scaled_lengths_sum (ratio : Q) (segs : list Segment) :
  Qsum (scaled_lengths ratio segs)
  == Qsum (map (fun seg => seg_end_of seg - seg_start_of seg) segs) * ratio.
Proof.
  induction segs as [|seg segs IH]; simpl.
  - lra.
  - rewrite IH. lra.
Qed.

Lemma laid_out_last_end (lens : list Q) :
  forall t segs,
    laid_out t lens segs -> segs <> [] ->
    last_end segs = Some (Py.round (offset_after t lens) 2).
Proof.
  induction lens as [|l lens IH]; intros t [|seg segs] H Hne; simpl in H;
    try contradiction.
  destruct H as (Hs & He & Hrest).
  destruct segs as [|next segs].
  - destruct lens; simpl in Hrest; [|contradiction]. simpl. exact He.
  - change (last_end (seg :: next :: segs)) with (last_end (next :: segs)).
    rewrite (IH _ _ Hrest) by discriminate. reflexivity.
Qed.

(** The scaled total: the flattened length, rounded to two decimals, times
    the ratio. *)
Lemma rescaled_total (data : Doc) (ratio : Q) :
  snd (Hardcut.rescale_loop ratio [] 0 (fst (first_pass data)))
  == Py.round (snd (first_pass data)) 2 * ratio.
Proof.
  destruct (first_pass_timeline data) as (Hlaid & HL & _).
  destruct (rescale_loop_laid_out ratio (fst (first_pass data)) 0)
    as (_ & Hsnd & _).
  rewrite Hsnd, offset_after_sum, scaled_lengths_sum.
  rewrite (laid_out_telescope _ _ _ Hlaid), <- HL.
  change (Py.round 0 2) with 0. lra.
Qed.

(** The scaling loop on segments laid out from [t0]: the new times are the
    stored ones, counted from [base], times the ratio. *)
Lemma rescale_loop_uniform (ratio base : Q) (lens : list Q) :
  forall t0 segs t,
    laid_out t0 lens segs ->
    t == (Py.round t0 2 - base) * ratio ->
    Forall2 (fun o n =>
               seg_start n = Some (Py.round ((seg_start_of o - base) * ratio) 2)
               /\ seg_end n = Some (Py.round ((seg_end_of o - base) * ratio) 2)
               /\ provenance n = provenance o)
            segs (fst (Hardcut.rescale_loop ratio [] t segs)).
Proof.
  induction lens as [|l lens IH]; intros t0 [|seg segs] t H Ht; simpl in H;
    try contradiction.
  - constructor.
  - destruct H as (Hs & He & Hrest).
    cbn [Hardcut.rescale_loop]. rewrite rescale_loop_app. cbn [fst app].
    assert (Hstart : seg_start_of seg = Py.round t0 2)
      by (unfold seg_start_of; rewrite Hs; reflexivity).
    assert (Hend : seg_end_of seg = Py.round (t0 + l) 2)
      by (unfold seg_end_of; rewrite He; reflexivity).
    fold (seg_start_of seg) (seg_end_of seg).
    constructor.
    + cbn [seg_start seg_end]. split; [|split; [|reflexivity]].
      * f_equal. apply round_comp. rewrite Hstart. exact Ht.
      * f_equal. apply round_comp. rewrite Ht, Hstart. ring.
    + apply (IH (t0 + l)); [exact Hrest|].
      rewrite Ht, Hstart, Hend. ring.
Qed.

Lemma first_pass_rescaled (data : Doc) (ratio : Q) :
  rescaled_by ratio (fst (first_pass data))
    (fst (Hardcut.rescale_loop ratio [] 0 (fst (first_pass data)))).
Proof.
  destruct (first_pass_timeline data) as (Hlaid & _ & _).
  pose proof (rescale_loop_uniform ratio 0 _ _ _ 0 Hlaid) as H.
  unfold rescaled_by. eapply Forall2_impl; [|apply H].
  - intros o n (H1 & H2 & H3). unfold seg_start_of at 2, seg_end_of at 2.
    rewrite H1, H2. cbn [Py.get].
    rewrite (round_comp ((seg_start_of o - 0) * ratio)
               (seg_start_of o * ratio) 2) by ring.
    rewrite (round_comp ((seg_end_of o - 0) * ratio)
               (seg_end_of o * ratio) 2) by ring.
    split; [apply round2_rounded|]. split; [apply round2_rounded|exact H3].
  - change (Py.round 0 2) with 0. ring.
Qed.

(** C6. The rescale policy, for the positive post-cut durations that the
    pipeline passes and with the tolerance 0.001 of the code.  When the
    flattened [logicalDuration] exceeds [hardcutDuration + 0.001], the
    result is that of the scaling loop: the stored start and end of every
    segment are multiplied by [hardcutDuration / logicalDuration] and
    stored again rounded to two decimals, the first start being 0 and each
    segment ending where the next one starts, as the running offset is
    recomputed from 0 with the scaled lengths; [logicalDuration] becomes
    the scaled total, which is the flattened length as stored times the
    ratio.  When the flattened span is not longer than
    [hardcutDuration + 0.001], and so whenever it is shorter than or equal
    to [hardcutDuration], nothing is rescaled.  Flattened segments totalling
    120 s against 100 s give the total 100 and the last end 100. *)
Theorem rescale_only_if_longer :
  forall (data : Doc) (hardcut_duration : Q),
    0 < hardcut_duration ->
    let segs := fst (first_pass data) in
    let logical_duration := snd (first_pass data) in
    let out := Hardcut.remap_segments data hardcut_duration in
    rescale_policy (1 # 1000) data hardcut_duration
    /\ (hardcut_duration + (1 # 1000) < logical_duration ->
        let ratio := hardcut_duration / logical_duration in
        rescaled_by ratio segs (fst out)
        /\ seg_abutting (fst out)
        /\ snd out = offset_after 0 (scaled_lengths ratio segs)
        /\ snd out == Py.round logical_duration 2 * ratio
        /\ (logical_duration == 120 -> hardcut_duration == 100 ->
            snd out == 100 /\ last_end (fst out) = Some 100))
    /\ (logical_duration <= hardcut_duration + (1 # 1000) ->
        out = (segs, logical_duration)).
Proof.
  intros data hd Hhd segs L out.
  assert (Hyes : hd + (1 # 1000) < L ->
                 out = Hardcut.rescale_loop (hd / L) [] 0 segs).
  { intro HL. subst out. rewrite remap_segments_cases. fold segs L.
    rewrite (proj2 (rescales_true hd L) (conj Hhd HL)). reflexivity. }
  assert (Hno : L <= hd + (1 # 1000) -> out = (segs, L)).
  { intro HL. subst out. rewrite remap_segments_cases. fold segs L.
    rewrite (proj2 (rescales_false hd L) (or_intror HL)).
    unfold segs, L. destruct (first_pass data). reflexivity. }
  split; [|split; [|exact Hno]].
  - unfold rescale_policy. subst out segs L.
    destruct (first_pass data) as [segs L]. cbn [fst snd] in Hyes, Hno.
    split; [exact Hyes | intro HL; apply Hno; lra].
  - intros HL ratio.
    destruct (remap_segments_timeline data hd) as (_ & Habut & _).
    fold out in Habut. rewrite (Hyes HL) in Habut |- *. fold ratio in Habut |- *.
    destruct (rescale_loop_laid_out ratio segs 0) as (Hlaid & Hsnd & Hprov).
    pose proof (rescaled_total data ratio) as Htotal. fold segs L in Htotal.
    split; [apply first_pass_rescaled|].
    split; [assumption|]. split; [assumption|].
    split; [assumption|]. intros H H0.
    assert (Hout : snd (Hardcut.rescale_loop ratio [] 0 segs) == 100).
    { rewrite Htotal. rewrite (round_comp L 120 2 H).
      change (Py.round 120 2) with 120. subst ratio. rewrite H, H0.
      reflexivity. }
    split; [exact Hout|].
    assert (Hne : fst (Hardcut.rescale_loop ratio [] 0 segs) <> []).
    { destruct (first_pass_timeline data) as (Hlaid1 & HL1 & _).
      fold segs L in Hlaid1, HL1. intro Hnil. rewrite Hnil in Hlaid.
      destruct segs as [|seg segs']; [|simpl in Hlaid; contradiction].
      destruct (map flat_length _) as [|l lens] in Hlaid1, HL1;
        [|simpl in Hlaid1; contradiction].
      unfold offset_after in HL1. simpl in HL1. rewrite HL1 in HL. lra. }
    rewrite (laid_out_last_end _ _ _ Hlaid Hne), <- Hsnd.
    rewrite (round_comp _ 100 2 Hout). reflexivity.
Qed.

Lemma rescale_only_if_longer_witness :
  let data := one_shot_doc [plain_segment 0 50; plain_segment 60 130] in
  let out := Hardcut.remap_segments data 100 in
  snd out == 100 /\ last_end (fst out) = Some 100.
Proof.
  intros data out.
  assert (H0 : 0 < 100) by reflexivity.
  assert (HL : 100 + (1 # 1000) < snd (first_pass data))
    by (vm_compute; reflexivity).
  assert (H120 : snd (first_pass data) == 120) by (vm_compute; reflexivity).
  exact (proj2 (proj2 (proj2 (proj2
           (proj1 (proj2 (rescale_only_if_longer data 100 H0)) HL))))
           H120 (Qeq_refl 100)).
Defined.

(** The positive duration is needed: with [hardcutDuration = 0] the
    flattened length 1 exceeds [hardcutDuration + 0.001] and nothing is
    rescaled.  The pipeline never passes 0, the total of a keep-set that is
    not empty being positive. *)
Remark no_rescale_at_duration_zero :
  ~ rescale_policy (1 # 1000) (one_shot_doc [plain_segment 0 1]) 0.
Proof.
  intro H. vm_compute in H. destruct H as [H _].
  specialize (H eq_refl). discriminate.
Qed.

(** ** The attachment of the segments to the shots *)

Lemma contains_mid_spec (shot : Shot) (seg : Segment) :
  Hardcut.contains_mid shot (Hardcut.seg_mid seg) = true <-> mid_in_shot shot seg.
Proof.
  unfold Hardcut.contains_mid, mid_in_shot, Hardcut.seg_mid.
  rewrite andb_true_iff, !leb_true.
  fold (seg_start_of seg) (seg_end_of seg).
  change (1 # 1000000) with Hardcut.EPS.
  assert (Hmid : (1 # 2) * (seg_start_of seg + seg_end_of seg)
                 == (seg_start_of seg + seg_end_of seg) / 2).
  { unfold Qdiv. change (/ 2) with (1 # 2). ring. }
  cbv zeta. rewrite Hmid. tauto.
Qed.

Lemma attach_first_some (mid : Q) (seg : Segment) (shots : list Shot) :
  forall l, Hardcut.attach_first mid seg shots = Some l ->
    exists before shot after,
      shots = before ++ shot :: after
      /\ l = before ++ Hardcut.append_segment shot seg :: after
      /\ Forall (fun s => Hardcut.contains_mid s mid = false) before
      /\ Hardcut.contains_mid shot mid = true.
Proof.
  induction shots as [|shot shots IH]; simpl; intros l H.
  - discriminate.
  - destruct (Hardcut.contains_mid shot mid) eqn:E.
    + injection H as <-. exists [], shot, shots. simpl. auto.
    + destruct (Hardcut.attach_first mid seg shots) as [l'|]; [|discriminate].
      injection H as <-.
      destruct (IH l' eq_refl) as (before & s & after & H1 & H2 & H3 & H4).
      exists (shot :: before), s, after. simpl. rewrite H1, H2.
      repeat split; try assumption. constructor; assumption.
Qed.

Lemma attach_first_none (mid : Q) (seg : Segment) (shots : list Shot) :
  Hardcut.attach_first mid seg shots = None ->
  Forall (fun s => Hardcut.contains_mid s mid = false) shots.
Proof.
  induction shots as [|shot shots IH]; simpl; intros H.
  - constructor.
  - destruct (Hardcut.contains_mid shot mid) eqn:E; [discriminate|].
    destruct (Hardcut.attach_first mid seg shots); [discriminate|].
    constructor; [assumption | apply IH; reflexivity].
Qed.

Lemma attach_last_spec (seg : Segment) (shots : list Shot) :
  shots <> [] ->
  exists before shot,
    shots = before ++ [shot]
    /\ Hardcut.attach_last seg shots
       = before ++ [Hardcut.append_segment shot seg].
Proof.
  induction shots as [|shot shots IH]; intros Hne; [congruence|].
  destruct shots as [|next shots].
  - exists [], shot. split; reflexivity.
  - destruct IH as (before & s & H1 & H2); [discriminate|].
    exists (shot :: before), s.
    change (Hardcut.attach_last seg (shot :: next :: shots))
      with (shot :: Hardcut.attach_last seg (next :: shots)).
    rewrite H2. simpl. rewrite <- H1. split; reflexivity.
Qed.

Lemma attach_spec (shots : list Shot) (seg : Segment) :
  shots <> [] ->
  exists before shot after,
    attached_to shots seg before shot after
    /\ Hardcut.attach shots seg
       = before ++ Hardcut.append_segment shot seg :: after.
Proof.
  intro Hne. unfold Hardcut.attach, attached_to.
  destruct (Hardcut.attach_first (Hardcut.seg_mid seg) seg shots) as [l|] eqn:E.
  - destruct (attach_first_some _ _ _ _ E)
      as (before & shot & after & H1 & H2 & H3 & H4).
    exists before, shot, after. tauto.
  - pose proof (attach_first_none _ _ _ E) as Hnone.
    destruct (attach_last_spec seg shots Hne) as (before & shot & H1 & H2).
    exists before, shot, []. rewrite H1 in Hnone.
    apply Forall_app in Hnone. destruct Hnone as [Hb Hs].
    inversion Hs; subst. tauto.
Qed.

Lemma attach_segments (shots : list Shot) (seg : Segment) :
  shots <> [] ->
  Hardcut.attach shots seg <> []
  /\ Permutation (flat_map shot_segments (Hardcut.attach shots seg))
                 (flat_map shot_segments shots ++ [seg]).
Proof.
  intro Hne.
  destruct (attach_spec shots seg Hne) as (before & shot & after & Hat & Heq).
  destruct Hat as (Hshots & _). rewrite Heq. split.
  - destruct before; discriminate.
  - rewrite Hshots, !flat_map_app. simpl.
    rewrite <- !app_assoc. apply Permutation_app_head.
    apply Permutation_app_head. simpl.
    change (seg :: flat_map shot_segments after)
      with ([seg] ++ flat_map shot_segments after).
    apply Permutation_app_comm.
Qed.

Lemma attach_all_segments (segs : list Segment) :
  forall shots,
    shots <> [] ->
    Permutation (flat_map shot_segments (Hardcut.attach_all shots segs))
                (flat_map shot_segments shots ++ segs).
Proof.
  unfold Hardcut.attach_all.
  induction segs as [|seg segs IH]; intros shots Hne; simpl.
  - rewrite app_nil_r. apply Permutation_refl.
  - destruct (attach_segments shots seg Hne) as [Hne' Hperm].
    rewrite (IH _ Hne').
    rewrite (Permutation_app_tail segs Hperm).
    rewrite <- app_assoc. apply Permutation_refl.
Qed.

(** C7. For a non-empty list of new shots, a segment goes to exactly one
    shot, whose list of segments gets it appended while every other shot
    is left as it is: the first shot whose [[start - EPS, end + EPS]] holds
    the midpoint [(start + end) / 2] of the segment, or the last shot when
    no shot holds it.  After all the segments are attached, the segments of
    the shots are those they had and the attached ones, each once. *)
Theorem segment_attachment :
  forall (shots : list Shot) (seg : Segment) (segs : list Segment),
    shots <> [] ->
    (exists before shot after,
        shots = before ++ shot :: after
        /\ Hardcut.attach shots seg
           = before ++ Hardcut.append_segment shot seg :: after
        /\ Forall (fun s => ~ mid_in_shot s seg) before
        /\ (mid_in_shot shot seg \/ (~ mid_in_shot shot seg /\ after = [])))
    /\ Permutation (flat_map shot_segments (Hardcut.attach_all shots segs))
                   (flat_map shot_segments shots ++ segs).
Proof.
  intros shots seg segs Hne. split; [|apply attach_all_segments; assumption].
  destruct (attach_spec shots seg Hne)
    as (before & shot & after & (H1 & H2 & H3) & Heq).
  exists before, shot, after. repeat split; try assumption.
  - eapply Forall_impl; [|exact H2]. simpl. intros s Hs Hmid.
    apply contains_mid_spec in Hmid. congruence.
  - destruct H3 as [H3|[H3 H4]].
    + left. apply contains_mid_spec. exact H3.
    + right. split; [|exact H4]. intro Hmid.
      apply contains_mid_spec in Hmid. congruence.
Qed.

Lemma segment_attachment_witness :
  let shots := [plain_shot 0 5; plain_shot 5 10] in
  let seg := plain_segment 6 8 in
  let segs := [plain_segment 1 2; seg; plain_segment 20 30] in
  (exists before shot after,
      shots = before ++ shot :: after
      /\ Hardcut.attach shots seg
         = before ++ Hardcut.append_segment shot seg :: after
      /\ Forall (fun s => ~ mid_in_shot s seg) before
      /\ (mid_in_shot shot seg \/ (~ mid_in_shot shot seg /\ after = [])))
  /\ Permutation (flat_map shot_segments (Hardcut.attach_all shots segs))
                 (flat_map shot_segments shots ++ segs).
Proof.
  intros shots seg segs. apply (segment_attachment shots seg segs).
  discriminate.
Defined.

(** ** The window partitioner *)

Lemma tiles_start (a a' b : Q) (ws : list Interval) :
  a == a' -> tiles a ws b -> tiles a' ws b.
Proof.
  intro H. destruct ws as [|[s e] r]; simpl.
  - intro H0. rewrite <- H. exact H0.
  - intros (H1 & H2 & H3). rewrite <- H. tauto.
Qed.

Lemma tiles_app (x y : list Interval) :
  forall a m b, tiles a x m -> tiles m y b -> tiles a (x ++ y) b.
Proof.
  induction x as [|[s e] x IH]; intros a m b Hx Hy; simpl in *.
  - apply (tiles_start m); [symmetry; assumption | assumption].
  - destruct Hx as (H1 & H2 & H3). repeat split; try assumption.
    eapply IH; eassumption.
Qed.

Lemma tiles_app_inv (x y : list Interval) :
  forall a b, tiles a (x ++ y) b -> exists m, tiles a x m /\ tiles m y b.
Proof.
  induction x as [|[s e] x IH]; intros a b H; simpl in *.
  - exists a. split; [reflexivity | assumption].
  - destruct H as (H1 & H2 & H3). destruct (IH _ _ H3) as (m & Hm1 & Hm2).
    exists m. tauto.
Qed.

Lemma tiles_le (ws : list Interval) : forall a b, tiles a ws b -> a <= b.
Proof.
  induction ws as [|[s e] r IH]; intros a b H; simpl in H.
  - lra.
  - destruct H as (H1 & H2 & H3). specialize (IH _ _ H3). lra.
Qed.

(** *** The greedy variant *)

Lemma groups_loop_app (W : Q) (rest : list BgmCreate.BgmShot) :
  forall groups cur_start cur_end,
    BgmCreate.groups_loop W groups cur_start cur_end rest
    = groups ++ BgmCreate.groups_loop W [] cur_start cur_end rest.
Proof.
  induction rest as [|shot rest IH]; intros groups cs ce; simpl.
  - reflexivity.
  - destruct (Py.ltb _ W).
    + apply IH.
    + rewrite IH. rewrite (IH [_]). rewrite <- app_assoc. reflexivity.
Qed.

Lemma groups_loop_nonempty (W : Q) (rest : list BgmCreate.BgmShot) :
  forall cur_start cur_end,
    BgmCreate.groups_loop W [] cur_start cur_end rest <> [].
Proof.
  induction rest as [|shot rest IH]; intros cs ce; simpl.
  - discriminate.
  - destruct (Py.ltb _ W); [apply IH|].
    rewrite groups_loop_app. discriminate.
Qed.

Lemma groups_loop_tiles (W : Q) (rest : list BgmCreate.BgmShot) :
  forall cur_start cur_end,
    cur_start <= cur_end ->
    in_sequence cur_end rest ->
    let ws := BgmCreate.groups_loop W [] cur_start cur_end rest in
    tiles cur_start ws (final_end cur_end rest) /\ all_but_last_long W ws.
Proof.
  unfold all_but_last_long.
  induction rest as [|shot rest IH]; intros cs ce Hcur Hrest.
  - simpl. repeat split; try lra. constructor.
  - destruct Hrest as (Hs & Hse & Hrest). cbn zeta.
    cbn beta iota zeta delta [BgmCreate.groups_loop final_end].
    set (ce' := if Py.ltb ce (BgmCreate.start shot)
                then BgmCreate.start shot else ce).
    assert (Hend : ce' == BgmCreate.start shot).
    { subst ce'. py_case; lra. }
    clearbody ce'. py_case.
    + apply IH; [lra | assumption].
    + rewrite groups_loop_app.
      destruct (IH (BgmCreate.start shot) (BgmCreate.end_ shot) Hse Hrest)
        as [Ht Hl].
      pose proof (groups_loop_nonempty W rest (BgmCreate.start shot)
                    (BgmCreate.end_ shot)) as Hne.
      destruct (BgmCreate.groups_loop W [] (BgmCreate.start shot)
                  (BgmCreate.end_ shot) rest) as [|w ws]; [congruence|].
      split.
      * change (tiles cs ((cs, ce') :: w :: ws)
                  (final_end (BgmCreate.end_ shot) rest)).
        split; [reflexivity|]. split; [lra|].
        apply (tiles_start (BgmCreate.start shot));
          [symmetry; assumption | assumption].
      * change (removelast ([(cs, ce')] ++ w :: ws))
          with ((cs, ce') :: removelast (w :: ws)).
        constructor; [unfold len; simpl; lra | assumption].
Qed.

Lemma merge_short_tail_tiles (W a b : Q) (ws : list Interval) :
  tiles a ws b -> all_but_last_long W ws ->
  tiles a (BgmCreate.merge_short_tail W ws) b
  /\ all_but_last_long W (BgmCreate.merge_short_tail W ws).
Proof.
  intros Ht Hl. unfold BgmCreate.merge_short_tail.
  destruct (rev ws) as [|[ls le] [|[ps pe] before]] eqn:E; try tauto.
  destruct (Py.ltb (le - ls) W); [|tauto].
  assert (Hws : ws = rev before ++ [(ps, pe); (ls, le)]).
  { rewrite <- (rev_involutive ws), E. simpl. rewrite <- app_assoc.
    reflexivity. }
  subst ws. unfold all_but_last_long in *.
  apply tiles_app_inv in Ht. destruct Ht as (m & Hm & Ht).
  simpl in Ht. destruct Ht as (H1 & H2 & H3 & H4 & H5).
  change [(ps, pe); (ls, le)] with ([(ps, pe)] ++ [(ls, le)]) in Hl.
  rewrite app_assoc, removelast_last in Hl.
  apply Forall_app in Hl. destruct Hl as [Hl _].
  split.
  - eapply tiles_app; [exact Hm|]. simpl. repeat split; try assumption. lra.
  - rewrite removelast_last. exact Hl.
Qed.

Lemma greedy_windows (first : BgmCreate.BgmShot) (rest : list BgmCreate.BgmShot)
  (W : Q) :
  in_sequence (BgmCreate.start first) (first :: rest) ->
  greedy_partition (first :: rest) W (BgmCreate.start first)
    (final_end (BgmCreate.start first) (first :: rest)).
Proof.
  intros (_ & Hse & Hrest).
  unfold greedy_partition, BgmCreate._build_bgm_groups. cbv zeta.
  destruct (groups_loop_tiles W rest _ _ Hse Hrest) as [Ht Hl].
  apply merge_short_tail_tiles; assumption.
Qed.

(** *** The boundary-acceptance variant *)

Lemma accept_loop_app (D W : Q) (bs : list Q) :
  forall groups cur,
    FinalMapping.accept_loop D W groups cur bs
    = (groups ++ fst (FinalMapping.accept_loop D W [] cur bs),
       snd (FinalMapping.accept_loop D W [] cur bs)).
Proof.
  induction bs as [|t bs IH]; intros groups cur; simpl.
  - rewrite app_nil_r. reflexivity.
  - destruct (Py.leb W (t - cur) && Py.leb W (D - t)).
    + rewrite IH. rewrite (IH [_]). simpl. rewrite <- app_assoc. reflexivity.
    + apply IH.
Qed.

Lemma accept_loop_tiles (D W : Q) (bs : list Q) :
  0 <= W ->
  forall cur,
    let out := FinalMapping.accept_loop D W [] cur bs in
    tiles cur (fst out) (snd out)
    /\ Forall (fun w => W <= len w) (fst out)
    /\ ((fst out = [] /\ snd out = cur) \/ W <= D - snd out).
Proof.
  intro HW. induction bs as [|t bs IH]; intros cur; simpl.
  - repeat split; try reflexivity. constructor. tauto.
  - destruct (Py.leb W (t - cur) && Py.leb W (D - t)) eqn:E.
    + apply andb_true_iff in E. destruct E as [E1 E2].
      apply leb_true in E1. apply leb_true in E2.
      rewrite accept_loop_app. simpl.
      destruct (IH t) as (H1 & H2 & H3).
      repeat split; try lra; try assumption.
      * constructor; [unfold len; simpl; lra | assumption].
      * right. destruct H3 as [[_ H3]|H3]; [rewrite H3|]; lra.
    + apply IH.
Qed.

Lemma boundary_windows (data : Doc) (W : Q) :
  let D := Py.get (video_duration (video data)) 0 in
  (1 # 10) < D -> (1 # 10) < W -> boundary_partition data W.
Proof.
  intros D HD HW. unfold boundary_partition, FinalMapping.compute_bgm_groups.
  fold D. unfold all_but_last_long.
  assert (E : Py.leb D 0 = false) by (apply leb_false; lra).
  rewrite E.
  destruct (FinalMapping._collect_shots data) as [|shot shots].
  - exists [(0, D)]. simpl. repeat split; try lra. constructor.
  - set (bs := Py.sort (fun t => t)
                 (FinalMapping.boundaries_of (shot :: shots) D)).
    destruct (accept_loop_tiles D W bs ltac:(lra) 0) as (H1 & H2 & H3).
    destruct (FinalMapping.accept_loop D W [] 0 bs) as [groups cur].
    simpl in H1, H2, H3. py_case.
    + exists (groups ++ [(cur, D)]). split; [reflexivity|]. split.
      * eapply tiles_app; [exact H1|]. simpl. repeat split; lra.
      * rewrite removelast_last. exact H2.
    + exfalso. destruct H3 as [[_ H3]|H3]; [rewrite H3 in *|]; lra.
Qed.

(** C8. The window partitioner.  Greedy variant: on a non-empty list of
    shots that come one after the other without overlap (each starts at or
    after the end of the one before it, none is reversed) the windows follow
    one another from the start of the first shot to the end of the last one,
    with no gap and no overlap, and every window but the last is at least
    [W] long.  Boundary-acceptance variant: for a duration above 0.1 s and
    [W] above 0.1 s, whatever the shots, the windows follow one another from
    0 to the duration and every window but the last is at least [W] long.
    The greedy variant with [W = 15] on the shots [(0,5),(5,8),(8,20)] gives
    the single window [(0,20)]. *)
Theorem window_partition :
  (forall (first : BgmCreate.BgmShot) (rest : list BgmCreate.BgmShot) (W : Q),
      in_sequence (BgmCreate.start first) (first :: rest) ->
      greedy_partition (first :: rest) W (BgmCreate.start first)
        (final_end (BgmCreate.start first) (first :: rest)))
  /\ (forall (data : Doc) (W : Q),
        (1 # 10) < Py.get (video_duration (video data)) 0 ->
        (1 # 10) < W ->
        boundary_partition data W)
  /\ BgmCreate._build_bgm_groups [bgm_shot 0 5; bgm_shot 5 8; bgm_shot 8 20] 15
     = [(0, 20)].
Proof.
  split; [|split; [|reflexivity]].
  - intros first rest W. apply greedy_windows.
  - intros data W. apply boundary_windows.
Qed.

Lemma window_partition_witness :
  greedy_partition [bgm_shot 0 5; bgm_shot 5 8; bgm_shot 8 20] 15 0 20
  /\ boundary_partition
       (doc_of 40 [plain_shot 0 5; plain_shot 5 20; plain_shot 20 40]) 15.
Proof.
  split.
  - apply (proj1 window_partition (bgm_shot 0 5) [bgm_shot 5 8; bgm_shot 8 20] 15).
    simpl. repeat split; unfold Qle; simpl; lia.
  - apply (proj1 (proj2 window_partition)); reflexivity.
Defined.

(** C8, as first stated: the greedy variant on the sorted shots
    [(0,20),(10,30)] gives the overlapping windows [(0,20),(10,30)], and on
    the single shot [(5,30)] a window that starts at 5; the
    boundary-acceptance variant on a recording of 0.05 s gives no window. *)
Lemma window_partition_counterexample :
  (ascending BgmCreate.start [bgm_shot 0 20; bgm_shot 10 30]
   /\ forall D, ~ greedy_partition [bgm_shot 0 20; bgm_shot 10 30] 15 0 D)
  /\ (forall D, ~ greedy_partition [bgm_shot 5 30] 15 0 D)
  /\ ~ boundary_partition (doc_of (1 # 20) [plain_shot 0 (1 # 20)]) 15.
Proof.
  split; [split|split].
  - simpl. repeat split. unfold Qle; simpl; lia.
  - intros D [H _]. vm_compute in H. destruct H as (_ & _ & H & _).
    discriminate.
  - intros D [H _]. vm_compute in H. destruct H as (H & _). discriminate.
  - intros (ws & Hws & H & _). vm_compute in Hws. injection Hws as <-.
    vm_compute in H. discriminate.
Qed.

(** C10. The boundary-acceptance partitioner on a document with a positive
    duration and no shot returns the single window [(0.0, duration)],
    whatever the minimum window length. *)
Theorem no_shots_single_window :
  forall (data : Doc) (min_bgm_sec : Q),
    0 < duration_of data ->
    FinalMapping._collect_shots data = [] ->
    FinalMapping.compute_bgm_groups data min_bgm_sec
    = Return [(0, duration_of data)].
Proof.
  intros data W HD Hshots. unfold FinalMapping.compute_bgm_groups.
  fold (duration_of data). rewrite Hshots.
  apply leb_false in HD. rewrite HD. reflexivity.
Qed.

Lemma no_shots_single_window_witness :
  FinalMapping.compute_bgm_groups (doc_of 5 []) FinalMapping.MIN_BGM_SEC
  = Return [(0, 5)].
Proof.
  apply (no_shots_single_window (doc_of 5 []) FinalMapping.MIN_BGM_SEC);
    reflexivity.
Defined.

(** ** The fatal conditions *)

Lemma add_interval_long (cuts : list Interval) (s e duration : Q) :
  Forall long cuts -> Forall long (Hardcut._add_interval cuts s e duration).
Proof.
  intro H. unfold Hardcut._add_interval. py_case; [|assumption].
  apply Forall_app. split; [assumption|]. constructor; [|constructor].
  unfold long, len. simpl. exact E.
Qed.

Lemma raw_cuts_long (data : Doc) (duration : Q) :
  Forall long (Hardcut.raw_cuts data duration).
Proof.
  unfold Hardcut.raw_cuts, Hardcut.add_segment_cuts, Hardcut.add_shot_cuts.
  cbv zeta.
  assert (Hfold : forall (A : Type) (f : list Interval -> A -> list Interval)
                    (l : list A) (cuts : list Interval),
             (forall c a, Forall long c -> Forall long (f c a)) ->
             Forall long cuts -> Forall long (fold_left f l cuts)).
  { intros A f l. induction l as [|a l IH]; intros cuts Hf Hc; simpl.
    - assumption.
    - apply IH; [assumption | apply Hf; assumption]. }
  apply Hfold.
  - intros c seg Hc. cbv zeta.
    destruct (Py.leb _ _); [assumption|].
    destruct (Py.leb _ _); [|assumption].
    apply add_interval_long. assumption.
  - apply Hfold.
    + intros c shot Hc. apply add_interval_long. assumption.
    + repeat apply add_interval_long. constructor.
Qed.

(** On the cuts collected by the cut-set builder the merger returns. *)
Lemma merge_raw_cuts_returns (l : list Interval) :
  Forall long l -> exists M, Hardcut._merge_intervals l = Return M.
Proof.
  intro H. destruct l as [|i l]; [exists []; reflexivity|].
  apply merge_returns. inversion H as [|? ? Hi _]; subst.
  apply Exists_cons_hd. unfold long, len in Hi. pose proof EPS_pos.
  py_cases; lra.
Qed.

(** C9. The two fatal conditions.  A duration that is not positive is
    signalled by a [ValueError] whose message is fixed and does not hold the
    duration.  With a positive duration nothing is raised, and an empty
    keep-set is returned as such by [compute_cut_and_keep_intervals]; its
    caller [main] then prints a message and returns, without an error and
    without an output document. *)
Theorem fatal_conditions :
  forall (data : Doc),
    (duration_of data <= 0 ->
     Hardcut.compute_cut_and_keep_intervals data
     = Raise (ValueError "[hardcut] video.duration 이 0초 이하임")
     /\ Hardcut.main data
        = Raise (ValueError "[hardcut] video.duration 이 0초 이하임"))
    /\ (0 < duration_of data ->
        exists cuts,
          Hardcut.compute_cut_and_keep_intervals data
          = Return (cuts, Hardcut._build_keeps cuts (duration_of data),
                    duration_of data)
          /\ (Hardcut._build_keeps cuts (duration_of data) = [] ->
              Hardcut.main data = Return Hardcut.MainNoKeeps)).
Proof.
  intro data. split.
  - intro H. apply leb_true in H.
    unfold Hardcut.main, Hardcut.compute_cut_and_keep_intervals.
    fold (duration_of data). rewrite H. split; reflexivity.
  - intro H. apply leb_false in H.
    unfold Hardcut.main, Hardcut.compute_cut_and_keep_intervals.
    fold (duration_of data). rewrite H.
    destruct (merge_raw_cuts_returns _ (raw_cuts_long data (duration_of data)))
      as [cuts Hcuts].
    rewrite Hcuts. exists cuts. split; [reflexivity|].
    intro Hk. simpl. rewrite Hk. reflexivity.
Qed.

Lemma fatal_conditions_witness :
  (Hardcut.compute_cut_and_keep_intervals (doc_of 0 [])
   = Raise (ValueError "[hardcut] video.duration 이 0초 이하임")
   /\ Hardcut.main (doc_of 0 [])
      = Raise (ValueError "[hardcut] video.duration 이 0초 이하임"))
  /\ exists cuts,
       Hardcut.compute_cut_and_keep_intervals (doc_of 4 [])
       = Return (cuts, Hardcut._build_keeps cuts 4, 4)
       /\ (Hardcut._build_keeps cuts 4 = [] ->
           Hardcut.main (doc_of 4 []) = Return Hardcut.MainNoKeeps).
Proof.
  split.
  - apply (proj1 (fatal_conditions (doc_of 0 []))). unfold Qle; simpl; lia.
  - apply (proj2 (fatal_conditions (doc_of 4 []))). reflexivity.
Defined.

(** C9, as first stated: a recording of 4 s is cut whole by the head and
    tail trims; the empty keep-set is returned and [main] returns after its
    print, no error is raised.  The documents of duration 0 and -1 raise the
    same error, which so does not carry the duration. *)
Lemma fatal_conditions_counterexample :
  ~ empty_keeps_raise (doc_of 4 [])
  /\ ~ duration_error_carries_value (doc_of 0 []) (doc_of (-1) []).
Proof.
  split.
  - intro H. destruct (H [(0, 4)] 4 eq_refl) as [e He].
    vm_compute in He. discriminate.
  - intro H. specialize (H _ eq_refl eq_refl). vm_compute in H. discriminate.
Qed.

(** ** The pipeline *)

(** The merged cuts of a document are a cut-set of its duration, so that
    the keep-set builder is used within the conditions of C1. *)
Lemma add_interval_inside (cuts : list Interval) (s e D : Q) :
  0 <= D -> Forall (inside D) cuts ->
  Forall (inside D) (Hardcut._add_interval cuts s e D).
Proof.
  intros HD H. unfold Hardcut._add_interval.
  destruct (Py.ltb Hardcut.EPS _); [|assumption].
  apply Forall_app. split; [assumption|]. constructor; [|constructor].
  unfold inside. simpl. py_cases; lra.
Qed.

Lemma fold_left_Forall (A : Type) (P : Interval -> Prop)
  (f : list Interval -> A -> list Interval) (l : list A) :
  (forall c a, Forall P c -> Forall P (f c a)) ->
  forall cuts, Forall P cuts -> Forall P (fold_left f l cuts).
Proof.
  intro Hf. induction l as [|a l IH]; intros cuts Hc; simpl.
  - assumption.
  - apply IH, Hf, Hc.
Qed.

Lemma raw_cuts_inside (data : Doc) (D : Q) :
  0 <= D -> Forall (inside D) (Hardcut.raw_cuts data D).
Proof.
  intro HD.
  unfold Hardcut.raw_cuts, Hardcut.add_segment_cuts, Hardcut.add_shot_cuts.
  cbv zeta. apply fold_left_Forall.
  - intros c seg Hc. cbv zeta.
    destruct (Py.leb _ _); [assumption|].
    destruct (Py.leb _ _); [|assumption].
    apply add_interval_inside; assumption.
  - apply fold_left_Forall.
    + intros c shot Hc. apply add_interval_inside; assumption.
    + repeat apply add_interval_inside; try assumption. constructor.
Qed.

Lemma separated_chain (D : Q) (M : list Interval) :
  separated M -> Forall (inside D) M ->
  forall lo,
    match M with
    | [] => lo <= D
    | (s, _) :: _ => lo <= s
    end ->
    chain D lo M.
Proof.
  pose proof EPS_pos as Heps.
  induction M as [|[s e] M IH]; intros Hsep Hin lo Hlo; simpl.
  - assumption.
  - destruct Hsep as (Hse & Hnext & Hsep).
    inversion Hin as [|? ? [_ He] Hin']; subst. simpl in He.
    repeat split; try lra. apply IH; try assumption.
    destruct M as [|[s' e'] M]; lra.
Qed.

Lemma computed_cuts_form_cut_set (data : Doc) (cuts keeps : list Interval)
  (D : Q) :
  Hardcut.compute_cut_and_keep_intervals data = Return (cuts, keeps, D) ->
  0 < D /\ separated cuts /\ cut_set D cuts
  /\ keeps = Hardcut._build_keeps cuts D.
Proof.
  unfold Hardcut.compute_cut_and_keep_intervals.
  fold (duration_of data). py_case; [discriminate|].
  destruct (Hardcut._merge_intervals (Hardcut.raw_cuts data (duration_of data)))
    as [M|e] eqn:HM; simpl; [|discriminate].
  intros [= <- <- <-].
  destruct (merge_contract _ _ HM) as (Hsep & _ & Hbound).
  rewrite (normalize_of_long _ (raw_cuts_long data (duration_of data))) in Hbound.
  pose proof (raw_cuts_inside data (duration_of data) ltac:(lra)) as Hin.
  rewrite Forall_forall in Hin.
  assert (HinM : Forall (inside (duration_of data)) M).
  { apply Forall_forall. intros o Ho. destruct (Hbound o Ho) as [Hs He].
    apply in_map_iff in Hs. destruct Hs as (x & Hx & Hxin).
    apply in_map_iff in He. destruct He as (y & Hy & Hyin).
    destruct (Hin x Hxin) as [Hx0 _]. destruct (Hin y Hyin) as [_ HyD].
    unfold inside. rewrite <- Hx, <- Hy. tauto. }
  repeat split; try assumption.
  unfold cut_set. apply separated_chain; try assumption.
  destruct M as [|[s e'] M]; [lra|].
  inversion HinM as [|? ? [Hs _] _]; subst. exact Hs.
Qed.

(** The rebuilt shot list is never empty, and in the rebuilt document
    every remapped segment is in exactly one shot. *)
Lemma rebuild_shots_nonempty (data : Doc) (keeps : list Interval) (L : Q) :
  Hardcut.rebuild_shots data keeps L <> []
  /\ flat_map shot_segments (Hardcut.rebuild_shots data keeps L) = [].
Proof.
  rewrite rebuild_shots_placed.
  destruct (filter survives _) as [|info infos].
  - split; [discriminate | reflexivity].
  - split; [discriminate|]. generalize (info :: infos) 0.
    intros l. induction l as [|i l IH]; intros c; simpl; [reflexivity|apply IH].
Qed.

Lemma first_shots_enumerate (l : list Shot) :
  forall idx, Hardcut.first_shots (Hardcut.enumerate_shots idx l) = l.
Proof.
  induction l as [|shot l IH]; intros idx; simpl.
  - reflexivity.
  - rewrite IH. reflexivity.
Qed.

Lemma rebuild_attaches_every_segment (data : Doc) (keeps : list Interval)
  (hardcut_duration : Q) :
  Permutation
    (Hardcut._collect_segments
       (Hardcut.rebuild_json_with_shots data keeps hardcut_duration))
    (fst (Hardcut.remap_segments data hardcut_duration)).
Proof.
  unfold Hardcut.rebuild_json_with_shots, Hardcut._collect_segments.
  destruct (Hardcut.remap_segments data hardcut_duration) as [segs L].
  simpl. rewrite first_shots_enumerate.
  destruct (rebuild_shots_nonempty data keeps L) as [Hne Hnil].
  rewrite (attach_all_segments segs _ Hne), Hnil. apply Permutation_refl.
Qed.

(** * Further properties of the code *)

(** Case analysis on the comparisons of the goal, the innermost first, so
    that each outcome is an inequality between terms without tests. *)
Ltac no_test t :=
  lazymatch t with
  | context [Py.ltb _ _] => fail
  | context [Py.leb _ _] => fail
  | _ => idtac
  end.

Ltac py_inner_case :=
  match goal with
  | |- context [Py.ltb ?a ?b] =>
      no_test a; no_test b;
      let E := fresh "E" in
      destruct (Py.ltb a b) eqn:E;
      [apply ltb_true in E | apply ltb_false in E]
  | |- context [Py.leb ?a ?b] =>
      no_test a; no_test b;
      let E := fresh "E" in
      destruct (Py.leb a b) eqn:E;
      [apply leb_true in E | apply leb_false in E]
  end.

Ltac py_split := unfold Py.min, Py.max, Py.abs; repeat py_inner_case.

(** ** [_add_interval] *)

(** X1. [_add_interval] leaves the intervals it is given in place and
    appends at most one interval.  For a duration that is not negative, the
    pair it considers is [(s', e')], each bound clamped into
    [[0, duration]]: a bound below 0 becomes 0, a bound above [duration]
    becomes [duration], a bound in between is kept.  This clamped pair is
    appended exactly when [e' - s'] exceeds [EPS], and then it lies inside
    [[0, duration]]; otherwise the list is returned as it was, which is the
    case whenever [e - s] is at most [EPS]. *)
Theorem add_interval_clamps :
  forall (intervals : list Interval) (s e duration : Q),
    0 <= duration ->
    exists s' e',
      ((s <= 0 -> s' == 0)
       /\ (0 <= s -> s <= duration -> s' == s)
       /\ (duration <= s -> s' == duration))
      /\ ((e <= 0 -> e' == 0)
          /\ (0 <= e -> e <= duration -> e' == e)
          /\ (duration <= e -> e' == duration))
      /\ (Hardcut.EPS < e' - s' ->
          Hardcut._add_interval intervals s e duration
          = intervals ++ [(s', e')]
          /\ inside duration (s', e') /\ long (s', e'))
      /\ (e' - s' <= Hardcut.EPS ->
          Hardcut._add_interval intervals s e duration = intervals)
      /\ (e - s <= Hardcut.EPS -> e' - s' <= Hardcut.EPS).
Proof.
  intros intervals s e D HD. pose proof EPS_pos as Heps.
  exists (Py.max 0 (Py.min s D)), (Py.max 0 (Py.min e D)).
  unfold Hardcut._add_interval.
  split; [|split; [|split; [|split]]].
  - split; [|split]; intros; py_split; lra.
  - split; [|split]; intros; py_split; lra.
  - intro Hlen.
    assert (H3 : Py.ltb Hardcut.EPS
                   (Py.max 0 (Py.min e D) - Py.max 0 (Py.min s D)) = true)
      by (apply ltb_true; exact Hlen).
    rewrite H3. split; [reflexivity|]. split.
    + unfold inside. simpl. py_split; lra.
    + unfold long, len. simpl. exact Hlen.
  - intro Hlen.
    assert (H3 : Py.ltb Hardcut.EPS
                   (Py.max 0 (Py.min e D) - Py.max 0 (Py.min s D)) = false)
      by (apply ltb_false; exact Hlen).
    rewrite H3. reflexivity.
  - intro Hse. py_split; lra.
Qed.

Lemma add_interval_clamps_witness :
  exists s' e',
    s' == 0 /\ e' == 100
    /\ Hardcut._add_interval [(10, 20)] (-3) 102 100 = [(10, 20)] ++ [(s', e')].
Proof.
  destruct (add_interval_clamps [(10, 20)] (-3) 102 100 ltac:(discriminate))
    as (s' & e' & (Hs & _ & _) & (_ & _ & He) & Happ & _).
  exists s', e'.
  assert (H1 : s' == 0) by (apply Hs; discriminate).
  assert (H2 : e' == 100) by (apply He; discriminate).
  split; [exact H1|]. split; [exact H2|].
  apply Happ. pose proof EPS_pos. unfold Hardcut.EPS. lra.
Defined.

(** ** [_build_keeps] *)

Lemma keeps_from_chain (D : Q) (C : list Interval) :
  forall cur, chain D cur C ->
    Forall long (keeps_from cur C D) /\ chain D cur (keeps_from cur C D).
Proof.
  pose proof EPS_pos as Heps.
  induction C as [|[s e] C IH]; intros cur H.
  - rewrite keeps_from_nil. simpl in H. py_case.
    + split; [constructor; [exact E | constructor]|]. simpl. lra.
    + split; [constructor | exact H].
  - destruct (chain_step _ _ _ _ _ H) as [Hc Hm].
    destruct (IH _ Hc) as [Hlong Hchain].
    destruct H as (Hlo & Hse & _).
    rewrite keeps_from_cons. py_case.
    + split.
      * constructor; [exact E | exact Hlong].
      * simpl. repeat split; try lra.
        apply (chain_le D (Py.max cur e)); [lra | exact Hchain].
    + split; [exact Hlong|].
      apply (chain_le D (Py.max cur e)); [lra | exact Hchain].
Qed.

Lemma total_long (l : list Interval) :
  Forall long l -> Hardcut.EPS * count l <= total l.
Proof.
  induction 1 as [|i l Hi Hl IH].
  - change (count []) with 0. simpl. lra.
  - rewrite count_cons. simpl. unfold long in Hi. lra.
Qed.

(** X2. On a cut-set of the duration (sorted, pairwise disjoint, inside
    [[0, duration]]) [_build_keeps] returns keeps that are each longer than
    [EPS], sorted, pairwise disjoint and inside [[0, duration]]; so a keep-set
    that is not empty has a positive total length. *)
Theorem build_keeps_well_formed :
  forall (D : Q) (C : list Interval),
    cut_set D C ->
    let K := Hardcut._build_keeps C D in
    Forall long K /\ cut_set D K /\ (K <> [] -> 0 < total K).
Proof.
  intros D C HC K. subst K. rewrite build_keeps_from.
  destruct (keeps_from_chain D C 0 HC) as [Hlong Hchain].
  repeat split; try assumption.
  intro Hne. pose proof (total_long _ Hlong) as Ht. pose proof EPS_pos.
  destruct (keeps_from 0 C D) as [|k K]; [congruence|].
  rewrite count_cons in Ht. pose proof (count_nonneg K). nra.
Qed.

Lemma build_keeps_well_formed_witness :
  let K := Hardcut._build_keeps [(0, 3); (50, 101 # 2)] 100 in
  Forall long K /\ cut_set 100 K /\ (K <> [] -> 0 < total K).
Proof.
  apply (build_keeps_well_formed 100 [(0, 3); (50, 101 # 2)]).
  unfold cut_set. simpl. repeat split; unfold Qle; simpl; lia.
Defined.

(** ** [_compute_offsets] *)

Lemma offsets_loop_app (keeps : list Interval) :
  forall offsets acc,
    Hardcut.offsets_loop offsets acc keeps
    = (offsets ++ fst (Hardcut.offsets_loop [] acc keeps),
       snd (Hardcut.offsets_loop [] acc keeps)).
Proof.
  induction keeps as [|[s e] keeps IH]; intros offsets acc; simpl.
  - rewrite app_nil_r. reflexivity.
  - rewrite IH. rewrite (IH [_]). simpl. rewrite <- app_assoc. reflexivity.
Qed.

Lemma offsets_loop_prefix (keeps : list Interval) :
  forall acc,
    let out := Hardcut.offsets_loop [] acc keeps in
    List.length (fst out) = List.length keeps
    /\ snd out == acc + total keeps
    /\ forall i, (i < List.length keeps)%nat ->
         nth i (fst out) 0 == acc + total (firstn i keeps).
Proof.
  induction keeps as [|[s e] keeps IH]; intros acc; simpl.
  - repeat split; [lra | intros i Hi; lia].
  - rewrite offsets_loop_app. simpl.
    destruct (IH (acc + (e - s))) as (H1 & H2 & H3).
    repeat split.
    + rewrite H1. reflexivity.
    + rewrite H2. unfold len. simpl. lra.
    + intros [|i] Hi; simpl.
      * lra.
      * rewrite H3 by lia. unfold len. simpl. lra.
Qed.

(** X3. [_compute_offsets] returns one offset for each keep interval, the
    offset of a keep being the total length of the keeps before it (so the
    first one is 0), and as second result the total length of the keeps. *)
Theorem compute_offsets_prefix_sums :
  forall (keeps : list Interval),
    let offsets := fst (Hardcut._compute_offsets keeps) in
    List.length offsets = List.length keeps
    /\ snd (Hardcut._compute_offsets keeps) == total keeps
    /\ forall i, (i < List.length keeps)%nat ->
         nth i offsets 0 == total (firstn i keeps).
Proof.
  intros keeps offsets. subst offsets. unfold Hardcut._compute_offsets.
  destruct (offsets_loop_prefix keeps 0) as (H1 & H2 & H3).
  repeat split.
  - exact H1.
  - rewrite H2. lra.
  - intros i Hi. rewrite (H3 i Hi). lra.
Qed.

Lemma compute_offsets_prefix_sums_witness :
  nth 1 (fst (Hardcut._compute_offsets [(3, 50); (101 # 2, 100)])) 0
  == total (firstn 1 [(3, 50); (101 # 2, 100)]).
Proof.
  apply (proj2 (proj2 (compute_offsets_prefix_sums [(3, 50); (101 # 2, 100)]))).
  simpl. lia.
Defined.

(** ** The cut-set builder and the keeps of a document *)

Lemma add_interval_eq (cuts : list Interval) (s e D : Q) :
  Hardcut._add_interval cuts s e D
  = if Py.ltb Hardcut.EPS (len (clamped s e D))
    then cuts ++ [clamped s e D] else cuts.
Proof. reflexivity. Qed.

Lemma add_interval_keeps_In (cuts : list Interval) (s e D : Q) (i : Interval) :
  In i cuts -> In i (Hardcut._add_interval cuts s e D).
Proof.
  intro H. rewrite add_interval_eq.
  destruct (Py.ltb _ _); [apply in_or_app; left|]; assumption.
Qed.

Lemma add_interval_In (cuts : list Interval) (s e D : Q) :
  long (clamped s e D) -> In (clamped s e D) (Hardcut._add_interval cuts s e D).
Proof.
  intro H. rewrite add_interval_eq. apply ltb_true in H. rewrite H.
  apply in_or_app. right. left. reflexivity.
Qed.

Lemma fold_left_keeps_In (A : Type) (f : list Interval -> A -> list Interval)
  (l : list A) (i : Interval) :
  (forall c a, In i c -> In i (f c a)) ->
  forall cuts, In i cuts -> In i (fold_left f l cuts).
Proof.
  intro Hf. induction l as [|a l IH]; intros cuts Hc; simpl.
  - assumption.
  - apply IH, Hf, Hc.
Qed.

Lemma fold_left_adds_In (A : Type) (f : list Interval -> A -> list Interval)
  (l : list A) (i : Interval) (x : A) :
  (forall c a, In i c -> In i (f c a)) ->
  (forall c, In i (f c x)) ->
  In x l ->
  forall cuts, In i (fold_left f l cuts).
Proof.
  intros Hf Hx. induction l as [|a l IH]; intros Hin cuts; simpl.
  - destruct Hin.
  - destruct Hin as [<-|Hin].
    + apply fold_left_keeps_In; [assumption | apply Hx].
    + apply IH. assumption.
Qed.

(** The raw cuts hold the head trim, the tail trim, the margin around
    every shot transition and the tail of every long segment, each clamped
    into [[0, duration]], whenever what is left of it is longer than [EPS]. *)
Lemma raw_cuts_head (data : Doc) (D : Q) :
  long (clamped 0 Hardcut.TRIM_HEAD_SEC D) ->
  In (clamped 0 Hardcut.TRIM_HEAD_SEC D) (Hardcut.raw_cuts data D).
Proof.
  intro H.
  unfold Hardcut.raw_cuts, Hardcut.add_segment_cuts, Hardcut.add_shot_cuts.
  cbv zeta. apply fold_left_keeps_In.
  { intros c seg Hc. cbv zeta. destruct (Py.leb _ _); [assumption|].
    destruct (Py.leb _ _); [|assumption]. apply add_interval_keeps_In, Hc. }
  apply fold_left_keeps_In.
  { intros c shot Hc. apply add_interval_keeps_In, Hc. }
  apply add_interval_keeps_In. apply (add_interval_In [] _ _ _ H).
Qed.

Lemma raw_cuts_tail (data : Doc) (D : Q) :
  long (clamped (D - Hardcut.TRIM_TAIL_SEC) D D) ->
  In (clamped (D - Hardcut.TRIM_TAIL_SEC) D D) (Hardcut.raw_cuts data D).
Proof.
  intro H.
  unfold Hardcut.raw_cuts, Hardcut.add_segment_cuts, Hardcut.add_shot_cuts.
  cbv zeta. apply fold_left_keeps_In.
  { intros c seg Hc. cbv zeta. destruct (Py.leb _ _); [assumption|].
    destruct (Py.leb _ _); [|assumption]. apply add_interval_keeps_In, Hc. }
  apply fold_left_keeps_In.
  { intros c shot Hc. apply add_interval_keeps_In, Hc. }
  apply add_interval_In. exact H.
Qed.

Lemma raw_cuts_shot (data : Doc) (D : Q) (shot : Shot) :
  In shot (tl (Hardcut._collect_shots data)) ->
  let t := Py.get (shot_start shot) 0 in
  long (clamped (t - Hardcut.SHOT_MARGIN_SEC) (t + Hardcut.SHOT_MARGIN_SEC) D) ->
  In (clamped (t - Hardcut.SHOT_MARGIN_SEC) (t + Hardcut.SHOT_MARGIN_SEC) D)
     (Hardcut.raw_cuts data D).
Proof.
  intros Hin t H.
  unfold Hardcut.raw_cuts, Hardcut.add_segment_cuts, Hardcut.add_shot_cuts.
  cbv zeta. apply fold_left_keeps_In.
  { intros c seg Hc. cbv zeta. destruct (Py.leb _ _); [assumption|].
    destruct (Py.leb _ _); [|assumption]. apply add_interval_keeps_In, Hc. }
  apply (fold_left_adds_In _ _ _ _ shot).
  - intros c a Hc. apply add_interval_keeps_In, Hc.
  - intros c. apply add_interval_In. exact H.
  - exact Hin.
Qed.

Lemma raw_cuts_segment (data : Doc) (D : Q) (seg : Segment) :
  In seg (Hardcut._collect_segments data) ->
  let e := float_end seg in
  float_start seg < e -> Hardcut.LONG_SEG_THRESH_SEC <= float_length seg ->
  long (clamped (e - Hardcut.SEG_TAIL_CUT_SEC) e D) ->
  In (clamped (e - Hardcut.SEG_TAIL_CUT_SEC) e D) (Hardcut.raw_cuts data D).
Proof.
  intros Hin e Hse Hlen H.
  unfold Hardcut.raw_cuts, Hardcut.add_segment_cuts. cbv zeta.
  apply (fold_left_adds_In _ _ _ _ seg).
  - intros c a Hc. cbv zeta. destruct (Py.leb _ _); [assumption|].
    destruct (Py.leb _ _); [|assumption]. apply add_interval_keeps_In, Hc.
  - intros c. cbv zeta. fold (float_start seg) (float_end seg).
    fold (float_length seg). fold e.
    apply leb_false in Hse. rewrite Hse.
    apply leb_true in Hlen. rewrite Hlen.
    apply add_interval_In. exact H.
  - exact Hin.
Qed.

(** A segment that is longer than 15 s by more than a nanosecond is long
    for the code too, whatever the rounding of its times below 10^6 s. *)
Lemma float_length_long (seg : Segment) :
  let s := Py.get (seg_start seg) 0 in
  let e := Py.get (seg_end seg) 0 in
  0 <= s -> e <= 1000000 -> 15 + (1 # 1000000000) <= e - s ->
  float_start seg < float_end seg /\ 15 <= float_length seg.
Proof.
  intros s e Hs He Hlen. unfold float_length, float_start, float_end, Py.fsub.
  fold s e.
  destruct (float_close s Hs) as [_ Hfs].
  destruct (float_close e ltac:(lra)) as [Hfe _].
  set (fs := Py.float s) in *. set (fe := Py.float e) in *.
  assert (Hd : 15 + (1 # 2000000000) <= fe - fs) by (clearbody fs fe; lra).
  destruct (float_close (fe - fs) ltac:(lra)) as [Hfl _].
  set (fl := Py.float (fe - fs)) in *. clearbody fl fs fe. split; lra.
Qed.

(** Every raw cut lies within a merged cut, away from every keep; the
    keeps are longer than [EPS] and inside [[0, duration]]. *)
Lemma keeps_clear_of_raw_cuts (data : Doc) (cuts keeps : list Interval) (D : Q) :
  Hardcut.compute_cut_and_keep_intervals data = Return (cuts, keeps, D) ->
  forall k, In k keeps ->
    long k /\ inside D k
    /\ forall i, In i (Hardcut.raw_cuts data D) -> clear_of k (fst i) (snd i).
Proof.
  intros H k Hk.
  destruct (computed_cuts_form_cut_set _ _ _ _ H) as (HD & Hsep & Hcut & Hkeeps).
  unfold Hardcut.compute_cut_and_keep_intervals in H.
  fold (duration_of data) in H.
  destruct (Py.leb (duration_of data) 0); [discriminate|].
  destruct (Hardcut._merge_intervals (Hardcut.raw_cuts data (duration_of data)))
    as [M|e] eqn:HM; simpl in H; [|discriminate].
  injection H as <- _ <-.
  destruct (merge_contract _ _ HM) as (_ & Hcover & _).
  rewrite (normalize_of_long _ (raw_cuts_long data (duration_of data))) in Hcover.
  subst keeps. rewrite build_keeps_from in Hk.
  destruct (keeps_from_chain _ _ 0 Hcut) as [Hlong _].
  rewrite Forall_forall in Hlong.
  destruct (keeps_no_overlap _ _ 0 Hcut k Hk) as (H0 & H1 & Hno).
  split; [apply Hlong, Hk|]. split; [split; assumption|].
  intros i Hi. destruct (Hcover i Hi) as (o & Ho & [Hw1 Hw2]).
  unfold clear_of. destruct (Hno o Ho); [left | right]; lra.
Qed.

(** Moves the hypotheses that hold a [min] or a [max] into the goal, splits
    on the comparisons and closes the cases by linear arithmetic. *)
Ltac clamp_lra :=
  unfold long, len, inside, clamped, Hardcut.TRIM_HEAD_SEC,
    Hardcut.TRIM_TAIL_SEC, Hardcut.SHOT_MARGIN_SEC,
    Hardcut.LONG_SEG_THRESH_SEC, Hardcut.SEG_TAIL_CUT_SEC, Hardcut.EPS in *;
  simpl fst in *; simpl snd in *;
  repeat match goal with
         | H : context [Py.max _ _] |- _ => revert H
         | H : context [Py.min _ _] |- _ => revert H
         end;
  py_split; intros; lra.

Lemma keep_inside_trims (data : Doc) (cuts keeps : list Interval) (D : Q) :
  Hardcut.compute_cut_and_keep_intervals data = Return (cuts, keeps, D) ->
  forall k, In k keeps ->
    Hardcut.TRIM_HEAD_SEC <= fst k /\ snd k <= D - Hardcut.TRIM_TAIL_SEC.
Proof.
  intros H k Hk.
  destruct (keeps_clear_of_raw_cuts _ _ _ _ H k Hk) as (Hlong & Hin & Hclear).
  assert (Hhead : long (clamped 0 Hardcut.TRIM_HEAD_SEC D))
    by (destruct Hin; clamp_lra).
  assert (Htail : long (clamped (D - Hardcut.TRIM_TAIL_SEC) D D))
    by (destruct Hin; clamp_lra).
  pose proof (Hclear _ (raw_cuts_head data D Hhead)) as H1.
  pose proof (Hclear _ (raw_cuts_tail data D Htail)) as H2.
  clear Hclear Hhead Htail. destruct Hin as [Hin1 Hin2]. unfold clear_of in *.
  split.
  - destruct H1 as [H1|H1]; clear H2; clamp_lra.
  - destruct H2 as [H2|H2]; clear H1; clamp_lra.
Qed.

(** X4. What the keeps of a document stay clear of.  Every keep interval
    returned by [compute_cut_and_keep_intervals] lies between the head trim
    and the tail trim, that is inside [[2, duration - 2]]; it has nothing in
    common with the 3.5 s on either side of the start of any shot but the
    first, nor with the last 2 s of any segment that the code finds 15 s
    long or more: its end read with [float()] lies after its start so read
    and their binary64 difference is at least 15.  That is the case of every
    segment with times between 0 and 10^6 s whose stored length is at least
    15 s and a nanosecond; for a stored length of 15 s to the digit the
    rounding decides. *)
Theorem keeps_avoid_trims :
  forall (data : Doc) (cuts keeps : list Interval) (D : Q),
    Hardcut.compute_cut_and_keep_intervals data = Return (cuts, keeps, D) ->
    forall k, In k keeps ->
      (Hardcut.TRIM_HEAD_SEC <= fst k /\ snd k <= D - Hardcut.TRIM_TAIL_SEC)
      /\ (forall shot, In shot (tl (Hardcut._collect_shots data)) ->
            let t := Py.get (shot_start shot) 0 in
            clear_of k (t - Hardcut.SHOT_MARGIN_SEC) (t + Hardcut.SHOT_MARGIN_SEC))
      /\ (forall seg, In seg (Hardcut._collect_segments data) ->
            let e := float_end seg in
            float_start seg < e ->
            Hardcut.LONG_SEG_THRESH_SEC <= float_length seg ->
            clear_of k (e - Hardcut.SEG_TAIL_CUT_SEC) e)
      /\ (forall seg, In seg (Hardcut._collect_segments data) ->
            0 <= Py.get (seg_start seg) 0 ->
            Py.get (seg_end seg) 0 <= 1000000 ->
            15 + (1 # 1000000000)
            <= Py.get (seg_end seg) 0 - Py.get (seg_start seg) 0 ->
            clear_of k (float_end seg - Hardcut.SEG_TAIL_CUT_SEC) (float_end seg)).
Proof.
  intros data cuts keeps D H k Hk.
  destruct (keep_inside_trims _ _ _ _ H k Hk) as [Hhead Htail].
  destruct (keeps_clear_of_raw_cuts _ _ _ _ H k Hk) as (Hlong & [Hin1 Hin2] & Hclear).
  assert (Hseg : forall seg, In seg (Hardcut._collect_segments data) ->
            let e := float_end seg in
            float_start seg < e ->
            Hardcut.LONG_SEG_THRESH_SEC <= float_length seg ->
            clear_of k (e - Hardcut.SEG_TAIL_CUT_SEC) e).
  { intros seg Hseg e Hse Hlen.
    pose proof (raw_cuts_segment data D seg Hseg Hse Hlen) as Hraw.
    cbv zeta in Hraw. fold e in Hraw. clearbody e.
    set (i := clamped (e - Hardcut.SEG_TAIL_CUT_SEC) e D).
    destruct (Qlt_le_dec Hardcut.EPS (len i)) as [Hi|Hi].
    + pose proof (Hclear _ (Hraw Hi)) as Hc. clear Hraw.
      fold i in Hc. subst i. clear Hclear Hi Hse Hlen. unfold clear_of in *.
      destruct Hc as [Hc|Hc]; [left | right]; clamp_lra.
    + subst i. clear Hclear Hraw Hse Hlen. unfold clear_of.
      destruct (Qlt_le_dec Hardcut.TRIM_HEAD_SEC e); [left | right]; clamp_lra. }
  split; [split; assumption|]. split; [|split; [exact Hseg|]].
  - intros shot Hshot t.
    pose proof (raw_cuts_shot data D shot Hshot) as Hraw.
    cbv zeta in Hraw. fold t in Hraw. clearbody t.
    set (i := clamped (t - Hardcut.SHOT_MARGIN_SEC) (t + Hardcut.SHOT_MARGIN_SEC) D).
    destruct (Qlt_le_dec Hardcut.EPS (len i)) as [Hi|Hi].
    + pose proof (Hclear _ (Hraw Hi)) as Hc. clear Hraw.
      fold i in Hc. subst i. clear Hclear Hi Hseg. unfold clear_of in *.
      destruct Hc as [Hc|Hc]; [left | right]; clamp_lra.
    + subst i. clear Hclear Hraw Hseg. unfold clear_of.
      destruct (Qlt_le_dec Hardcut.TRIM_HEAD_SEC (t + Hardcut.SHOT_MARGIN_SEC));
        [left | right]; clamp_lra.
  - intros seg Hin Hs He Hlen.
    destruct (float_length_long seg Hs He Hlen) as [Hse Hfl].
    apply (Hseg seg Hin Hse). exact Hfl.
Qed.

(** A document with one shot and the stored segment [(1.50, 17.00)], 15.5 s
    long: its tail from 15 s to 17 s is cut. *)
Lemma keeps_avoid_trims_witness :
  let data :=
    {| video := {| video_duration := Some 100; video_fps := None;
                   video_orig_duration := None;
                   video_logical_duration := None |};
       shots := [("shot_1"%string,
                  [{| shot_start := Some 0; shot_end := Some 100;
                      shot_start_frame := None; shot_end_frame := None;
                      shot_probability := None;
                      shot_segments := [plain_segment (15 # 10) 17] |}])];
       whisper_num_segments := None; hardcut := None |} in
  Forall (fun k => clear_of k (17 - 2) 17) [(2, 15); (17, 98)].
Proof.
  intro data. apply Forall_forall. intros k Hk.
  assert (Hrun : Hardcut.compute_cut_and_keep_intervals data
                 = Return ([(0, 2); (15, 17); (98, 100)], [(2, 15); (17, 98)], 100))
    by (vm_compute; reflexivity).
  assert (Hin : In (plain_segment (15 # 10) 17) (Hardcut._collect_segments data))
    by (left; reflexivity).
  assert (Hse : float_start (plain_segment (15 # 10) 17)
                < float_end (plain_segment (15 # 10) 17))
    by (vm_compute; reflexivity).
  assert (Hlen : Hardcut.LONG_SEG_THRESH_SEC
                 <= float_length (plain_segment (15 # 10) 17))
    by (vm_compute; discriminate).
  exact (proj1 (proj2 (proj2 (keeps_avoid_trims data _ _ 100 Hrun k Hk)))
           _ Hin Hse Hlen).
Defined.


(** ** The exact partition of a document *)

Lemma compute_inversion (data : Doc) (cuts keeps : list Interval) (D : Q) :
  Hardcut.compute_cut_and_keep_intervals data = Return (cuts, keeps, D) ->
  D = duration_of data /\ 0 < D
  /\ Hardcut._merge_intervals (Hardcut.raw_cuts data D) = Return cuts
  /\ keeps = Hardcut._build_keeps cuts D.
Proof.
  unfold Hardcut.compute_cut_and_keep_intervals.
  fold (duration_of data). py_case; [discriminate|].
  destruct (Hardcut._merge_intervals (Hardcut.raw_cuts data (duration_of data)))
    as [M|e] eqn:HM; simpl; [|discriminate].
  intros [= <- <- <-]. repeat split; assumption.
Qed.

Lemma separated_head_gap (M : list Interval) :
  forall x o, separated (x :: M) -> In o M -> snd x + Hardcut.EPS < fst o.
Proof.
  pose proof EPS_pos as Heps.
  induction M as [|[s e] M IH]; intros [xs xe] o Hsep Hin.
  - destruct Hin.
  - destruct Hsep as (Hx & Hgap & Hsep). destruct Hin as [<-|Hin].
    + simpl. exact Hgap.
    + specialize (IH (s, e) o Hsep Hin). destruct Hsep as (Hse & _).
      simpl in *. lra.
Qed.

Lemma separated_first (D : Q) (M : list Interval) (o : Interval) :
  separated M -> Forall (inside D) M -> In o M -> fst o == 0 ->
  match M with
  | [] => False
  | (s, _) :: _ => s == 0
  end.
Proof.
  pose proof EPS_pos as Heps.
  destruct M as [|[s e] M]; intros Hsep Hin Ho H0; [destruct Ho|].
  destruct Ho as [<-|Ho]; [exact H0|].
  pose proof (separated_head_gap M (s, e) o Hsep Ho) as Hgap.
  inversion Hin as [|? ? [Hs _] _]; subst. destruct Hsep as (Hse & _).
  simpl in *. lra.
Qed.

Lemma separated_last (D : Q) (M : list Interval) (o : Interval) :
  separated M -> Forall (inside D) M -> In o M -> snd o == D -> ends_at D M.
Proof.
  pose proof EPS_pos as Heps.
  induction M as [|[s e] M IH]; intros Hsep Hin Ho HD; [exact I|].
  destruct M as [|[s' e'] M].
  - destruct Ho as [<-|[]]. exact HD.
  - change (ends_at D ((s', e') :: M)).
    inversion Hin as [|? ? _ Hin']; subst.
    destruct Ho as [<-|Ho].
    + exfalso. destruct Hsep as (_ & Hgap & Hse' & _).
      inversion Hin' as [|? ? [_ He'] _]; subst. simpl in *. lra.
    + apply IH; try assumption. destruct Hsep as (_ & _ & Hsep). exact Hsep.
Qed.

(** A merged cut-set that leaves no short gap: the cursor is at the start
    of the first cut or more than [EPS] before it, and the last cut ends at
    [D] (with no cut, the cursor is at [D]). *)
Lemma keeps_exact (D : Q) (M : list Interval) :
  forall cur,
    separated M -> ends_at D M ->
    match M with
    | [] => cur == D
    | (s, _) :: _ => s == cur \/ Hardcut.EPS < s - cur
    end ->
    total (keeps_from cur M D) + total M == D - cur
    /\ forall t, cur <= t <= D ->
         covered (keeps_from cur M D ++ M) t \/ t == cur.
Proof.
  pose proof EPS_pos as Heps.
  induction M as [|[s e] M IH]; intros cur Hsep Hend Hcur.
  - rewrite keeps_from_nil.
    assert (E : Py.ltb Hardcut.EPS (D - cur) = false) by (apply ltb_false; lra).
    rewrite E. simpl. split; [lra|]. intros t Ht. right. lra.
  - destruct Hsep as (Hse & Hgap & Hsep).
    assert (Hm : Py.max cur e == e) by (py_split; lra).
    assert (Hnext : match M with
                    | [] => Py.max cur e == D
                    | (s', _) :: _ =>
                        s' == Py.max cur e \/ Hardcut.EPS < s' - Py.max cur e
                    end).
    { destruct M as [|[s' e'] M]; simpl in Hend; [lra | right; lra]. }
    assert (Hend' : ends_at D M) by (destruct M; [exact I | exact Hend]).
    destruct (IH _ Hsep Hend' Hnext) as [Htot Hcov].
    rewrite keeps_from_cons, total_app.
    change (total ((s, e) :: M)) with (e - s + total M).
    destruct Hcur as [Hcur|Hcur].
    + assert (E : Py.ltb Hardcut.EPS (s - cur) = false)
        by (apply ltb_false; lra).
      rewrite E. split.
      * change (total []) with 0. lra.
      * intros t Ht. destruct (Qlt_le_dec e t) as [Het|Hte].
        { destruct (Hcov t ltac:(lra)) as [(i & Hi & Hti)|Heq]; [|lra].
          left. exists i. split; [|assumption].
          simpl. rewrite in_app_iff in Hi. rewrite in_app_iff. simpl. tauto. }
        { left. exists (s, e). split; [|simpl; lra].
          simpl. rewrite in_app_iff. simpl. tauto. }
    + assert (E : Py.ltb Hardcut.EPS (s - cur) = true) by (apply ltb_true; lra).
      rewrite E. split.
      * change (total [(cur, s)]) with (s - cur + 0). lra.
      * intros t Ht. destruct (Qlt_le_dec t s) as [Hts|Hst].
        { left. exists (cur, s). split; [left; reflexivity | simpl; lra]. }
        destruct (Qlt_le_dec e t) as [Het|Hte].
        { destruct (Hcov t ltac:(lra)) as [(i & Hi & Hti)|Heq]; [|lra].
          left. exists i. split; [|assumption].
          simpl. rewrite in_app_iff in Hi. rewrite in_app_iff. simpl. tauto. }
        { left. exists (s, e). split; [|simpl; lra].
          simpl. rewrite in_app_iff. simpl. tauto. }
Qed.

Lemma computed_cuts_span (data : Doc) (cuts keeps : list Interval) (D : Q) :
  Hardcut.compute_cut_and_keep_intervals data = Return (cuts, keeps, D) ->
  Hardcut.EPS < D ->
  ends_at D cuts
  /\ match cuts with
     | [] => False
     | (s, _) :: _ => s == 0
     end.
Proof.
  intros H HD.
  destruct (computed_cuts_form_cut_set _ _ _ _ H) as (_ & Hsep & Hcut & _).
  destruct (compute_inversion _ _ _ _ H) as (_ & HD0 & HM & _).
  destruct (merge_contract _ _ HM) as (_ & Hcover & Hbound).
  rewrite (normalize_of_long _ (raw_cuts_long data D)) in Hcover, Hbound.
  pose proof (raw_cuts_inside data D ltac:(lra)) as Hin.
  rewrite Forall_forall in Hin.
  assert (HinM : Forall (inside D) cuts).
  { apply Forall_forall. intros o Ho. destruct (Hbound o Ho) as [Hs He].
    apply in_map_iff in Hs. destruct Hs as (x & Hx & Hxin).
    apply in_map_iff in He. destruct He as (y & Hy & Hyin).
    destruct (Hin x Hxin) as [Hx0 _]. destruct (Hin y Hyin) as [_ HyD].
    unfold inside. rewrite <- Hx, <- Hy. tauto. }
  assert (Hhead : long (clamped 0 Hardcut.TRIM_HEAD_SEC D)) by clamp_lra.
  assert (Htail : long (clamped (D - Hardcut.TRIM_TAIL_SEC) D D)) by clamp_lra.
  destruct (Hcover _ (raw_cuts_head data D Hhead)) as (o1 & Ho1 & [Hw1 _]).
  destruct (Hcover _ (raw_cuts_tail data D Htail)) as (o2 & Ho2 & [_ Hw2]).
  pose proof HinM as HinM'. rewrite Forall_forall in HinM'.
  destruct (HinM' o1 Ho1) as [Ho1a _]. destruct (HinM' o2 Ho2) as [_ Ho2b].
  split.
  - apply (separated_last D cuts o2); try assumption.
    revert Hw2. clear - Ho2b HD. clamp_lra.
  - apply (separated_first D cuts o1); try assumption.
    revert Hw1. clear - Ho1a HD. clamp_lra.
Qed.

(** X5. The exact partition of a document.  For a duration above [EPS] the
    merged cuts returned by [compute_cut_and_keep_intervals] begin at 0 and
    end at the duration, every time of [[0, duration]] lies in a keep or in a
    cut, no keep overlaps a cut, and the lengths of the keeps and of the
    cuts add up to the duration; so the post-cut duration computed by
    [_compute_offsets] is the duration less the total length of the cuts. *)
Theorem document_partition :
  forall (data : Doc) (cuts keeps : list Interval) (D : Q),
    Hardcut.compute_cut_and_keep_intervals data = Return (cuts, keeps, D) ->
    Hardcut.EPS < D ->
    (exists s e rest, cuts = (s, e) :: rest /\ s == 0)
    /\ ends_at D cuts
    /\ (forall t, 0 <= t <= D -> covered (keeps ++ cuts) t)
    /\ no_overlap keeps cuts
    /\ total keeps + total cuts == D
    /\ snd (Hardcut._compute_offsets keeps) == D - total cuts.
Proof.
  intros data cuts keeps D H HD. pose proof EPS_pos as Heps.
  destruct (computed_cuts_form_cut_set _ _ _ _ H) as (_ & Hsep & Hcut & Hkeeps).
  destruct (computed_cuts_span _ _ _ _ H HD) as [Hend Hfirst].
  assert (Hcur : match cuts with
                 | [] => 0 == D
                 | (s, _) :: _ => s == 0 \/ Hardcut.EPS < s - 0
                 end).
  { destruct cuts as [|[s e] rest]; [contradiction | left; exact Hfirst]. }
  destruct (keeps_exact D cuts 0 Hsep Hend Hcur) as [Htot Hcov].
  change (keeps_from 0 cuts D) with (Hardcut._build_keeps cuts D) in Htot, Hcov.
  subst keeps.
  split; [|split; [exact Hend|]]; [|split; [|split; [|split]]].
  - destruct cuts as [|[s e] rest]; [contradiction|].
    exists s, e, rest. split; [reflexivity | exact Hfirst].
  - intros t Ht. destruct (Hcov t Ht) as [Hc|Heq]; [exact Hc|].
    destruct cuts as [|[s e] rest]; [contradiction|].
    exists (s, e). split; [apply in_or_app; right; left; reflexivity|].
    destruct Hsep as (Hse & _). simpl. lra.
  - intros k c Hk Hc. rewrite build_keeps_from in Hk.
    destruct (keeps_no_overlap D _ 0 Hcut k Hk) as (_ & _ & Hno).
    apply Hno, Hc.
  - lra.
  - destruct (offsets_loop_prefix (Hardcut._build_keeps cuts D) 0)
      as (_ & Hsum & _).
    unfold Hardcut._compute_offsets. rewrite Hsum. lra.
Qed.

Lemma document_partition_witness :
  let data := doc_of 100 [plain_shot 0 40; plain_shot 40 100] in
  exists cuts keeps,
    Hardcut.compute_cut_and_keep_intervals data = Return (cuts, keeps, 100)
    /\ total keeps + total cuts == 100
    /\ snd (Hardcut._compute_offsets keeps) == 100 - total cuts.
Proof.
  intro data. eexists. eexists. split; [vm_compute; reflexivity|].
  eapply (fun H => proj2 (proj2 (proj2 (proj2
            (document_partition data _ _ 100 H ltac:(reflexivity)))))).
  vm_compute. reflexivity.
Defined.

(** X6. A recording of at most 4 s, the length of the head trim and of the
    tail trim together, keeps nothing: [compute_cut_and_keep_intervals]
    returns an empty keep-set and [main] stops after its message. *)
Theorem short_recording_is_cut_whole :
  forall (data : Doc),
    0 < duration_of data ->
    duration_of data
    <= Hardcut.TRIM_HEAD_SEC + Hardcut.TRIM_TAIL_SEC + Hardcut.EPS ->
    (exists cuts,
        Hardcut.compute_cut_and_keep_intervals data
        = Return (cuts, [], duration_of data))
    /\ Hardcut.main data = Return Hardcut.MainNoKeeps.
Proof.
  intros data HD Hshort.
  assert (Hret : exists cuts keeps,
             Hardcut.compute_cut_and_keep_intervals data
             = Return (cuts, keeps, duration_of data)).
  { unfold Hardcut.compute_cut_and_keep_intervals. fold (duration_of data).
    apply leb_false in HD. rewrite HD.
    destruct (merge_raw_cuts_returns _ (raw_cuts_long data (duration_of data)))
      as [cuts Hcuts].
    rewrite Hcuts. simpl. eauto. }
  destruct Hret as (cuts & keeps & H).
  assert (Hnil : keeps = []).
  { destruct keeps as [|k keeps]; [reflexivity|]. exfalso.
    destruct (keep_inside_trims _ _ _ _ H k (or_introl eq_refl)) as [H1 H2].
    destruct (keeps_clear_of_raw_cuts _ _ _ _ H k (or_introl eq_refl))
      as (Hlong & _ & _).
    clear H. clamp_lra. }
  subst keeps. split; [exists cuts; exact H|].
  unfold Hardcut.main. rewrite H. reflexivity.
Qed.

Lemma short_recording_is_cut_whole_witness :
  (exists cuts,
      Hardcut.compute_cut_and_keep_intervals
        (doc_of 3 [plain_shot 0 1; plain_shot 1 3])
      = Return (cuts, [], 3))
  /\ Hardcut.main (doc_of 3 [plain_shot 0 1; plain_shot 1 3])
     = Return Hardcut.MainNoKeeps.
Proof.
  apply (short_recording_is_cut_whole (doc_of 3 [plain_shot 0 1; plain_shot 1 3]));
    [reflexivity | discriminate].
Defined.

(** ** The order of the segments in the rebuilt document *)

Lemma flat_map_nil_filled (m : Q) (shots : list Shot) :
  flat_map shot_segments shots = [] -> filled_in_order m shots.
Proof.
  destruct shots as [|shot rest]; simpl; intro H; [exact I|].
  left. apply app_eq_nil in H. tauto.
Qed.

Lemma mids_from_le (m m' : Q) (segs : list Segment) :
  m <= m' -> mids_from m' segs -> mids_from m segs.
Proof.
  destruct segs as [|seg rest]; simpl; [tauto|]. intros H [H1 H2].
  split; [lra | assumption].
Qed.

Lemma attach_first_frames (mid : Q) (seg : Segment) (shots : list Shot) :
  forall l, Hardcut.attach_first mid seg shots = Some l -> frames l = frames shots.
Proof.
  induction shots as [|shot rest IH]; simpl; intros l H; [discriminate|].
  destruct (Hardcut.contains_mid shot mid).
  - injection H as <-. reflexivity.
  - destruct (Hardcut.attach_first mid seg rest) as [l'|]; [|discriminate].
    injection H as <-. simpl. rewrite (IH l' eq_refl). reflexivity.
Qed.

Lemma attach_last_frames (seg : Segment) (shots : list Shot) :
  frames (Hardcut.attach_last seg shots) = frames shots.
Proof.
  induction shots as [|shot rest IH]; [reflexivity|].
  destruct rest as [|next rest]; [reflexivity|].
  change (Hardcut.attach_last seg (shot :: next :: rest))
    with (shot :: Hardcut.attach_last seg (next :: rest)).
  change (frames (shot :: Hardcut.attach_last seg (next :: rest)))
    with ((shot_start shot, shot_end shot)
            :: frames (Hardcut.attach_last seg (next :: rest))).
  rewrite IH. reflexivity.
Qed.

Lemma attach_frames (shots : list Shot) (seg : Segment) :
  frames (Hardcut.attach shots seg) = frames shots.
Proof.
  unfold Hardcut.attach.
  destruct (Hardcut.attach_first _ seg shots) as [l|] eqn:E.
  - eapply attach_first_frames; eassumption.
  - apply attach_last_frames.
Qed.

Lemma attach_all_frames (segs : list Segment) :
  forall shots, frames (Hardcut.attach_all shots segs) = frames shots.
Proof.
  unfold Hardcut.attach_all.
  induction segs as [|seg segs IH]; intros shots; simpl; [reflexivity|].
  rewrite IH. apply attach_frames.
Qed.

Lemma abutting_frames (l : list Shot) :
  forall l', frames l = frames l' -> abutting l -> abutting l'.
Proof.
  induction l as [|a l IH]; intros [|a' l'] H Hab; try discriminate.
  - exact I.
  - injection H as Hs He Hrest. destruct Hab as [Hhead Hab].
    split; [|apply IH; assumption].
    destruct l as [|b l]; destruct l' as [|b' l']; try discriminate; [exact I|].
    injection Hrest as Hs' _ _. congruence.
Qed.

Lemma starts_by_frames (m : Q) (l l' : list Shot) :
  frames l = frames l' -> starts_by m l -> starts_by m l'.
Proof.
  destruct l as [|a l]; destruct l' as [|a' l']; try discriminate; [tauto|].
  intros [= Hs _ _]. simpl. rewrite Hs. tauto.
Qed.

(** The first loop of the attachment on shots that abut: the segment goes
    behind every segment already attached. *)
Lemma attach_first_in_order (seg : Segment) (m : Q) (shots : list Shot) :
  let m' := Hardcut.seg_mid seg in
  m <= m' ->
  abutting shots -> starts_by m' shots -> filled_in_order m shots ->
  match Hardcut.attach_first m' seg shots with
  | Some l =>
      flat_map shot_segments l = flat_map shot_segments shots ++ [seg]
      /\ filled_in_order m' l
  | None =>
      Forall (fun shot => Py.get (shot_end shot) 0 + (1 # 1000000) < m') shots
  end.
Proof.
  intros m' Hm. induction shots as [|shot rest IH]; intros Hab Hst Hfill.
  - simpl. constructor.
  - simpl. destruct (Hardcut.contains_mid shot m') eqn:E.
    + unfold Hardcut.contains_mid in E. apply andb_true_iff in E.
      destruct E as [_ E]. apply leb_true in E.
      assert (Hrest : flat_map shot_segments rest = []).
      { destruct Hfill as [Hfill|[Hfill _]]; [exact Hfill | lra]. }
      simpl. rewrite Hrest, !app_nil_r. split; [reflexivity | left; reflexivity].
    + assert (Hpast : Py.get (shot_end shot) 0 + (1 # 1000000) < m').
      { unfold Hardcut.contains_mid in E. apply andb_false_iff in E.
        simpl in Hst. destruct E as [E|E].
        - apply leb_false in E. lra.
        - apply leb_false in E. exact E. }
      destruct Hab as [Hnext Hab].
      assert (Hst' : starts_by m' rest).
      { destruct rest as [|next rest]; [exact I|]. simpl.
        rewrite <- Hnext. lra. }
      assert (Hfill' : filled_in_order m rest).
      { destruct Hfill as [Hfill|[_ Hfill]];
          [apply flat_map_nil_filled | ]; assumption. }
      specialize (IH Hab Hst' Hfill').
      destruct (Hardcut.attach_first m' seg rest) as [l|]; simpl.
      * destruct IH as [IH1 IH2]. split.
        { rewrite IH1, app_assoc. reflexivity. }
        { right. split; assumption. }
      * constructor; assumption.
Qed.

Lemma attach_last_in_order (seg : Segment) (m' : Q) (shots : list Shot) :
  shots <> [] ->
  Forall (fun shot => Py.get (shot_end shot) 0 + (1 # 1000000) < m') shots ->
  flat_map shot_segments (Hardcut.attach_last seg shots)
  = flat_map shot_segments shots ++ [seg]
  /\ filled_in_order m' (Hardcut.attach_last seg shots).
Proof.
  induction shots as [|shot rest IH]; intros Hne Hall; [congruence|].
  inversion Hall as [|? ? Hshot Hrest]; subst.
  destruct rest as [|next rest].
  - simpl. rewrite !app_nil_r. split; [reflexivity | left; reflexivity].
  - destruct (IH ltac:(discriminate) Hrest) as [IH1 IH2].
    change (Hardcut.attach_last seg (shot :: next :: rest))
      with (shot :: Hardcut.attach_last seg (next :: rest)).
    split.
    + change (flat_map shot_segments (shot :: Hardcut.attach_last seg (next :: rest)))
        with (shot_segments shot
                ++ flat_map shot_segments (Hardcut.attach_last seg (next :: rest))).
      rewrite IH1.
      change (flat_map shot_segments (shot :: next :: rest))
        with (shot_segments shot ++ flat_map shot_segments (next :: rest)).
      rewrite app_assoc. reflexivity.
    + right. split; assumption.
Qed.

Lemma attach_in_order (seg : Segment) (m : Q) (shots : list Shot) :
  shots <> [] ->
  m <= Hardcut.seg_mid seg ->
  abutting shots -> starts_by (Hardcut.seg_mid seg) shots ->
  filled_in_order m shots ->
  flat_map shot_segments (Hardcut.attach shots seg)
  = flat_map shot_segments shots ++ [seg]
  /\ filled_in_order (Hardcut.seg_mid seg) (Hardcut.attach shots seg).
Proof.
  intros Hne Hm Hab Hst Hfill. unfold Hardcut.attach.
  pose proof (attach_first_in_order seg m shots Hm Hab Hst Hfill) as H.
  cbv zeta in H.
  destruct (Hardcut.attach_first (Hardcut.seg_mid seg) seg shots) as [l|].
  - exact H.
  - apply attach_last_in_order; assumption.
Qed.

Lemma attach_all_in_order (segs : list Segment) :
  forall shots m,
    shots <> [] -> abutting shots -> starts_by m shots ->
    filled_in_order m shots -> mids_from m segs ->
    flat_map shot_segments (Hardcut.attach_all shots segs)
    = flat_map shot_segments shots ++ segs.
Proof.
  unfold Hardcut.attach_all.
  induction segs as [|seg segs IH]; intros shots m Hne Hab Hst Hfill Hmids.
  - simpl. rewrite app_nil_r. reflexivity.
  - destruct Hmids as [Hm Hmids]. simpl.
    assert (Hst' : starts_by (Hardcut.seg_mid seg) shots).
    { destruct shots as [|shot rest]; [exact I|]. simpl in *. lra. }
    destruct (attach_in_order seg m shots Hne Hm Hab Hst' Hfill) as [H1 H2].
    pose proof (attach_frames shots seg) as Hfr. symmetry in Hfr.
    rewrite (IH (Hardcut.attach shots seg) (Hardcut.seg_mid seg)).
    + rewrite H1, <- app_assoc. reflexivity.
    + destruct (attach_segments shots seg Hne) as [Hne' _]. exact Hne'.
    + apply (abutting_frames shots); assumption.
    + apply (starts_by_frames _ shots); assumption.
    + exact H2.
    + exact Hmids.
Qed.

Lemma laid_out_mids (lens : list Q) :
  forall t segs,
    laid_out t lens segs -> Forall (fun l => 0 <= l) lens ->
    mids_from (Py.round t 2) segs.
Proof.
  induction lens as [|l lens IH]; intros t [|seg segs] H Hl; simpl in H;
    try contradiction; [exact I|].
  destruct H as (Hs & He & Hrest).
  inversion Hl as [|? ? Hl0 Hl']; subst.
  assert (Hround : Py.round t 2 <= Py.round (t + l) 2)
    by (apply round_mono; lra).
  assert (Hmid : Hardcut.seg_mid seg
                 == (1 # 2) * (Py.round t 2 + Py.round (t + l) 2)).
  { unfold Hardcut.seg_mid. rewrite Hs, He. simpl. reflexivity. }
  split; [lra|].
  apply (mids_from_le _ (Py.round (t + l) 2)); [lra|].
  apply IH; assumption.
Qed.

Lemma remap_segments_laid_out (data : Doc) (hardcut_duration : Q) :
  exists lens,
    Forall (fun l => 0 <= l) lens
    /\ laid_out 0 lens (fst (Hardcut.remap_segments data hardcut_duration)).
Proof.
  destruct (first_pass_timeline data) as (Hlaid & HL & _).
  pose proof (kept_lengths_long (Hardcut.flatten (shots data))) as Hlong.
  pose proof (Forall_lt_le (1 # 100) _ ltac:(lra) Hlong) as Hnonneg.
  rewrite remap_segments_cases.
  destruct (rescales hardcut_duration (snd (first_pass data))) eqn:R.
  - apply rescales_true in R. destruct R as [Hhd HR].
    set (ratio := hardcut_duration / snd (first_pass data)).
    destruct (rescale_loop_laid_out ratio (fst (first_pass data)) 0)
      as (Hlaid2 & _ & _).
    assert (Hratio : 0 <= ratio) by (apply ratio_nonneg; lra).
    destruct (laid_out_timeline _ _ _ Hlaid Hnonneg) as (_ & _ & Hc).
    exists (scaled_lengths ratio (fst (first_pass data))).
    split; [apply scaled_lengths_nonneg; assumption | exact Hlaid2].
  - eexists. split; [exact Hnonneg | exact Hlaid].
Qed.

Lemma rebuild_shots_frame (data : Doc) (keeps : list Interval) (L : Q) :
  abutting (Hardcut.rebuild_shots data keeps L)
  /\ starts_by 0 (Hardcut.rebuild_shots data keeps L).
Proof.
  rewrite rebuild_shots_placed.
  destruct (filter survives _) as [|info infos].
  - split; [simpl; tauto | simpl; lra].
  - split; [apply placed_abutting|].
    simpl. change (Py.round 0 3) with 0. lra.
Qed.

Lemma rebuild_segments_in_order (data : Doc) (keeps : list Interval) (hd : Q) :
  Hardcut._collect_segments (Hardcut.rebuild_json_with_shots data keeps hd)
  = fst (Hardcut.remap_segments data hd).
Proof.
  unfold Hardcut.rebuild_json_with_shots, Hardcut._collect_segments.
  destruct (remap_segments_laid_out data hd) as (lens & Hlens & Hlaid).
  destruct (Hardcut.remap_segments data hd) as [segs L].
  simpl in Hlaid. simpl. rewrite first_shots_enumerate.
  destruct (rebuild_shots_nonempty data keeps L) as [Hne Hnil].
  destruct (rebuild_shots_frame data keeps L) as [Hab Hst].
  pose proof (laid_out_mids _ _ _ Hlaid Hlens) as Hmids.
  change (Py.round 0 2) with 0 in Hmids.
  rewrite (attach_all_in_order segs _ 0 Hne Hab Hst
             (flat_map_nil_filled 0 _ Hnil) Hmids).
  rewrite Hnil. reflexivity.
Qed.

(** X7. In the document rebuilt by [rebuild_json_with_shots], reading the
    shots in order and the segments of each shot in order gives the
    remapped segments in the order of the remapper: the attachment by
    midpoint neither loses, repeats nor reorders a segment.  The recorded
    [num_segments] is their number, and there is at least one shot. *)
Theorem rebuild_keeps_segment_order :
  forall (data : Doc) (keeps : list Interval) (hardcut_duration : Q),
    let new_data := Hardcut.rebuild_json_with_shots data keeps hardcut_duration in
    Hardcut._collect_segments new_data
    = fst (Hardcut.remap_segments data hardcut_duration)
    /\ whisper_num_segments new_data
       = Some (List.length (Hardcut._collect_segments new_data))
    /\ shots new_data <> [].
Proof.
  intros data keeps hd new_data.
  assert (Hseg : Hardcut._collect_segments new_data
                 = fst (Hardcut.remap_segments data hd))
    by (apply rebuild_segments_in_order).
  split; [exact Hseg|]. split.
  - rewrite Hseg. subst new_data. unfold Hardcut.rebuild_json_with_shots.
    destruct (Hardcut.remap_segments data hd) as [segs L]. reflexivity.
  - subst new_data. unfold Hardcut.rebuild_json_with_shots.
    destruct (Hardcut.remap_segments data hd) as [segs L]. simpl.
    destruct (rebuild_shots_nonempty data keeps L) as [Hne _].
    pose proof (attach_all_frames segs (Hardcut.rebuild_shots data keeps L)) as Hfr.
    destruct (Hardcut.attach_all (Hardcut.rebuild_shots data keeps L) segs);
      [|discriminate].
    destruct (Hardcut.rebuild_shots data keeps L); [congruence | discriminate].
Qed.

(** ** What [main] writes *)

(** X8. When [main] writes a document, the keep-set is not empty and the
    post-cut duration, the total length of the keeps, is positive, so the
    rescale of the remapper is never switched off by its test
    [hardcut_duration > 0]; the written [video.duration] and
    [hardcut.total_duration] are both that duration rounded to three
    decimals, [video.orig_duration] is the rounded duration of the input,
    [hardcut.cuts] and [hardcut.keeps] are the rounded cuts and keeps, and
    the segments of the shots are the remapped segments in their order. *)
Theorem main_writes_consistent_document :
  forall (data new_data : Doc),
    Hardcut.main data = Return (Hardcut.MainWritten new_data) ->
    exists cuts keeps,
      Hardcut.compute_cut_and_keep_intervals data
      = Return (cuts, keeps, duration_of data)
      /\ keeps <> []
      /\ let hardcut_duration := snd (Hardcut._compute_offsets keeps) in
         let r3 := fun se : Interval => (Py.round (fst se) 3, Py.round (snd se) 3) in
         0 < hardcut_duration
         /\ hardcut_duration == total keeps
         /\ video_duration (video new_data) = Some (Py.round hardcut_duration 3)
         /\ video_orig_duration (video new_data)
            = Some (Py.round (duration_of data) 3)
         /\ hardcut new_data
            = Some {| hc_cuts := map r3 cuts;
                      hc_keeps := map r3 keeps;
                      hc_total_duration := Py.round hardcut_duration 3 |}
         /\ Hardcut._collect_segments new_data
            = fst (Hardcut.remap_segments data hardcut_duration).
Proof.
  intros data new_data H. unfold Hardcut.main in H.
  destruct (Hardcut.compute_cut_and_keep_intervals data)
    as [[[cuts keeps] D]|e] eqn:HC; simpl in H; [|discriminate].
  destruct (compute_inversion _ _ _ _ HC) as (HD & HD0 & _ & Hkeeps).
  destruct (computed_cuts_form_cut_set _ _ _ _ HC) as (_ & _ & Hcut & _).
  exists cuts, keeps. subst D. split; [reflexivity|].
  destruct keeps as [|k keeps'] eqn:Ek; [discriminate|]. rewrite <- Ek in *.
  assert (Hne : keeps <> []) by (rewrite Ek; discriminate).
  split; [exact Hne|]. cbv zeta.
  set (hd := snd (Hardcut._compute_offsets keeps)) in *.
  assert (Hsum : hd == total keeps).
  { subst hd. unfold Hardcut._compute_offsets.
    destruct (offsets_loop_prefix keeps 0) as (_ & Hs & _). rewrite Hs. lra. }
  assert (Hpos : 0 < hd).
  { rewrite Hsum. rewrite Hkeeps, build_keeps_from.
    destruct (keeps_from_chain _ _ 0 Hcut) as [Hlong _].
    pose proof (total_long _ Hlong) as Ht. pose proof EPS_pos.
    rewrite Hkeeps, build_keeps_from in Hne.
    destruct (keeps_from 0 cuts (duration_of data)) as [|k0 K]; [congruence|].
    rewrite count_cons in Ht. pose proof (count_nonneg K). nra. }
  assert (Hdur : Py.get (video_duration (video data)) hd = duration_of data).
  { unfold duration_of in *. destruct (video_duration (video data)) as [d|].
    - reflexivity.
    - simpl in HD0. lra. }
  injection H as <-.
  pose proof (rebuild_segments_in_order data keeps hd) as Hseg.
  split; [exact Hpos|]. split; [exact Hsum|].
  unfold Hardcut.rebuild_json_with_shots in *.
  destruct (Hardcut.remap_segments data hd) as [segs L].
  simpl. rewrite Hdur. repeat split. exact Hseg.
Qed.

Lemma main_writes_consistent_document_witness :
  let data := doc_of 100 [plain_shot 0 40; plain_shot 40 100] in
  exists new_data,
    Hardcut.main data = Return (Hardcut.MainWritten new_data)
    /\ exists cuts keeps,
         Hardcut.compute_cut_and_keep_intervals data
         = Return (cuts, keeps, duration_of data)
         /\ keeps <> []
         /\ 0 < snd (Hardcut._compute_offsets keeps).
Proof.
  intro data. eexists. split; [vm_compute; reflexivity|].
  edestruct (main_writes_consistent_document data) as (cuts & keeps & H1 & H2 & H3 & _);
    [vm_compute; reflexivity|].
  exists cuts, keeps. repeat split; assumption.
Defined.

(** ** The kept length of a shot *)

Lemma chain_in_order (D : Q) (C : list Interval) :
  forall lo, chain D lo C -> in_order lo C.
Proof.
  induction C as [|[s e] C IH]; simpl; intros lo H; [exact I|].
  destruct H as (H1 & H2 & H3). repeat split; try assumption. apply IH, H3.
Qed.

Lemma overlap_sym (a b : Interval) : overlap a b == overlap b a.
Proof. unfold overlap. py_split; lra. Qed.

Lemma overlap_nonneg (a b : Interval) : 0 <= overlap a b.
Proof. unfold overlap. py_split; lra. Qed.

Lemma counted_overlap_nonneg (a b : Interval) : 0 <= counted_overlap a b.
Proof. unfold counted_overlap. pose proof EPS_pos. cbv zeta. py_split; lra. Qed.

Lemma counted_overlap_sum_nonneg (a : Interval) (l : list Interval) :
  0 <= counted_overlap_sum a l.
Proof.
  induction l as [|b l IH]; simpl; [lra|].
  pose proof (counted_overlap_nonneg a b). lra.
Qed.

(** Against intervals in order, the overlaps of an interval add up to at
    most its length from [lo] on. *)
Lemma overlap_sum_in_order (a : Interval) (l : list Interval) :
  forall lo, in_order lo l ->
    overlap_sum a l <= Py.max 0 (snd a - Py.max (fst a) lo).
Proof.
  induction l as [|[s e] l IH]; intros lo H.
  - simpl. py_split; lra.
  - destruct H as (H1 & H2 & H3). specialize (IH e H3).
    change (overlap_sum a ((s, e) :: l)) with (overlap a (s, e) + overlap_sum a l).
    unfold overlap. simpl fst. simpl snd.
    revert IH. generalize (overlap_sum a l). intros x.
    py_split; intros; lra.
Qed.

Lemma kept_length_le_overlap (s0 e0 : Q) (keeps : list Interval) :
  0 <= Hardcut.kept_length s0 e0 keeps
  /\ Hardcut.kept_length s0 e0 keeps <= overlap_sum (s0, e0) keeps.
Proof.
  pose proof (kept_length_counted s0 e0 keeps) as Hk.
  pose proof (counted_overlap_sum_bounds (s0, e0) keeps).
  pose proof (counted_overlap_sum_nonneg (s0, e0) keeps).
  lra.
Qed.

(** X9. Against a keep-set in order (sorted, without overlap) the kept
    length of a shot is never negative and never more than the length of
    the shot; it is 0 for a shot whose end is not after its start. *)
Theorem kept_length_bounds :
  forall (keeps : list Interval) (lo s0 e0 : Q),
    in_order lo keeps ->
    0 <= Hardcut.kept_length s0 e0 keeps
    /\ Hardcut.kept_length s0 e0 keeps <= Py.max 0 (e0 - s0)
    /\ (e0 <= s0 -> Hardcut.kept_length s0 e0 keeps == 0).
Proof.
  intros keeps lo s0 e0 H.
  destruct (kept_length_le_overlap s0 e0 keeps) as [H0 H1].
  pose proof (overlap_sum_in_order (s0, e0) keeps lo H) as H2.
  simpl in H2.
  assert (H3 : Py.max 0 (e0 - Py.max s0 lo) <= Py.max 0 (e0 - s0))
    by (py_split; lra).
  split; [exact H0|]. split; [lra|].
  intro Hrev. assert (H4 : Py.max 0 (e0 - s0) == 0) by (py_split; lra). lra.
Qed.

Lemma kept_length_bounds_witness :
  0 <= Hardcut.kept_length 10 20 [(0, 5); (15, 100)]
  /\ Hardcut.kept_length 10 20 [(0, 5); (15, 100)] <= Py.max 0 (20 - 10)
  /\ (20 <= 10 -> Hardcut.kept_length 10 20 [(0, 5); (15, 100)] == 0).
Proof.
  apply (kept_length_bounds [(0, 5); (15, 100)] 0 10 20).
  simpl. repeat split; discriminate.
Defined.

(** ** The rebuilt shots and the post-cut duration *)

Lemma Qsum_app (a b : list Q) : Qsum (a ++ b) == Qsum a + Qsum b.
Proof.
  induction a as [|x a IH]; simpl; [lra|]. rewrite IH. lra.
Qed.

Lemma Qsum_nonneg (l : list Q) : Forall (fun x => 0 <= x) l -> 0 <= Qsum l.
Proof.
  induction 1 as [|x l Hx Hl IH]; simpl; lra.
Qed.

Lemma Qsum_le {A : Type} (f g : A -> Q) (l : list A) :
  (forall x, In x l -> f x <= g x) -> Qsum (map f l) <= Qsum (map g l).
Proof.
  induction l as [|x l IH]; simpl; intro H; [lra|].
  pose proof (H x (or_introl eq_refl)).
  assert (Qsum (map f l) <= Qsum (map g l)) by (apply IH; auto). lra.
Qed.

Lemma overlaps_with_spans (k : Interval) (spans : list Interval) :
  Qsum (map (fun sp => overlap sp k) spans) == overlap_sum k spans.
Proof.
  induction spans as [|sp spans IH]; simpl; [lra|].
  rewrite IH, (overlap_sym sp k). lra.
Qed.

Lemma overlap_sums_split (k : Interval) (keeps spans : list Interval) :
  Qsum (map (fun sp => overlap_sum sp (k :: keeps)) spans)
  == Qsum (map (fun sp => overlap sp k) spans)
     + Qsum (map (fun sp => overlap_sum sp keeps) spans).
Proof.
  induction spans as [|sp spans IH]; simpl; [lra|].
  simpl in IH. rewrite IH. lra.
Qed.

(** Spans in order take from keeps in order at most the total length of
    the keeps. *)
Lemma overlap_sums_le_total (spans : list Interval) (lo' : Q) :
  in_order lo' spans ->
  forall keeps lo, in_order lo keeps ->
    Qsum (map (fun sp => overlap_sum sp keeps) spans) <= total keeps.
Proof.
  intros Hspans keeps. induction keeps as [|[s e] keeps IH]; intros lo H.
  - simpl. assert (Hz : Qsum (map (fun _ : Interval => 0) spans) == 0).
    { clear. induction spans as [|sp spans IH]; simpl; lra. }
    rewrite Hz. lra.
  - destruct H as (H1 & H2 & H3). specialize (IH e H3).
    rewrite overlap_sums_split, overlaps_with_spans.
    pose proof (overlap_sum_in_order (s, e) spans lo' Hspans) as Hk.
    simpl in Hk.
    assert (Hm : Py.max 0 (e - Py.max s lo') <= e - s) by (py_split; lra).
    change (total ((s, e) :: keeps)) with (e - s + total keeps). lra.
Qed.

Lemma kept_sum_le_total (shots : list Shot) (keeps : list Interval) (lo lo' : Q) :
  in_order lo keeps -> in_order lo' (map span shots) ->
  Qsum (map (fun shot => Hardcut.info_kept_len (Hardcut.shot_info keeps shot))
            shots)
  <= total keeps.
Proof.
  intros Hk Hs.
  pose proof (overlap_sums_le_total (map span shots) lo' Hs keeps lo Hk) as H.
  rewrite map_map in H.
  assert (Hle : Qsum (map (fun shot =>
                             Hardcut.info_kept_len (Hardcut.shot_info keeps shot))
                          shots)
                <= Qsum (map (fun shot => overlap_sum (span shot) keeps) shots)).
  { apply Qsum_le. intros shot _. simpl.
    apply (proj2 (kept_length_le_overlap _ _ keeps)). }
  lra.
Qed.

Lemma survivors_sum_le (infos : list Hardcut.ShotInfo) :
  Forall (fun info => 0 <= Hardcut.info_kept_len info) infos ->
  Qsum (map Hardcut.info_kept_len (filter survives infos))
  <= Qsum (map Hardcut.info_kept_len infos).
Proof.
  induction 1 as [|info infos Hi Hl IH]; simpl; [lra|].
  destruct (survives info); simpl; lra.
Qed.

(** Every placed shot lies between the cursor and the cursor advanced by
    all the kept lengths. *)
Lemma placed_within (fps : Q) (infos : list Hardcut.ShotInfo) :
  forall cursor,
    Forall (fun info => 0 <= Hardcut.info_kept_len info) infos ->
    forall shot, In shot (placed fps cursor infos) ->
      Py.round cursor 3 <= Py.get (shot_start shot) 0
      /\ Py.get (shot_start shot) 0 <= Py.get (shot_end shot) 0
      /\ Py.get (shot_end shot) 0
         <= Py.round (cursor + Qsum (map Hardcut.info_kept_len infos)) 3.
Proof.
  induction infos as [|info infos IH]; intros cursor Hall shot Hin;
    [destruct Hin|].
  inversion Hall as [|? ? Hi Hall']; subst.
  pose proof (Qsum_nonneg (map Hardcut.info_kept_len infos)) as Hsum.
  rewrite Forall_map in Hsum. specialize (Hsum Hall').
  destruct Hin as [<-|Hin].
  - simpl. repeat split; try lra; apply round_mono; lra.
  - destruct (IH _ Hall' shot Hin) as (H1 & H2 & H3).
    assert (Ha : Py.round cursor 3
                 <= Py.round (cursor + Hardcut.info_kept_len info) 3)
      by (apply round_mono; lra).
    assert (Hb : Py.round (cursor + Hardcut.info_kept_len info
                           + Qsum (map Hardcut.info_kept_len infos)) 3
                 <= Py.round (cursor + Qsum (map Hardcut.info_kept_len
                                               (info :: infos))) 3)
      by (apply round_mono; simpl; lra).
    repeat split; lra.
Qed.

(** X10. The rebuilt shots fit the post-cut duration.  When the original
    shots are in order without overlap, the keeps are in order without
    overlap and at least one shot is kept, every rebuilt shot has
    [0 <= start <= end], and its end is at most the total length of the
    keeps rounded to three decimals, which is the [video.duration] that
    [main] writes. *)
Theorem rebuilt_shots_fit_duration :
  forall (data : Doc) (keeps : list Interval) (logical_duration lo lo' : Q),
    in_order lo keeps ->
    in_order lo' (map span (Hardcut._collect_shots data)) ->
    filter survives
      (map (Hardcut.shot_info keeps) (Hardcut._collect_shots data)) <> [] ->
    forall shot,
      In shot (Hardcut.rebuild_shots data keeps logical_duration) ->
      0 <= Py.get (shot_start shot) 0
      /\ Py.get (shot_start shot) 0 <= Py.get (shot_end shot) 0
      /\ Py.get (shot_end shot) 0 <= Py.round (total keeps) 3.
Proof.
  intros data keeps L lo lo' Hk Hs Hne shot Hin.
  rewrite rebuild_shots_placed in Hin. cbv zeta in Hin.
  set (infos := map (Hardcut.shot_info keeps) (Hardcut._collect_shots data)) in *.
  assert (Hall : Forall (fun info => 0 <= Hardcut.info_kept_len info) infos).
  { subst infos. apply Forall_forall. intros info Hi.
    apply in_map_iff in Hi. destruct Hi as (sh & <- & _). simpl.
    apply (proj1 (kept_length_le_overlap _ _ keeps)). }
  assert (Hall' : Forall (fun info => 0 <= Hardcut.info_kept_len info)
                         (filter survives infos)).
  { apply Forall_forall. intros info Hi. apply filter_In in Hi.
    rewrite Forall_forall in Hall. apply Hall, Hi. }
  destruct (filter survives infos) as [|i0 is0] eqn:E; [congruence|].
  rewrite <- E in *.
  destruct (placed_within _ _ 0 Hall' shot Hin) as (H1 & H2 & H3).
  change (Py.round 0 3) with 0 in H1.
  pose proof (survivors_sum_le infos Hall) as Hsurv.
  pose proof (kept_sum_le_total (Hardcut._collect_shots data) keeps lo lo' Hk Hs)
    as Htot.
  assert (Hmap : Qsum (map Hardcut.info_kept_len infos)
                 == Qsum (map (fun shot => Hardcut.info_kept_len
                                             (Hardcut.shot_info keeps shot))
                              (Hardcut._collect_shots data))).
  { subst infos. rewrite map_map. reflexivity. }
  assert (Hr : Py.round (0 + Qsum (map Hardcut.info_kept_len
                                     (filter survives infos))) 3
               <= Py.round (total keeps) 3) by (apply round_mono; lra).
  repeat split; lra.
Qed.

Lemma rebuilt_shots_fit_duration_witness :
  Forall (fun shot =>
            0 <= Py.get (shot_start shot) 0
            /\ Py.get (shot_start shot) 0 <= Py.get (shot_end shot) 0
            /\ Py.get (shot_end shot) 0 <= Py.round (total [(0, 5); (15, 100)]) 3)
         (Hardcut.rebuild_shots scenario2_doc [(0, 5); (15, 100)] 0).
Proof.
  apply Forall_forall.
  apply (rebuilt_shots_fit_duration scenario2_doc [(0, 5); (15, 100)] 0 0 0).
  - simpl. repeat split; discriminate.
  - simpl. repeat split; discriminate.
  - discriminate.
Defined.

(** ** [_collect_segments_for_group] *)

Lemma segment_entry (seg : Segment) (gs ge : Q) :
  let s := seg_start_of seg in
  let e := seg_end_of seg in
  (if Py.leb e gs || Py.leb ge s then []
   else if Py.leb (Py.min e ge - Py.max s gs) 0 then []
        else [(seg, Py.min e ge - Py.max s gs)])
  = if Py.ltb 0 (Py.min e ge - Py.max s gs)
    then [(seg, Py.min e ge - Py.max s gs)] else [].
Proof.
  intros s e.
  destruct (Py.ltb 0 (Py.min e ge - Py.max s gs)) eqn:E.
  - apply ltb_true in E.
    assert (E1 : Py.leb e gs = false) by (apply leb_false; revert E; py_split; intros; lra).
    assert (E2 : Py.leb ge s = false) by (apply leb_false; revert E; py_split; intros; lra).
    assert (E3 : Py.leb (Py.min e ge - Py.max s gs) 0 = false)
      by (apply leb_false; exact E).
    rewrite E1, E2, E3. reflexivity.
  - apply ltb_false in E. apply leb_true in E. rewrite E.
    destruct (Py.leb e gs || Py.leb ge s); reflexivity.
Qed.

Lemma collect_for_group_eq (shots : list BgmCreate.BgmShot) (gs ge : Q) :
  BgmCreate._collect_segments_for_group shots gs ge
  = flat_map
      (fun seg =>
         if Py.ltb 0 (Py.min (seg_end_of seg) ge - Py.max (seg_start_of seg) gs)
         then [(seg, Py.min (seg_end_of seg) ge - Py.max (seg_start_of seg) gs)]
         else [])
      (speech shots).
Proof.
  unfold BgmCreate._collect_segments_for_group, speech.
  induction shots as [|shot shots IH]; simpl; [reflexivity|].
  rewrite IH, flat_map_app. f_equal.
  apply flat_map_ext. intros seg. apply (segment_entry seg gs ge).
Qed.

(** X11. [_collect_segments_for_group] lists, in the order of the shots
    and of their segments, exactly the segments whose overlap with the
    group, [min(end, g_end) - max(start, g_start)], is positive, each with
    that overlap as weight; a weight is never more than the length of the
    group nor than the length of the segment. *)
Theorem collect_for_group_weights :
  forall (shots : list BgmCreate.BgmShot) (g_start g_end : Q)
         (seg : Segment) (w : Q),
    In (seg, w) (BgmCreate._collect_segments_for_group shots g_start g_end)
    <-> (In seg (speech shots)
         /\ w = Py.min (seg_end_of seg) g_end - Py.max (seg_start_of seg) g_start
         /\ 0 < w
         /\ w <= g_end - g_start
         /\ w <= seg_length seg).
Proof.
  intros shots gs ge seg w. rewrite collect_for_group_eq, in_flat_map.
  unfold seg_length. split.
  - intros (seg' & Hin & Hw).
    destruct (Py.ltb 0 _) eqn:E in Hw; [|destruct Hw].
    destruct Hw as [[= <- <-]|[]]. apply ltb_true in E.
    repeat split; try assumption; revert E; py_split; intros; lra.
  - intros (Hin & Hw & Hpos & _). exists seg. split; [assumption|].
    rewrite <- Hw. apply ltb_true in Hpos. rewrite Hpos. left. reflexivity.
Qed.

Lemma Qsum_ext {A : Type} (f g : A -> Q) (l : list A) :
  (forall x, In x l -> f x == g x) -> Qsum (map f l) == Qsum (map g l).
Proof.
  induction l as [|x l IH]; simpl; intro H; [lra|].
  rewrite (H x (or_introl eq_refl)), IH by auto. lra.
Qed.

Lemma Qsum_plus {A : Type} (f g : A -> Q) (l : list A) :
  Qsum (map (fun x => f x + g x) l) == Qsum (map f l) + Qsum (map g l).
Proof.
  induction l as [|x l IH]; simpl; [lra|]. rewrite IH. lra.
Qed.

Lemma Qsum_zero {A : Type} (l : list A) : Qsum (map (fun _ => 0) l) == 0.
Proof. induction l as [|x l IH]; simpl; lra. Qed.

Lemma Qsum_swap {A B : Type} (f : A -> B -> Q) (xs : list A) (ws : list B) :
  Qsum (map (fun w => Qsum (map (fun x => f x w) xs)) ws)
  == Qsum (map (fun x => Qsum (map (fun w => f x w) ws)) xs).
Proof.
  induction xs as [|x xs IH]; simpl.
  - apply Qsum_zero.
  - rewrite Qsum_plus, IH. reflexivity.
Qed.

Lemma group_weight_by_segment (shots : list BgmCreate.BgmShot) (g : Interval) :
  group_weight shots g == Qsum (map (fun seg => seg_weight seg g) (speech shots)).
Proof.
  unfold group_weight. rewrite collect_for_group_eq.
  induction (speech shots) as [|seg segs IH]; [reflexivity|].
  cbn [flat_map map]. rewrite map_app, Qsum_app, IH.
  change (Qsum (seg_weight seg g
                  :: map (fun seg0 => seg_weight seg0 g) segs))
    with (seg_weight seg g + Qsum (map (fun seg0 => seg_weight seg0 g) segs)).
  generalize (Qsum (map (fun seg0 => seg_weight seg0 g) segs)). intro rest.
  unfold seg_weight.
  destruct (Py.ltb 0 _) eqn:E; cbn [map snd Qsum fold_right].
  - apply ltb_true in E. revert E. py_split; intros; lra.
  - apply ltb_false in E. revert E. py_split; intros; lra.
Qed.

(** Over windows that follow one another from [a] to [b], the weights of a
    segment add up to what of it lies in [[a, b]]. *)
Lemma seg_weight_tiles (seg : Segment) (ws : list Interval) :
  seg_start_of seg <= seg_end_of seg ->
  forall a b, tiles a ws b ->
    Qsum (map (fun w => seg_weight seg w) ws)
    == Py.max 0 (Py.min (seg_end_of seg) b - Py.max (seg_start_of seg) a).
Proof.
  intro Hse. induction ws as [|[gs ge] ws IH]; intros a b H.
  - simpl in *. py_split; lra.
  - destruct H as (H1 & H2 & H3). pose proof (tiles_le _ _ _ H3) as Hle.
    simpl. rewrite (IH ge b H3). unfold seg_weight. simpl.
    py_split; lra.
Qed.

(** X12. Over windows that follow one another from [a] to [b] without gap
    or overlap, and segments that lie in [[a, b]] with [start <= end], the
    weights collected for all the windows add up to the total length of the
    segments: every second of speech is counted once. *)
Theorem group_weights_cover_speech :
  forall (shots : list BgmCreate.BgmShot) (ws : list Interval) (a b : Q),
    tiles a ws b ->
    Forall (fun seg => a <= seg_start_of seg
                       /\ seg_start_of seg <= seg_end_of seg
                       /\ seg_end_of seg <= b) (speech shots) ->
    Qsum (map (group_weight shots) ws) == Qsum (map seg_length (speech shots)).
Proof.
  intros shots ws a b Ht Hsegs.
  rewrite (Qsum_ext _ _ ws (fun w _ => group_weight_by_segment shots w)).
  rewrite (Qsum_swap (fun seg w => seg_weight seg w) (speech shots) ws).
  apply Qsum_ext. intros seg Hin.
  rewrite Forall_forall in Hsegs. destruct (Hsegs seg Hin) as (H1 & H2 & H3).
  rewrite (seg_weight_tiles seg ws H2 a b Ht). unfold seg_length.
  py_split; lra.
Qed.

Lemma group_weights_cover_speech_witness :
  let shots := [ {| BgmCreate.key := "shot_1"; BgmCreate.start := 0;
                    BgmCreate.end_ := 30;
                    BgmCreate.segments := [plain_segment 1 12; plain_segment 14 29] |} ] in
  Qsum (map (group_weight shots) [(0, 10); (10, 30)])
  == Qsum (map seg_length (speech shots)).
Proof.
  intro shots. apply (group_weights_cover_speech shots [(0, 10); (10, 30)] 0 30).
  - simpl. repeat split; discriminate.
  - repeat constructor; discriminate.
Defined.

(** ** More on the greedy windows *)

Lemma groups_loop_length (W : Q) (rest : list BgmCreate.BgmShot) :
  forall cur_start cur_end,
    (List.length (BgmCreate.groups_loop W [] cur_start cur_end rest)
     <= S (List.length rest))%nat.
Proof.
  induction rest as [|shot rest IH]; intros cs ce; simpl; [lia|].
  destruct (Py.ltb _ W).
  - specialize (IH cs (BgmCreate.end_ shot)). lia.
  - rewrite groups_loop_app. simpl.
    specialize (IH (BgmCreate.start shot) (BgmCreate.end_ shot)). lia.
Qed.

Lemma merge_short_tail_long (W a b : Q) (ws : list Interval) :
  ws <> [] -> tiles a ws b -> all_but_last_long W ws ->
  let ws' := BgmCreate.merge_short_tail W ws in
  ws' <> []
  /\ (List.length ws' <= List.length ws)%nat
  /\ (Forall (fun w => W <= len w) ws' \/ exists w, ws' = [w]).
Proof.
  intros Hne Ht Hl. cbv zeta. unfold BgmCreate.merge_short_tail.
  assert (Hws : ws = rev (rev ws)) by (symmetry; apply rev_involutive).
  destruct (rev ws) as [|[ls le] [|[ps pe] before]] eqn:E.
  - simpl in Hws. congruence.
  - simpl in Hws. split; [assumption|]. split; [lia|]. right. eauto.
  - simpl in Hws. rewrite <- app_assoc in Hws. simpl in Hws.
    unfold all_but_last_long in Hl.
    assert (Hfront : Forall (fun w => W <= len w) (rev before ++ [(ps, pe)])).
    { rewrite Hws in Hl.
      change [(ps, pe); (ls, le)] with ([(ps, pe)] ++ [(ls, le)]) in Hl.
      rewrite app_assoc, removelast_last in Hl. exact Hl. }
    py_case.
    + split; [destruct (rev before); discriminate|]. split.
      * rewrite Hws, !length_app. simpl. lia.
      * left. apply Forall_app in Hfront. destruct Hfront as [Hb Hp].
        apply Forall_app. split; [exact Hb|].
        constructor; [|constructor].
        rewrite Hws in Ht. apply tiles_app_inv in Ht.
        destruct Ht as (m & _ & Ht). simpl in Ht.
        destruct Ht as (_ & H2 & H3 & H4 & _).
        inversion Hp as [|? ? Hp0 _]; subst. unfold len in *. simpl in *. lra.
    + split; [assumption|]. split; [lia|]. left.
      rewrite Hws.
      change [(ps, pe); (ls, le)] with ([(ps, pe)] ++ [(ls, le)]).
      rewrite app_assoc. apply Forall_app. split; [exact Hfront|].
      constructor; [unfold len; simpl; lra | constructor].
Qed.

(** X13. The greedy windows, on a non-empty list of shots that come one
    after the other without overlap: there is at least one window and never
    more windows than shots; either there is a single window or every
    window, the last one too, is at least [W] long; and when the whole span
    of the shots is shorter than [W] the single window is that span. *)
Theorem greedy_windows_long_or_single :
  forall (first : BgmCreate.BgmShot) (rest : list BgmCreate.BgmShot) (W : Q),
    in_sequence (BgmCreate.start first) (first :: rest) ->
    let a := BgmCreate.start first in
    let b := final_end a (first :: rest) in
    let ws := BgmCreate._build_bgm_groups (first :: rest) W in
    ws <> []
    /\ (List.length ws <= List.length (first :: rest))%nat
    /\ (Forall (fun w => W <= len w) ws \/ exists w, ws = [w])
    /\ (b - a < W -> exists s e, ws = [(s, e)] /\ s == a /\ e == b).
Proof.
  intros first rest W H a b ws.
  destruct H as (_ & Hse & Hrest).
  destruct (groups_loop_tiles W rest _ _ Hse Hrest) as [Ht Hl].
  pose proof (groups_loop_nonempty W rest (BgmCreate.start first)
                (BgmCreate.end_ first)) as Hne.
  pose proof (groups_loop_length W rest (BgmCreate.start first)
                (BgmCreate.end_ first)) as Hlen.
  destruct (merge_short_tail_long W _ _ _ Hne Ht Hl) as (H1 & H2 & H3).
  destruct (merge_short_tail_tiles W _ _ _ Ht Hl) as [Ht' _].
  change (tiles a ws b) in Ht'.
  change (BgmCreate.merge_short_tail W
            (BgmCreate.groups_loop W [] (BgmCreate.start first)
               (BgmCreate.end_ first) rest)) with ws in H1, H2, H3.
  clearbody ws a b.
  split; [exact H1|]. split; [simpl; simpl in Hlen; lia|]. split; [exact H3|].
  intro Hshort.
  assert (Hsingle : exists w, ws = [w]).
  { destruct H3 as [H3|H3]; [|exact H3]. exfalso.
    destruct ws as [|[s e] ws']; [congruence|].
    inversion H3 as [|? ? Hw _]; subst. destruct Ht' as (Hs & _ & Ht').
    pose proof (tiles_le _ _ _ Ht'). unfold len in Hw. simpl in Hw. lra. }
  destruct Hsingle as ([s e] & Hw). rewrite Hw in Ht'.
  exists s, e. destruct Ht' as (Hs & _ & He). simpl in He.
  repeat split; assumption.
Qed.

Lemma greedy_windows_long_or_single_witness :
  let shots := [bgm_shot 0 5; bgm_shot 5 8; bgm_shot 8 20] in
  let ws := BgmCreate._build_bgm_groups shots 15 in
  ws <> []
  /\ (List.length ws <= List.length shots)%nat
  /\ (Forall (fun w => 15 <= len w) ws \/ exists w, ws = [w])
  /\ (final_end 0 shots - 0 < 15 -> exists s e, ws = [(s, e)] /\ s == 0 /\ e == 20).
Proof.
  intros shots ws.
  apply (greedy_windows_long_or_single (bgm_shot 0 5) [bgm_shot 5 8; bgm_shot 8 20] 15).
  simpl. repeat split; discriminate.
Defined.

(** ** The boundaries of the mixing windows *)

Lemma accept_loop_boundaries (D W : Q) (bs : list Q) :
  forall cur,
    let out := FinalMapping.accept_loop D W [] cur bs in
    (forall w, In w (fst out) ->
       (fst w = cur \/ In (fst w) bs) /\ In (snd w) bs
       /\ W <= len w /\ W <= D - snd w)
    /\ (snd out = cur \/ In (snd out) bs).
Proof.
  induction bs as [|t bs IH]; intros cur; simpl.
  - split; [intros w [] | left; reflexivity].
  - destruct (Py.leb W (t - cur) && Py.leb W (D - t)) eqn:E.
    + apply andb_true_iff in E. destruct E as [E1 E2].
      apply leb_true in E1. apply leb_true in E2.
      rewrite accept_loop_app. simpl. destruct (IH t) as [H1 H2]. split.
      * intros w [<-|Hw].
        { unfold len. simpl. repeat split; auto. }
        { destruct (H1 w Hw) as (Ha & Hb & Hc & Hd).
          repeat split; try assumption; [|right; assumption].
          right. destruct Ha as [Ha|Ha]; [left; symmetry|right]; assumption. }
      * right. destruct H2 as [H2|H2]; [left; symmetry|right]; assumption.
    + destruct (IH cur) as [H1 H2]. split.
      * intros w Hw. destruct (H1 w Hw) as (Ha & Hb & Hc & Hd).
        repeat split; try assumption; [|right; assumption].
        destruct Ha as [Ha|Ha]; [left|right; right]; assumption.
      * destruct H2 as [H2|H2]; [left|right; right]; assumption.
Qed.

(** X14. [compute_bgm_groups] raises exactly when the duration is not
    positive.  In the windows it returns, every window starts at 0 or at the
    start of a shot that lies strictly inside the recording, and ends at the
    duration or at such a start; a window that does not end at the duration
    is at least [min_bgm_sec] long and leaves at least [min_bgm_sec] after
    it. *)
Theorem mixing_window_boundaries :
  forall (data : Doc) (W : Q),
    let D := duration_of data in
    let starts := map (fun s => Py.get (shot_start s) 0)
                      (tl (FinalMapping._collect_shots data)) in
    (D <= 0 <-> exists e, FinalMapping.compute_bgm_groups data W = Raise e)
    /\ forall ws,
         FinalMapping.compute_bgm_groups data W = Return ws ->
         forall w, In w ws ->
           (fst w = 0 \/ (In (fst w) starts /\ 0 < fst w /\ fst w < D))
           /\ (snd w = D
               \/ (In (snd w) starts /\ 0 < snd w /\ snd w < D
                   /\ W <= len w /\ W <= D - snd w)).
Proof.
  intros data W D starts. unfold FinalMapping.compute_bgm_groups.
  fold (duration_of data). fold D. subst starts.
  remember (FinalMapping._collect_shots data) as l eqn:El. clear El.
  set (starts := map (fun s => Py.get (shot_start s) 0) (tl l)).
  assert (Hb : forall t,
             In t (Py.sort (fun t => t) (FinalMapping.boundaries_of l D)) ->
             In t starts /\ 0 < t /\ t < D).
  { intros t Ht. apply sort_In in Ht. unfold FinalMapping.boundaries_of in Ht.
    apply filter_In in Ht. destruct Ht as [Ht Hc].
    apply andb_true_iff in Hc. destruct Hc as [Hc1 Hc2].
    apply ltb_true in Hc1. apply ltb_true in Hc2. tauto. }
  clearbody starts.
  destruct (Py.leb D 0) eqn:E.
  - apply leb_true in E. split; [split; eauto|]. intros ws [=].
  - apply leb_false in E. split.
    { split; [lra|]. intros [e He]. destruct l; [discriminate|].
      destruct (FinalMapping.accept_loop _ _ _ _ _).
      destruct (Py.ltb _ _); discriminate. }
    intros ws Hws w Hw.
    destruct l as [|shot shots].
    { injection Hws as <-. destruct Hw as [<-|[]]. simpl. tauto. }
    set (bs := Py.sort (fun t => t)
                 (FinalMapping.boundaries_of (shot :: shots) D)) in *.
    destruct (accept_loop_boundaries D W bs 0) as [H1 H2].
    assert (Hgroups : forall w0,
              In w0 (fst (FinalMapping.accept_loop D W [] 0 bs)) ->
              (fst w0 = 0 \/ (In (fst w0) starts /\ 0 < fst w0 /\ fst w0 < D))
              /\ (snd w0 = D
                  \/ (In (snd w0) starts /\ 0 < snd w0 /\ snd w0 < D
                      /\ W <= len w0 /\ W <= D - snd w0))).
    { intros w0 Hw0. destruct (H1 w0 Hw0) as (Ha & Hb' & Hc & Hd). split.
      - destruct Ha as [Ha|Ha]; [left; exact Ha | right; apply Hb, Ha].
      - right. destruct (Hb _ Hb') as (? & ? & ?). tauto. }
    clearbody bs. clear H1.
    destruct (FinalMapping.accept_loop D W [] 0 bs) as [groups cur].
    simpl in H2, Hgroups. cbv beta iota zeta in Hws.
    destruct (Py.ltb (1 # 10) (D - cur)); injection Hws as <-.
    + apply in_app_iff in Hw. destruct Hw as [Hw|[<-|[]]].
      * apply Hgroups, Hw.
      * simpl. split; [|left; reflexivity].
        destruct H2 as [H2|H2]; [left; exact H2 | right; apply Hb, H2].
    + apply Hgroups, Hw.
Qed.

Lemma mixing_window_boundaries_witness :
  let data := doc_of 40 [plain_shot 0 5; plain_shot 5 20; plain_shot 20 40] in
  Forall (fun w =>
    (fst w = 0
     \/ (In (fst w) (map (fun s => Py.get (shot_start s) 0)
                         (tl (FinalMapping._collect_shots data)))
         /\ 0 < fst w /\ fst w < duration_of data))
    /\ (snd w = duration_of data
        \/ (In (snd w) (map (fun s => Py.get (shot_start s) 0)
                            (tl (FinalMapping._collect_shots data)))
            /\ 0 < snd w /\ snd w < duration_of data
            /\ 15 <= len w /\ 15 <= duration_of data - snd w)))
    [(0, 20); (20, 40)].
Proof.
  intro data. apply Forall_forall.
  apply (proj2 (mixing_window_boundaries data 15) [(0, 20); (20, 40)]).
  reflexivity.
Defined.

(** ** From the rebuilt document to the windows of [bgm_create] *)

Lemma offset_after_nonneg (lens : list Q) :
  Forall (fun l => 0 <= l) lens -> 0 <= offset_after 0 lens.
Proof.
  intro H. rewrite offset_after_sum. pose proof (Qsum_nonneg lens H). lra.
Qed.

Lemma remap_logical_nonneg (data : Doc) (hardcut_duration : Q) :
  0 <= snd (Hardcut.remap_segments data hardcut_duration).
Proof.
  destruct (first_pass_timeline data) as (Hlaid & HL & _).
  pose proof (kept_lengths_long (Hardcut.flatten (shots data))) as Hlong.
  pose proof (Forall_lt_le (1 # 100) _ ltac:(lra) Hlong) as Hnonneg.
  rewrite remap_segments_cases.
  destruct (rescales hardcut_duration (snd (first_pass data))) eqn:R.
  - apply rescales_true in R. destruct R as [Hhd HR].
    set (ratio := hardcut_duration / snd (first_pass data)).
    destruct (rescale_loop_laid_out ratio (fst (first_pass data)) 0)
      as (_ & Hsnd & _).
    assert (Hratio : 0 <= ratio) by (apply ratio_nonneg; lra).
    destruct (laid_out_timeline _ _ _ Hlaid Hnonneg) as (_ & _ & Hc).
    rewrite Hsnd. apply offset_after_nonneg.
    apply scaled_lengths_nonneg; assumption.
  - rewrite HL. apply offset_after_nonneg. exact Hnonneg.
Qed.

Lemma placed_in_order (fps : Q) (infos : list Hardcut.ShotInfo) :
  forall cursor,
    Forall (fun info => 0 <= Hardcut.info_kept_len info) infos ->
    in_order (Py.round cursor 3) (map span (placed fps cursor infos)).
Proof.
  induction infos as [|info infos IH]; intros cursor Hall; [exact I|].
  inversion Hall as [|? ? Hi Hall']; subst. simpl.
  repeat split; [lra | apply round_mono; lra | apply IH; assumption].
Qed.

Lemma rebuild_shots_in_order (data : Doc) (keeps : list Interval) (L : Q) :
  0 <= L ->
  in_order 0 (map span (Hardcut.rebuild_shots data keeps L))
  /\ match Hardcut.rebuild_shots data keeps L with
     | [] => False
     | shot :: _ => Py.get (shot_start shot) 0 == 0
     end.
Proof.
  intro HL. rewrite rebuild_shots_placed. cbv zeta.
  set (infos := map (Hardcut.shot_info keeps) (Hardcut._collect_shots data)).
  assert (Hall : Forall (fun info => 0 <= Hardcut.info_kept_len info)
                        (filter survives infos)).
  { apply Forall_forall. intros info Hi. apply filter_In in Hi.
    destruct Hi as [Hi _]. subst infos. apply in_map_iff in Hi.
    destruct Hi as (sh & <- & _). simpl.
    apply (proj1 (kept_length_le_overlap _ _ keeps)). }
  destruct (filter survives infos) as [|info rest] eqn:E.
  - split; [|simpl; lra]. simpl. repeat split; try lra.
    change 0 with (Py.round 0 3) at 1. apply round_mono. exact HL.
  - split.
    + change 0 with (Py.round 0 3) at 1. apply placed_in_order. exact Hall.
    + simpl. reflexivity.
Qed.

Lemma spans_of_frames (l l' : list Shot) :
  frames l = frames l' -> map span l = map span l'.
Proof.
  revert l'. induction l as [|a l IH]; intros [|a' l'] H; try discriminate;
    [reflexivity|].
  injection H as Hs He Hrest. simpl. unfold span at 1 3.
  rewrite Hs, He, (IH l' Hrest). reflexivity.
Qed.

Lemma extract_enumerate_spans (l : list Shot) :
  forall idx,
    map bgm_span (BgmCreate.extract_entries (Hardcut.enumerate_shots idx l))
    = map span l.
Proof.
  induction l as [|shot l IH]; intros idx; simpl; [reflexivity|].
  rewrite IH. reflexivity.
Qed.

Lemma in_sequence_in_order (shots : list BgmCreate.BgmShot) :
  forall lo, in_sequence lo shots <-> in_order lo (map bgm_span shots).
Proof.
  induction shots as [|shot shots IH]; intros lo; simpl; [tauto|].
  rewrite IH. tauto.
Qed.

Lemma in_sequence_ascending (shots : list BgmCreate.BgmShot) :
  forall lo, in_sequence lo shots -> ascending BgmCreate.start shots.
Proof.
  induction shots as [|shot shots IH]; intros lo H; simpl; [exact I|].
  destruct H as (H1 & H2 & H3). split; [|eapply IH; eassumption].
  destruct shots as [|next shots]; [exact I|].
  destruct H3 as (H3 & _). lra.
Qed.

(** X15. The document rebuilt by [rebuild_json_with_shots] always meets
    what the greedy partitioner needs: [_extract_shots] gives at least one
    shot, the first one starting at 0, each shot starting where the one
    before it ends; so the windows of [_build_bgm_groups] follow one another
    from 0 to the end of the last shot without gap or overlap, each but the
    last at least [min_window] long. *)
Theorem rebuilt_document_windows :
  forall (data : Doc) (keeps : list Interval) (hardcut_duration W : Q),
    let new_data := Hardcut.rebuild_json_with_shots data keeps hardcut_duration in
    let entries := BgmCreate._extract_shots new_data in
    entries <> []
    /\ in_sequence 0 entries
    /\ greedy_partition entries W 0 (final_end 0 entries).
Proof.
  intros data keeps hd W new_data entries.
  assert (Hspans : exists l,
             l <> [] /\ in_order 0 (map span l)
             /\ match l with
                | [] => False
                | shot :: _ => Py.get (shot_start shot) 0 == 0
                end
             /\ map bgm_span (BgmCreate.extract_entries (shots new_data))
                = map span l).
  { subst new_data. unfold Hardcut.rebuild_json_with_shots.
    pose proof (remap_logical_nonneg data hd) as HL.
    destruct (Hardcut.remap_segments data hd) as [segs L]. simpl in HL.
    destruct (rebuild_shots_in_order data keeps L HL) as [Hord Hfirst].
    destruct (rebuild_shots_nonempty data keeps L) as [Hne _].
    exists (Hardcut.rebuild_shots data keeps L).
    repeat split; try assumption.
    simpl. rewrite extract_enumerate_spans.
    apply spans_of_frames, attach_all_frames. }
  destruct Hspans as (l & Hne & Hord & Hfirst & Hmap).
  assert (Hseq : in_sequence 0 (BgmCreate.extract_entries (shots new_data))).
  { apply in_sequence_in_order. rewrite Hmap. exact Hord. }
  assert (Hsorted : entries = BgmCreate.extract_entries (shots new_data)).
  { subst entries. unfold BgmCreate._extract_shots.
    apply sort_of_ascending. eapply in_sequence_ascending. exact Hseq. }
  rewrite Hsorted. clear Hsorted entries.
  destruct (BgmCreate.extract_entries (shots new_data)) as [|first rest].
  { destruct l; [congruence | discriminate]. }
  split; [discriminate|]. split; [exact Hseq|].
  assert (H0 : BgmCreate.start first == 0).
  { destruct l as [|shot l]; [contradiction|]. simpl in Hmap.
    injection Hmap as Hs _ _. rewrite Hs. exact Hfirst. }
  assert (Hseq' : in_sequence (BgmCreate.start first) (first :: rest)).
  { destruct Hseq as (_ & H2 & H3). simpl. repeat split; try assumption. lra. }
  destruct (greedy_windows first rest W Hseq') as [Ht Hl].
  split; [|exact Hl]. apply (tiles_start (BgmCreate.start first)); assumption.
Qed.

(** ** The contract of the interval merger *)

Lemma insert_perm {A : Type} (key : A -> Q) (x : A) (l : list A) :
  Permutation (Py.insert key x l) (x :: l).
Proof.
  induction l as [|y l IH]; simpl; [apply Permutation_refl|].
  destruct (Py.leb (key x) (key y)); [apply Permutation_refl|].
  eapply Permutation_trans; [apply perm_skip, IH | apply perm_swap].
Qed.

Lemma sort_perm {A : Type} (key : A -> Q) (l : list A) :
  Permutation (Py.sort key l) l.
Proof.
  unfold Py.sort. induction l as [|x l IH]; simpl; [apply Permutation_refl|].
  eapply Permutation_trans; [apply insert_perm | apply perm_skip, IH].
Qed.

Lemma total_perm (l l' : list Interval) :
  Permutation l l' -> total l == total l'.
Proof.
  induction 1; simpl; lra.
Qed.

Lemma count_perm (l l' : list Interval) :
  Permutation l l' -> count l = count l'.
Proof.
  intro H. unfold count. rewrite (Permutation_length H). reflexivity.
Qed.

(** Each interval absorbed by the sweep lengthens the result by at most
    its own length and [EPS]. *)
Lemma sweep_total (rest : list Interval) :
  forall cur_s cur_e,
    Forall long rest ->
    let out := Hardcut.sweep [] cur_s cur_e rest in
    total out + Hardcut.EPS * count out
    <= (cur_e - cur_s) + total rest + Hardcut.EPS * (count rest + 1).
Proof.
  pose proof EPS_pos as Heps.
  induction rest as [|[s e] rest IH]; intros cs ce Hl; cbv zeta.
  - simpl. change (count []) with 0. rewrite count_cons.
    change (count []) with 0. unfold len. simpl. lra.
  - inversion Hl as [|? ? Hse Hl']; subst. unfold long, len in Hse.
    simpl in Hse. rewrite count_cons.
    change (total ((s, e) :: rest)) with (e - s + total rest).
    destruct (Qlt_le_dec (ce + Hardcut.EPS) s) as [Hgap|Hnear].
    + rewrite sweep_emit by assumption. rewrite count_cons.
      change (total ((cs, ce) :: Hardcut.sweep [] s e rest))
        with (ce - cs + total (Hardcut.sweep [] s e rest)).
      specialize (IH s e Hl'). cbv zeta in IH. lra.
    + rewrite sweep_absorb by assumption.
      specialize (IH cs (Py.max ce e) Hl'). cbv zeta in IH.
      assert (Hm : Py.max ce e - ce <= e - s + Hardcut.EPS)
        by (py_split; lra).
      lra.
Qed.

(** X16. The contract of [_merge_intervals] where it returns.  On an
    input that holds a pair longer than [EPS] the merger returns a list
    [M]: every interval of [M] is longer than [EPS] and starts more than
    [EPS] after the end of the one before it; every kept pair, put in order
    [(min, max)], lies within an interval of [M]; every bound of [M] is a
    bound of a kept pair; and [M] is no longer than the kept pairs together
    plus [EPS] for each pair merged into another.  On a non-empty input
    without such a pair it raises [IndexError]. *)
Theorem merge_intervals_contract :
  forall (S : list Interval),
    (Exists (fun ab => Hardcut.EPS < Py.abs (snd ab - fst ab)) S ->
     exists M,
       Hardcut._merge_intervals S = Return M
       /\ M <> []
       /\ separated M
       /\ (forall i, In i (Hardcut.normalize S) ->
             exists o, In o M /\ within i o)
       /\ (forall o, In o M ->
             In (fst o) (map fst (Hardcut.normalize S))
             /\ In (snd o) (map snd (Hardcut.normalize S)))
       /\ total M
          <= total (Hardcut.normalize S)
             + Hardcut.EPS * (count (Hardcut.normalize S) - count M))
    /\ (S <> [] ->
        Forall (fun ab => Py.abs (snd ab - fst ab) <= Hardcut.EPS) S ->
        Hardcut._merge_intervals S
        = Raise (IndexError "list index out of range")).
Proof.
  intro S. split; [|apply merge_raises].
  intro Hex. destruct (merge_returns S Hex) as [M HM]. exists M.
  destruct (merge_contract S M HM) as (Hsep & Hcover & Hbound).
  split; [exact HM|].
  assert (Hne : M <> []).
  { apply Exists_exists in Hex. destruct Hex as (ab & Hin & Hab).
    assert (Hn : In (Py.min (fst ab) (snd ab), Py.max (fst ab) (snd ab))
                    (Hardcut.normalize S)).
    { unfold Hardcut.normalize.
      apply (in_map (fun ab => (Py.min (fst ab) (snd ab),
                                Py.max (fst ab) (snd ab)))).
      apply filter_In. split; [assumption | apply ltb_true; assumption]. }
    destruct (Hcover _ Hn) as (o & Ho & _). intro HMnil. rewrite HMnil in Ho.
    destruct Ho. }
  repeat split; try assumption.
  - apply Hbound. assumption.
  - apply Hbound. assumption.
  - unfold Hardcut._merge_intervals in HM. destruct S as [|i0 S];
      [injection HM as <-; congruence|].
    pose proof (sort_perm fst (Hardcut.normalize (i0 :: S))) as Hperm.
    pose proof (sort_Forall fst long _ (normalize_long (i0 :: S))) as Hlong.
    destruct (Py.sort fst (Hardcut.normalize (i0 :: S))) as [|[s e] rest];
      [discriminate|].
    injection HM as <-. inversion Hlong as [|? ? _ Hrest]; subst.
    pose proof (sweep_total rest s e Hrest) as Hsweep. cbv zeta in Hsweep.
    rewrite <- (total_perm _ _ Hperm), <- (count_perm _ _ Hperm).
    rewrite count_cons.
    change (total ((s, e) :: rest)) with (e - s + total rest). lra.
Qed.

Lemma merge_intervals_contract_witness :
  exists M,
    Hardcut._merge_intervals [(0, 2); (3, 1); (50, 101 # 2); (7, 7)] = Return M
    /\ M <> [] /\ separated M.
Proof.
  destruct (proj1 (merge_intervals_contract [(0, 2); (3, 1); (50, 101 # 2); (7, 7)]))
    as (M & H1 & H2 & H3 & _).
  - apply Exists_cons_hd. reflexivity.
  - exists M. repeat split; assumption.
Defined.

(** ** How far the rescale brings the timeline *)

(** X17. For a positive post-cut duration the logical duration returned by
    the remapper is less than 5 ms above it, rescaled or not; after a
    rescale it is also less than 5 ms below it. *)
Theorem remapped_timeline_fits :
  forall (data : Doc) (hardcut_duration : Q),
    0 < hardcut_duration ->
    let logical_duration := snd (Hardcut.remap_segments data hardcut_duration) in
    logical_duration < hardcut_duration + (5 # 1000)
    /\ (rescales hardcut_duration (snd (first_pass data)) = true ->
        hardcut_duration - (5 # 1000) < logical_duration).
Proof.
  intros data hd Hhd. cbv zeta. rewrite remap_segments_cases.
  destruct (rescales hd (snd (first_pass data))) eqn:R.
  - apply rescales_true in R. destruct R as [_ HL].
    set (L := snd (first_pass data)) in *.
    pose proof (rescaled_total data (hd / L)) as Htot. fold L in Htot.
    pose proof (round2_close L) as Hr.
    assert (HrL : hd / L * L == hd).
    { rewrite Qmult_comm. apply Qmult_div_r. lra. }
    assert (Hr0 : 0 <= hd / L) by (apply ratio_nonneg; lra).
    assert (Hr1 : hd / L <= 1).
    { apply Qle_shift_div_r; lra. }
    set (r := hd / L) in *. clearbody r.
    set (R := Py.round L 2) in *. clearbody R.
    set (out := snd (Hardcut.rescale_loop r [] 0 (fst (first_pass data)))) in *.
    clearbody out. split; [|intros _]; nra.
  - apply rescales_false in R. split; [|discriminate].
    destruct R as [R|R]; lra.
Qed.

Lemma remapped_timeline_fits_witness :
  let data := one_shot_doc [plain_segment 0 50; plain_segment 60 130] in
  snd (Hardcut.remap_segments data 100) < 100 + (5 # 1000)
  /\ (rescales 100 (snd (first_pass data)) = true ->
      100 - (5 # 1000) < snd (Hardcut.remap_segments data 100)).
Proof.
  intro data. apply (remapped_timeline_fits data 100). reflexivity.
Defined.

(** ** The two window builders on the same document *)

Lemma sort_map {A B : Type} (f : A -> B) (kA : A -> Q) (kB : B -> Q) :
  (forall x, kB (f x) = kA x) ->
  forall l, map f (Py.sort kA l) = Py.sort kB (map f l).
Proof.
  intros Hk. unfold Py.sort.
  assert (Hins : forall x l,
             map f (Py.insert kA x l) = Py.insert kB (f x) (map f l)).
  { intros x l. induction l as [|y l IH]; simpl; [reflexivity|].
    rewrite !Hk. destruct (Py.leb (kA x) (kA y)); simpl; [reflexivity|].
    rewrite IH. reflexivity. }
  induction l as [|x l IH]; simpl; [reflexivity|].
  rewrite Hins, IH. reflexivity.
Qed.

Lemma extract_first_spans (d : list (string * list Shot)) :
  map bgm_span (BgmCreate.extract_entries d) = map span (Hardcut.first_shots d).
Proof.
  induction d as [|[k [|shot l]] d IH]; simpl; [reflexivity | exact IH |].
  rewrite IH. reflexivity.
Qed.

(** Both modules read the same shots in the same order. *)
Lemma extract_collect_spans (data : Doc) :
  map bgm_span (BgmCreate._extract_shots data)
  = map span (FinalMapping._collect_shots data).
Proof.
  unfold BgmCreate._extract_shots, FinalMapping._collect_shots.
  rewrite (sort_map bgm_span BgmCreate.start fst) by reflexivity.
  rewrite (sort_map span (fun s => Py.get (shot_start s) 0) fst) by reflexivity.
  rewrite extract_first_spans. reflexivity.
Qed.

Lemma rising_le (l : list Q) :
  forall lo lo', lo' <= lo -> rising lo l -> rising lo' l.
Proof.
  destruct l as [|t l]; simpl; intros lo lo' Hle H; [exact I|].
  split; [lra | tauto].
Qed.

Lemma rising_filter (p : Q -> bool) (l : list Q) :
  forall lo, rising lo l -> rising lo (filter p l).
Proof.
  induction l as [|t l IH]; simpl; intros lo H; [exact I|].
  destruct H as [H1 H2]. destruct (p t); simpl.
  - split; [exact H1 | apply IH, H2].
  - apply IH. eapply rising_le; eassumption.
Qed.

Lemma rising_ascending (l : list Q) :
  forall lo, rising lo l -> ascending (fun t => t) l.
Proof.
  induction l as [|t l IH]; simpl; intros lo H; [exact I|].
  destruct H as [_ H]. split; [|eapply IH; eassumption].
  destruct l as [|u l]; [exact I|]. simpl in H. tauto.
Qed.

Lemma joined_rising (shots : list BgmCreate.BgmShot) (D : Q) :
  forall from, joined from shots D -> rising from (map BgmCreate.start shots).
Proof.
  induction shots as [|shot shots IH]; simpl; intros from H; [exact I|].
  destruct H as (H1 & H2 & H3). split; [lra|].
  eapply rising_le; [exact H2 | apply IH, H3].
Qed.

Lemma joined_le (shots : list BgmCreate.BgmShot) (D : Q) :
  forall from, joined from shots D -> from <= D.
Proof.
  induction shots as [|shot shots IH]; simpl; intros from H; [lra|].
  destruct H as (H1 & H2 & H3). specialize (IH _ H3). lra.
Qed.

(** The boundaries dropped by the filter of [compute_bgm_groups] would not
    be accepted by its loop. *)
Lemma accept_loop_filter (D W : Q) (bs : list Q) :
  0 < W ->
  forall groups cur,
    0 <= cur ->
    FinalMapping.accept_loop D W groups cur
      (filter (fun t => Py.ltb 0 t && Py.ltb t D) bs)
    = FinalMapping.accept_loop D W groups cur bs.
Proof.
  intros HW. induction bs as [|t bs IH]; intros groups cur Hcur; simpl;
    [reflexivity|].
  destruct (Py.ltb 0 t && Py.ltb t D) eqn:P.
  - apply andb_true_iff in P. destruct P as [P1 P2]. apply ltb_true in P1.
    simpl. destruct (Py.leb W (t - cur) && Py.leb W (D - t));
      apply IH; lra.
  - assert (Hrej : Py.leb W (t - cur) && Py.leb W (D - t) = false).
    { apply andb_false_iff. apply andb_false_iff in P.
      destruct P as [P|P]; apply ltb_false in P;
        [left | right]; apply leb_false; lra. }
    rewrite Hrej. apply IH, Hcur.
Qed.

(** Once a window is closed less than [W] before the end, the greedy loop
    closes no other window and the acceptance loop accepts no boundary. *)
Lemma groups_loop_stuck (D W : Q) (rest : list BgmCreate.BgmShot) :
  forall cur_start cur_end,
    joined cur_end rest D -> cur_start <= cur_end -> D - cur_start < W ->
    exists x,
      BgmCreate.groups_loop W [] cur_start cur_end rest = [(cur_start, x)]
      /\ x == D.
Proof.
  induction rest as [|shot rest IH]; intros cs ce Hj Hle Hshort; simpl.
  - exists ce. split; [reflexivity | exact Hj].
  - destruct Hj as (H1 & H2 & H3). pose proof (joined_le _ _ _ H3) as HD.
    assert (Hlt : Py.ltb ((if Py.ltb ce (BgmCreate.start shot)
                           then BgmCreate.start shot else ce) - cs) W = true).
    { apply ltb_true. py_split; lra. }
    rewrite Hlt. apply IH; [exact H3 | lra | exact Hshort].
Qed.

Lemma accept_loop_stuck (D W : Q) (rest : list BgmCreate.BgmShot) :
  forall from cur,
    joined from rest D -> D - from < W ->
    FinalMapping.accept_loop D W [] cur (map BgmCreate.start rest) = ([], cur).
Proof.
  induction rest as [|shot rest IH]; intros from cur Hj Hshort; simpl;
    [reflexivity|].
  destruct Hj as (H1 & H2 & H3).
  assert (Hrej : Py.leb W (BgmCreate.start shot - cur)
                 && Py.leb W (D - BgmCreate.start shot) = false).
  { apply andb_false_iff. right. apply leb_false. lra. }
  rewrite Hrej. apply (IH (BgmCreate.end_ shot)); [exact H3 | lra].
Qed.

(** The two loops side by side, on shots that cover the timeline up to
    [D]: either they close the same windows, or the greedy loop closes one
    more, less than [W] before the end. *)
Lemma loops_side_by_side (D W : Q) (rest : list BgmCreate.BgmShot) :
  forall cs ce cs',
    joined ce rest D -> cs == cs' -> cs <= ce ->
    let G := BgmCreate.groups_loop W [] cs ce rest in
    let A := fst (FinalMapping.accept_loop D W [] cs' (map BgmCreate.start rest)) in
    let c := snd (FinalMapping.accept_loop D W [] cs' (map BgmCreate.start rest)) in
    (same_windows G (A ++ [(c, D)])
     /\ (W <= D - c \/ (A = [] /\ c = cs')))
    \/ (exists t,
          same_windows G (A ++ [(c, t); (t, D)])
          /\ D - t < W /\ W <= t - c /\ t <= D).
Proof.
  induction rest as [|shot rest IH]; intros cs ce cs' Hj Hcs Hle; cbv zeta.
  - simpl in *. left. split; [|right; split; reflexivity].
    constructor; [simpl; split; assumption | constructor].
  - destruct Hj as (H1 & H2 & H3). pose proof (joined_le _ _ _ H3) as HD.
    cbn [map BgmCreate.groups_loop FinalMapping.accept_loop]. cbv zeta.
    set (ce' := if Py.ltb ce (BgmCreate.start shot)
                then BgmCreate.start shot else ce).
    assert (Hce' : ce' == BgmCreate.start shot) by (subst ce'; py_split; lra).
    clearbody ce'.
    destruct (Py.ltb (ce' - cs) W) eqn:E.
    + apply ltb_true in E.
      assert (Hrej : Py.leb W (BgmCreate.start shot - cs')
                     && Py.leb W (D - BgmCreate.start shot) = false).
      { apply andb_false_iff. left. apply leb_false. lra. }
      rewrite Hrej. apply IH; [exact H3 | exact Hcs | lra].
    + apply ltb_false in E. rewrite groups_loop_app.
      destruct (Qlt_le_dec (D - BgmCreate.start shot) W) as [B|B].
      2: { assert (Hacc : Py.leb W (BgmCreate.start shot - cs')
                       && Py.leb W (D - BgmCreate.start shot) = true).
        { apply andb_true_iff. split; apply leb_true; lra. }
        rewrite Hacc. rewrite accept_loop_app.
        cbn [fst snd app].
        specialize (IH (BgmCreate.start shot) (BgmCreate.end_ shot)
                       (BgmCreate.start shot) H3 (Qeq_refl _) H2).
        cbv zeta in IH.
        destruct IH as [[Hs Hc]|(t & Hs & Ht)].
        -- left. split.
           ++ constructor; [simpl; split; lra | exact Hs].
           ++ left. destruct Hc as [Hc|[_ Hc]]; [exact Hc | rewrite Hc; exact B].
        -- right. exists t. split; [|exact Ht].
           constructor; [simpl; split; lra | exact Hs]. }
      { assert (Hrej : Py.leb W (BgmCreate.start shot - cs')
                       && Py.leb W (D - BgmCreate.start shot) = false).
        { apply andb_false_iff. right. apply leb_false. exact B. }
        rewrite Hrej.
        destruct (groups_loop_stuck D W rest (BgmCreate.start shot)
                    (BgmCreate.end_ shot) H3 H2 B) as (x & Hx & HxD).
        rewrite Hx.
        rewrite (accept_loop_stuck D W rest (BgmCreate.end_ shot) cs' H3)
          by lra.
        right. exists (BgmCreate.start shot). cbn [fst snd app].
        split; [|repeat split; lra].
        constructor; [simpl; split; lra|].
        constructor; [simpl; split; [reflexivity | exact HxD] | constructor]. }
Qed.

Lemma last_or_nil {A : Type} (l : list A) :
  l = [] \/ exists l' a, l = l' ++ [a].
Proof.
  induction l using rev_ind; [left; reflexivity | right; eauto].
Qed.

Lemma merge_short_tail_single (W : Q) (x : Interval) :
  BgmCreate.merge_short_tail W [x] = [x].
Proof.
  destruct x. reflexivity.
Qed.

Lemma merge_short_tail_snoc (W : Q) (g : list Interval) (p x : Interval) :
  BgmCreate.merge_short_tail W (g ++ [p; x])
  = if Py.ltb (snd x - fst x) W then g ++ [(fst p, snd x)] else g ++ [p; x].
Proof.
  unfold BgmCreate.merge_short_tail. rewrite rev_app_distr.
  destruct p as [ps pe], x as [xs xe]. simpl. rewrite rev_involutive.
  reflexivity.
Qed.

(** The same for the results: the merge of the short last window brings the
    greedy windows to those of the acceptance loop. *)
Lemma builders_agree (D W : Q) (first : BgmCreate.BgmShot)
  (rest : list BgmCreate.BgmShot) :
  (1 # 10) < W -> (1 # 10) < D ->
  joined 0 (first :: rest) D ->
  let A := fst (FinalMapping.accept_loop D W [] 0 (map BgmCreate.start rest)) in
  let c := snd (FinalMapping.accept_loop D W [] 0 (map BgmCreate.start rest)) in
  (1 # 10) < D - c
  /\ same_windows (BgmCreate._build_bgm_groups (first :: rest) W)
                  (A ++ [(c, D)]).
Proof.
  intros HW HD (H1 & H2 & H3) A c. unfold BgmCreate._build_bgm_groups.
  destruct (loops_side_by_side D W rest (BgmCreate.start first)
              (BgmCreate.end_ first) 0 H3 H1 H2) as [[Hs Hc]|(t & Hs & Ht)];
    cbv zeta in *; fold A in Hs |- *; fold c in Hs |- *.
  - fold A c in Hc.
    split; [destruct Hc as [Hc|[_ Hc]]; [lra | rewrite Hc; lra]|].
    apply Forall2_app_inv_r in Hs.
    destruct Hs as (G1 & G2 & HG1 & HG2 & ->).
    inversion HG2 as [|x ? G3 ? Hx HG3]; subst. inversion HG3; subst.
    destruct (last_or_nil G1) as [->|(G0 & p & ->)].
    + inversion HG1 as [HA|]. simpl app.
      rewrite merge_short_tail_single. constructor; [exact Hx | constructor].
    + rewrite <- app_assoc. cbn [app]. rewrite merge_short_tail_snoc.
      assert (Hlong : Py.ltb (snd x - fst x) W = false).
      { apply ltb_false. simpl in Hx. destruct Hc as [Hc|[Hc _]]; [lra|].
        rewrite Hc in HG1. apply Forall2_length in HG1.
        rewrite length_app in HG1. simpl in HG1. lia. }
      rewrite Hlong.
      change (G0 ++ [p; x]) with (G0 ++ [p] ++ [x]). rewrite app_assoc.
      apply Forall2_app; [exact HG1|]. constructor; [exact Hx | constructor].
  - fold c in Ht. split; [lra|].
    apply Forall2_app_inv_r in Hs.
    destruct Hs as (G1 & G2 & HG1 & HG2 & ->).
    inversion HG2 as [|p ? G3 ? Hp HG3]; subst.
    inversion HG3 as [|x ? G4 ? Hx HG4]; subst. inversion HG4; subst.
    rewrite merge_short_tail_snoc. simpl in Hp, Hx.
    assert (Hshort : Py.ltb (snd x - fst x) W = true) by (apply ltb_true; lra).
    rewrite Hshort. apply Forall2_app; [exact HG1|].
    constructor; [simpl; split; lra | constructor].
Qed.

(** What [compute_bgm_groups] returns on a document whose shots cover the
    timeline: the boundaries are the starts of the shots after the first,
    in their order. *)
Lemma compute_on_joined (data : Doc) (W : Q) (first : BgmCreate.BgmShot)
  (rest : list BgmCreate.BgmShot) :
  0 < W -> 0 < duration_of data ->
  BgmCreate._extract_shots data = first :: rest ->
  joined 0 (first :: rest) (duration_of data) ->
  FinalMapping.compute_bgm_groups data W
  = let (groups, cur_start) :=
      FinalMapping.accept_loop (duration_of data) W [] 0
        (map BgmCreate.start rest) in
    if Py.ltb (1 # 10) (duration_of data - cur_start)
    then Return (groups ++ [(cur_start, duration_of data)])
    else Return groups.
Proof.
  intros HW HD Hentries (H1 & H2 & H3).
  unfold FinalMapping.compute_bgm_groups. fold (duration_of data).
  set (D := duration_of data) in *.
  assert (E : Py.leb D 0 = false) by (apply leb_false; exact HD).
  rewrite E.
  pose proof (extract_collect_spans data) as Hspans. rewrite Hentries in Hspans.
  destruct (FinalMapping._collect_shots data) as [|sh shs]; [discriminate|].
  cbv beta iota zeta.
  assert (Hbs : Py.sort (fun t => t) (FinalMapping.boundaries_of (sh :: shs) D)
                = filter (fun t => Py.ltb 0 t && Py.ltb t D)
                         (map BgmCreate.start rest)).
  { unfold FinalMapping.boundaries_of. simpl tl.
    assert (Hstarts : map (fun s => Py.get (shot_start s) 0) shs
                      = map BgmCreate.start rest).
    { simpl in Hspans. injection Hspans as _ _ Hspans.
      change (map (fun s => Py.get (shot_start s) 0) shs)
        with (map (fun s => fst (span s)) shs).
      change (map BgmCreate.start rest)
        with (map (fun s => fst (bgm_span s)) rest).
      rewrite <- (map_map span fst), <- (map_map bgm_span fst), Hspans.
      reflexivity. }
    rewrite Hstarts. apply sort_of_ascending.
    apply (rising_ascending _ (BgmCreate.end_ first)).
    apply rising_filter. eapply joined_rising. exact H3. }
  rewrite Hbs. rewrite accept_loop_filter by lra. reflexivity.
Qed.

(** X18. The windows of [bgm_create] and those of [final_mapping] are the
    same on a document whose shots, in start order, cover the timeline from
    0 to [video.duration] one after the other, for a duration and a minimum
    window above 0.1 s: [compute_bgm_groups] returns, and its windows have
    the bounds of those of [_build_bgm_groups] on the shots of
    [_extract_shots], one by one. *)
Theorem window_builders_agree :
  forall (data : Doc) (W : Q),
    let D := duration_of data in
    let entries := BgmCreate._extract_shots data in
    (1 # 10) < W -> (1 # 10) < D ->
    joined 0 entries D ->
    exists ws,
      FinalMapping.compute_bgm_groups data W = Return ws
      /\ same_windows (BgmCreate._build_bgm_groups entries W) ws.
Proof.
  intros data W D entries HW HD Hj. subst entries D.
  destruct (BgmCreate._extract_shots data) as [|first rest] eqn:E.
  { simpl in Hj. lra. }
  rewrite (compute_on_joined data W first rest) by (assumption || lra).
  destruct (builders_agree (duration_of data) W first rest HW HD Hj)
    as [Hc Hs].
  destruct (FinalMapping.accept_loop (duration_of data) W [] 0
              (map BgmCreate.start rest)) as [A c].
  simpl in Hc, Hs. apply ltb_true in Hc. rewrite Hc. eauto.
Qed.

Lemma window_builders_agree_witness :
  let data := doc_of 40 [plain_shot 0 10; plain_shot 10 20; plain_shot 20 32;
                         plain_shot 32 40] in
  exists ws,
    FinalMapping.compute_bgm_groups data 15 = Return ws
    /\ same_windows (BgmCreate._build_bgm_groups (BgmCreate._extract_shots data) 15)
                    ws.
Proof.
  intro data. apply (window_builders_agree data 15); [reflexivity | reflexivity |].
  simpl. repeat split; discriminate.
Defined.

(** ** The windows of the rebuilt document in both modules *)

Lemma joined_of_linked (shots : list BgmCreate.BgmShot) :
  forall from,
    linked from (map bgm_span shots) ->
    joined from shots (final_end from shots).
Proof.
  induction shots as [|shot shots IH]; simpl; intros from H; [reflexivity|].
  destruct H as (H1 & H2 & H3). repeat split; try assumption. apply IH, H3.
Qed.

Lemma joined_end (shots : list BgmCreate.BgmShot) (D D' : Q) :
  D == D' -> forall from, joined from shots D -> joined from shots D'.
Proof.
  intro HD. induction shots as [|shot shots IH]; simpl; intros from H.
  - lra.
  - destruct H as (H1 & H2 & H3). repeat split; try assumption. apply IH, H3.
Qed.

Lemma placed_linked (fps : Q) (infos : list Hardcut.ShotInfo) :
  forall cursor,
    Forall (fun info => 0 <= Hardcut.info_kept_len info) infos ->
    linked (Py.round cursor 3) (map span (placed fps cursor infos)).
Proof.
  induction infos as [|info infos IH]; intros cursor Hall; [exact I|].
  inversion Hall as [|? ? Hi Hall']; subst. simpl.
  split; [reflexivity|].
  split; [apply round_mono; lra | apply IH; assumption].
Qed.

Lemma rebuild_shots_linked (data : Doc) (keeps : list Interval) (L : Q) :
  0 <= L -> linked 0 (map span (Hardcut.rebuild_shots data keeps L)).
Proof.
  intro HL. rewrite rebuild_shots_placed. cbv zeta.
  set (infos := map (Hardcut.shot_info keeps) (Hardcut._collect_shots data)).
  assert (Hall : Forall (fun info => 0 <= Hardcut.info_kept_len info)
                        (filter survives infos)).
  { apply Forall_forall. intros info Hi. apply filter_In in Hi.
    destruct Hi as [Hi _]. subst infos. apply in_map_iff in Hi.
    destruct Hi as (sh & <- & _). simpl.
    apply (proj1 (kept_length_le_overlap _ _ keeps)). }
  destruct (filter survives infos) as [|info rest] eqn:E.
  - simpl. repeat split; try lra.
    change 0 with (Py.round 0 3) at 1. apply round_mono. exact HL.
  - change 0 with (Py.round 0 3) at 1. apply placed_linked. exact Hall.
Qed.

Lemma linked_in_order (l : list Interval) :
  forall from, linked from l -> in_order from l.
Proof.
  induction l as [|[s e] l IH]; simpl; intros from H; [exact I|].
  destruct H as (H1 & H2 & H3). repeat split; [lra | lra | apply IH, H3].
Qed.

(** The shots that [_extract_shots] reads from the rebuilt document are
    those of [rebuild_shots], in their order. *)
Lemma rebuilt_entries_spans (data : Doc) (keeps : list Interval) (hd : Q) :
  map bgm_span
      (BgmCreate._extract_shots (Hardcut.rebuild_json_with_shots data keeps hd))
  = map span (Hardcut.rebuild_shots data keeps
                (snd (Hardcut.remap_segments data hd))).
Proof.
  pose proof (remap_logical_nonneg data hd) as HL.
  unfold Hardcut.rebuild_json_with_shots.
  destruct (Hardcut.remap_segments data hd) as [segs L]. simpl in HL |- *.
  pose proof (rebuild_shots_linked data keeps L HL) as Hlinked.
  unfold BgmCreate._extract_shots. cbn [shots].
  assert (Hmap : map bgm_span
                   (BgmCreate.extract_entries
                      (Hardcut.enumerate_shots 1
                         (Hardcut.attach_all
                            (Hardcut.rebuild_shots data keeps L) segs)))
                 = map span (Hardcut.rebuild_shots data keeps L)).
  { rewrite extract_enumerate_spans.
    apply spans_of_frames, attach_all_frames. }
  rewrite sort_of_ascending; [exact Hmap|].
  apply (in_sequence_ascending _ 0). apply in_sequence_in_order.
  rewrite Hmap. apply linked_in_order, Hlinked.
Qed.

(** X19. The document written by [rebuild_json_with_shots] gives the same
    windows in [bgm_create] and in [final_mapping] whenever its last shot
    ends at its [video.duration], for a duration and a minimum window above
    0.1 s: [compute_bgm_groups] returns, with as many windows as
    [_build_bgm_groups], and its i-th window has the bounds of the i-th
    window of [_build_bgm_groups]. *)
Theorem rebuilt_document_windows_agree :
  forall (data : Doc) (keeps : list Interval) (hardcut_duration W : Q),
    let new_data := Hardcut.rebuild_json_with_shots data keeps hardcut_duration in
    let entries := BgmCreate._extract_shots new_data in
    (1 # 10) < W -> (1 # 10) < duration_of new_data ->
    final_end 0 entries == duration_of new_data ->
    exists ws,
      FinalMapping.compute_bgm_groups new_data W = Return ws
      /\ same_windows (BgmCreate._build_bgm_groups entries W) ws.
Proof.
  intros data keeps hd W new_data entries HW HD Hend.
  assert (Hj : joined 0 entries (duration_of new_data)).
  { apply (joined_end _ (final_end 0 entries)); [exact Hend|].
    apply joined_of_linked. subst entries new_data.
    rewrite rebuilt_entries_spans. apply rebuild_shots_linked.
    apply remap_logical_nonneg. }
  destruct entries as [|first rest] eqn:E.
  { simpl in Hj. lra. }
  subst entries.
  rewrite (compute_on_joined new_data W first rest) by (assumption || lra).
  destruct (builders_agree (duration_of new_data) W first rest HW HD Hj)
    as [Hc Hs].
  destruct (FinalMapping.accept_loop (duration_of new_data) W [] 0
              (map BgmCreate.start rest)) as [A c].
  simpl in Hc, Hs. apply ltb_true in Hc. rewrite Hc. eauto.
Qed.

Lemma rebuilt_document_windows_agree_witness :
  let new_data := Hardcut.rebuild_json_with_shots scenario2_doc [(2, 98)] 96 in
  exists ws,
    FinalMapping.compute_bgm_groups new_data 15 = Return ws
    /\ same_windows
         (BgmCreate._build_bgm_groups (BgmCreate._extract_shots new_data) 15) ws.
Proof.
  intro new_data.
  apply (rebuilt_document_windows_agree scenario2_doc [(2, 98)] 96 15);
    vm_compute; reflexivity.
Defined.

(** ** The mood of a group *)

Lemma emo_get_add (d : BgmCreate.EmoDur) (k' k : BgmCreate.EmoKey) (w : Q) :
  emo_get (BgmCreate.emo_add d k' w) k
  == emo_get d k + (if BgmCreate.emo_eqb k' k then w else 0).
Proof.
  destruct k', k; simpl; lra.
Qed.

Lemma mood_loop_emo (k : BgmCreate.EmoKey) (segs : list (BgmCreate.MoodSeg * Q)) :
  forall st,
    emo_get (BgmCreate.emo_dur (fold_left BgmCreate.mood_step segs st)) k
    == emo_get (BgmCreate.emo_dur st) k + label_weight k segs.
Proof.
  induction segs as [|[seg w] segs IH]; intros st.
  - unfold label_weight. simpl. lra.
  - simpl fold_left. rewrite IH. unfold BgmCreate.mood_step.
    cbn [BgmCreate.emo_dur]. rewrite emo_get_add.
    unfold label_weight. cbn [map fst snd].
    change (Qsum (?x :: ?l)) with (x + Qsum l). lra.
Qed.

Lemma label_weight_nonneg (k : BgmCreate.EmoKey)
  (segs : list (BgmCreate.MoodSeg * Q)) :
  weights_nonneg segs -> 0 <= label_weight k segs.
Proof.
  intro H. apply Qsum_nonneg. apply Forall_forall. intros x Hx.
  apply in_map_iff in Hx. destruct Hx as (sw & <- & Hsw).
  pose proof (proj1 (Forall_forall _ _) H sw Hsw) as Hw. simpl in Hw.
  destruct (BgmCreate.emo_eqb _ k); lra.
Qed.

Lemma label_weights_total (segs : list (BgmCreate.MoodSeg * Q)) :
  label_weight BgmCreate.hap segs + label_weight BgmCreate.ang segs
  + label_weight BgmCreate.sad segs + label_weight BgmCreate.neu segs
  + label_weight BgmCreate.other segs
  == total_weight segs.
Proof.
  unfold label_weight, total_weight.
  induction segs as [|[seg w] segs IH]; simpl; [lra|].
  destruct (BgmCreate.emo_key seg); simpl; lra.
Qed.

(** The four ratios that [_analyze_mood] works with are shares of the
    total weight. *)
Lemma mood_ratios (segs : list (BgmCreate.MoodSeg * Q)) :
  weights_nonneg segs ->
  let d := BgmCreate.emo_dur (BgmCreate.mood_loop segs) in
  let sum := 0 + BgmCreate.d_hap d + BgmCreate.d_ang d + BgmCreate.d_sad d
             + BgmCreate.d_neu d + BgmCreate.d_other d in
  let total_dur := if Qeq_bool sum 0 then 1 else sum in
  let rh := BgmCreate.d_hap d / total_dur in
  let ra := BgmCreate.d_ang d / total_dur in
  let rs := BgmCreate.d_sad d / total_dur in
  let rn := BgmCreate.d_neu d / total_dur in
  0 <= rh /\ 0 <= ra /\ 0 <= rs /\ 0 <= rn /\ rh + ra + rs + rn <= 1
  /\ (total_weight segs == 0 -> rh == 0 /\ ra == 0 /\ rs == 0 /\ rn == 0)
  /\ (0 < total_weight segs ->
      forall c,
        (c * total_weight segs
         <= label_weight BgmCreate.hap segs
            + (7 # 10) * label_weight BgmCreate.neu segs ->
         c <= rh + rn * (7 # 10))
        /\ (c * total_weight segs <= label_weight BgmCreate.ang segs -> c <= ra)
        /\ (c * total_weight segs <= label_weight BgmCreate.sad segs -> c <= rs)).
Proof.
  intros Hw d.
  pose proof (label_weights_total segs) as HT.
  assert (Hget : forall k, emo_get d k == label_weight k segs).
  { intro k. subst d. unfold BgmCreate.mood_loop. rewrite mood_loop_emo.
    destruct k; simpl; lra. }
  pose proof (Hget BgmCreate.hap) as Hh. pose proof (Hget BgmCreate.ang) as Ha.
  pose proof (Hget BgmCreate.sad) as Hs. pose proof (Hget BgmCreate.neu) as Hn.
  pose proof (Hget BgmCreate.other) as Ho. simpl in Hh, Ha, Hs, Hn, Ho.
  pose proof (label_weight_nonneg BgmCreate.hap segs Hw) as Ph.
  pose proof (label_weight_nonneg BgmCreate.ang segs Hw) as Pa.
  pose proof (label_weight_nonneg BgmCreate.sad segs Hw) as Ps.
  pose proof (label_weight_nonneg BgmCreate.neu segs Hw) as Pn.
  pose proof (label_weight_nonneg BgmCreate.other segs Hw) as Po.
  clear Hget.
  set (h := BgmCreate.d_hap d) in *. set (a := BgmCreate.d_ang d) in *.
  set (s := BgmCreate.d_sad d) in *. set (n := BgmCreate.d_neu d) in *.
  set (o := BgmCreate.d_other d) in *.
  set (lh := label_weight BgmCreate.hap segs) in *.
  set (la := label_weight BgmCreate.ang segs) in *.
  set (ls := label_weight BgmCreate.sad segs) in *.
  set (ln := label_weight BgmCreate.neu segs) in *.
  set (lo := label_weight BgmCreate.other segs) in *.
  set (T := total_weight segs) in *.
  clearbody h a s n o lh la ls ln lo T. clear d Hw.
  cbv zeta. unfold Qdiv.
  destruct (Qeq_bool (0 + h + a + s + n + o) 0) eqn:E.
  - apply Qeq_bool_iff in E. change (/ 1) with 1.
    repeat split; try lra. all: intros; lra.
  - apply Qeq_bool_neq in E.
    assert (Hpos : 0 < 0 + h + a + s + n + o).
    { destruct (Qle_lt_or_eq 0 (0 + h + a + s + n + o)) as [H|H]; [lra | exact H|].
      exfalso. apply E. symmetry. exact H. }
    pose proof (Qinv_lt_0_compat _ Hpos) as Hinv.
    pose proof (Qmult_inv_r (0 + h + a + s + n + o) E) as Hone.
    set (inv := / (0 + h + a + s + n + o)) in *. clearbody inv.
    repeat split; try nra. all: intros; nra.
Qed.

Ltac mood_solve :=
  repeat match goal with
         | |- _ /\ _ => split
         | |- _ -> _ => intro
         | H : _ \/ _ |- _ => destruct H
         end;
  first [ reflexivity | exfalso; lra | discriminate ].

(** The float of a decimal constant, computed. *)
Ltac float_consts :=
  repeat match goal with
         | |- context [Py.float (?n # ?d)] =>
             let v := eval vm_compute in (Py.float (n # d)) in
             replace (Py.float (n # d)) with v by (vm_compute; reflexivity)
         | H : context [Py.float (?n # ?d)] |- _ =>
             let v := eval vm_compute in (Py.float (n # d)) in
             replace (Py.float (n # d)) with v in H by (vm_compute; reflexivity)
         end.

(** The binary64 ratios of [_analyze_mood] against the exact shares: each
    rounding moves a value by at most [2^-53] of it. *)
Lemma mood_floats (segs : list (BgmCreate.MoodSeg * Q)) :
  weights_nonneg segs ->
  let d := BgmCreate.emo_dur (BgmCreate.mood_loop segs) in
  let sum := 0 + BgmCreate.d_hap d + BgmCreate.d_ang d + BgmCreate.d_sad d
             + BgmCreate.d_neu d + BgmCreate.d_other d in
  let total_dur := if Qeq_bool sum 0 then 1 else sum in
  let xh := BgmCreate.d_hap d / total_dur in
  let xa := BgmCreate.d_ang d / total_dur in
  let xs := BgmCreate.d_sad d / total_dur in
  let xn := BgmCreate.d_neu d / total_dur in
  let rh := Py.fdiv (BgmCreate.d_hap d) total_dur in
  let ra := Py.fdiv (BgmCreate.d_ang d) total_dur in
  let rs := Py.fdiv (BgmCreate.d_sad d) total_dur in
  let rn := Py.fdiv (BgmCreate.d_neu d) total_dur in
  let m := Py.fmul rn (Py.float (7 # 10)) in
  let bright := Py.fadd rh m in
  let u := 1 # 9007199254740992 in
  let c7 := 3152519739159347 # 4503599627370496 in
  (xh * (1 - u) <= rh /\ rh <= xh * (1 + u)
   /\ xa * (1 - u) <= ra /\ ra <= xa * (1 + u)
   /\ xs * (1 - u) <= rs /\ rs <= xs * (1 + u)
   /\ xn * (1 - u) <= rn /\ rn <= xn * (1 + u)
   /\ rn * c7 * (1 - u) <= m /\ m <= rn * c7 * (1 + u)
   /\ (rh + m) * (1 - u) <= bright /\ bright <= (rh + m) * (1 + u))
  /\ (total_weight segs == 0 ->
      rh == 0 /\ ra == 0 /\ rs == 0 /\ rn == 0 /\ bright == 0).
Proof.
  intros Hw d sum total_dur xh xa xs xn rh ra rs rn m bright u c7.
  pose proof (mood_ratios segs Hw) as R. cbv zeta in R.
  fold d in R. fold sum in R. fold total_dur in R.
  fold xh xa xs xn in R.
  destruct R as (Rh & Ra & Rs & Rn & _ & Rzero & _).
  assert (Hc7 : Py.float (7 # 10) = c7) by (vm_compute; reflexivity).
  assert (Erh : rh = Py.float xh) by reflexivity.
  assert (Era : ra = Py.float xa) by reflexivity.
  assert (Ers : rs = Py.float xs) by reflexivity.
  assert (Ern : rn = Py.float xn) by reflexivity.
  assert (Em : m = Py.float (rn * c7))
    by (unfold m, Py.fmul; rewrite Hc7; reflexivity).
  assert (Eb : bright = Py.float (rh + m)) by reflexivity.
  clearbody rh ra rs rn m bright.
  pose proof (float_close xh Rh) as [Ch1 Ch2].
  pose proof (float_close xa Ra) as [Ca1 Ca2].
  pose proof (float_close xs Rs) as [Cs1 Cs2].
  pose proof (float_close xn Rn) as [Cn1 Cn2].
  rewrite <- Erh in Ch1, Ch2. rewrite <- Era in Ca1, Ca2.
  rewrite <- Ers in Cs1, Cs2. rewrite <- Ern in Cn1, Cn2.
  assert (Prn : 0 <= rn) by (rewrite Ern; apply float_nonneg, Rn).
  assert (Prh : 0 <= rh) by (rewrite Erh; apply float_nonneg, Rh).
  assert (Pm0 : 0 <= rn * c7) by (unfold c7; lra).
  pose proof (float_close (rn * c7) Pm0) as [Cm1 Cm2].
  rewrite <- Em in Cm1, Cm2.
  assert (Pm : 0 <= m) by (rewrite Em; apply float_nonneg, Pm0).
  assert (Pb0 : 0 <= rh + m) by lra.
  pose proof (float_close (rh + m) Pb0) as [Cb1 Cb2].
  rewrite <- Eb in Cb1, Cb2.
  split.
  - fold u in Ch1, Ch2, Ca1, Ca2, Cs1, Cs2, Cn1, Cn2, Cm1, Cm2, Cb1, Cb2.
    tauto.
  - intro H0. destruct (Rzero H0) as (Zh & Za & Zs & Zn).
    assert (Zrh : rh = 0) by (rewrite Erh; apply float_zero, Zh).
    assert (Zrn : rn = 0) by (rewrite Ern; apply float_zero, Zn).
    assert (Zm : m = 0).
    { rewrite Em. apply float_zero. rewrite Zrn. reflexivity. }
    rewrite Eb, Era, Ers, Zrh, Zm, Zrn.
    rewrite (float_zero xa Za), (float_zero xs Zs).
    repeat split; reflexivity.
Qed.

(** Names for the ratios of [_analyze_mood] in the goal and in the facts
    [R] of [mood_ratios] and [F] of [mood_floats]. *)
Ltac mood_setup segs R F :=
  unfold BgmCreate._analyze_mood;
  cbn [BgmCreate.mood_core BgmCreate.tempo_phrase];
  cbv zeta in R; cbv zeta in F;
  set (d := BgmCreate.emo_dur (BgmCreate.mood_loop segs)) in *;
  set (total_dur := if Qeq_bool _ 0 then 1 else _) in *;
  set (xh := BgmCreate.d_hap d / total_dur) in *;
  set (xa := BgmCreate.d_ang d / total_dur) in *;
  set (xs := BgmCreate.d_sad d / total_dur) in *;
  set (xn := BgmCreate.d_neu d / total_dur) in *;
  set (rh := Py.fdiv (BgmCreate.d_hap d) total_dur) in *;
  set (ra := Py.fdiv (BgmCreate.d_ang d) total_dur) in *;
  set (rs := Py.fdiv (BgmCreate.d_sad d) total_dur) in *;
  set (rn := Py.fdiv (BgmCreate.d_neu d) total_dur) in *;
  set (m := Py.fmul rn (Py.float (7 # 10))) in *;
  set (bright := Py.fadd rh m) in *;
  clearbody bright m rh ra rs rn xh xa xs xn; clear total_dur d.

(** X20. The mood follows the weights of the emotions, away from the
    thresholds.  For weights that are not negative and a positive total:
    when the happy segments plus 70% of the neutral ones reach 65.1% of the
    total weight, the cue is the uplifting one at the upbeat tempo; when the
    angry or the sad segments reach 60.1% of the total, the cue is the
    serious one and the tempo is not the upbeat one.  At the threshold
    itself the binary64 arithmetic of the code decides: happy 13 s and other
    7 s, a share of 65%, give the uplifting cue, but happy 3 s, neutral 5 s
    and other 2 s, 65% as well, give the warm cue, since there
    [3/10 + (5/10) * 0.7] is computed below [0.65]. *)
Theorem mood_follows_weights :
  forall (segs : list (BgmCreate.MoodSeg * Q)),
    weights_nonneg segs -> 0 < total_weight segs ->
    let m := BgmCreate._analyze_mood segs in
    ((651 # 1000) * total_weight segs
     <= label_weight BgmCreate.hap segs
        + (7 # 10) * label_weight BgmCreate.neu segs ->
     BgmCreate.mood_core m = BgmCreate.MOOD_UPLIFTING
     /\ BgmCreate.tempo_phrase m = BgmCreate.TEMPO_UPBEAT)
    /\ ((601 # 1000) * total_weight segs <= label_weight BgmCreate.ang segs
        \/ (601 # 1000) * total_weight segs
           <= label_weight BgmCreate.sad segs ->
        BgmCreate.mood_core m = BgmCreate.MOOD_SERIOUS
        /\ BgmCreate.tempo_phrase m <> BgmCreate.TEMPO_UPBEAT)
    /\ BgmCreate.mood_core
         (BgmCreate._analyze_mood
            [(BgmCreate.mkMoodSeg (Some "hap"%string) None None None, 13);
             (BgmCreate.mkMoodSeg None None None None, 7)])
       = BgmCreate.MOOD_UPLIFTING
    /\ BgmCreate.mood_core
         (BgmCreate._analyze_mood
            [(BgmCreate.mkMoodSeg (Some "hap"%string) None None None, 3);
             (BgmCreate.mkMoodSeg (Some "neu"%string) None None None, 5);
             (BgmCreate.mkMoodSeg None None None None, 2)])
       = BgmCreate.MOOD_WARM.
Proof.
  intros segs Hw HT m.
  split; [|split; [|split; vm_compute; reflexivity]].
  - pose proof (mood_ratios segs Hw) as R.
    pose proof (mood_floats segs Hw) as F.
    subst m. mood_setup segs R F.
    destruct R as (Rh & Ra & Rs & Rn & Rsum & _ & Rdom).
    specialize (Rdom HT).
    destruct F as ((Ch1 & Ch2 & Ca1 & Ca2 & Cs1 & Cs2 & Cn1 & Cn2
                    & Cm1 & Cm2 & Cb1 & Cb2) & _).
    intro H.
    destruct (Rdom (651 # 1000)) as (D & _). specialize (D H).
    clear Rdom H. float_consts.
    py_split; mood_solve.
  - pose proof (mood_ratios segs Hw) as R.
    pose proof (mood_floats segs Hw) as F.
    subst m. mood_setup segs R F.
    destruct R as (Rh & Ra & Rs & Rn & Rsum & _ & Rdom).
    specialize (Rdom HT).
    destruct F as ((Ch1 & Ch2 & Ca1 & Ca2 & Cs1 & Cs2 & Cn1 & Cn2
                    & Cm1 & Cm2 & Cb1 & Cb2) & _).
    destruct (Rdom (601 # 1000)) as (_ & Da & Ds).
    clear Rdom.
    intros [H|H]; [specialize (Da H); clear Ds
                  | specialize (Ds H); clear Da];
      float_consts; py_split; mood_solve.
Qed.

Lemma mood_follows_weights_witness :
  let segs := [(BgmCreate.mkMoodSeg (Some "Happy"%string) None None None, 7);
               (BgmCreate.mkMoodSeg (Some "sad"%string) None None None, 3)] in
  let m := BgmCreate._analyze_mood segs in
  BgmCreate.mood_core m = BgmCreate.MOOD_UPLIFTING
  /\ BgmCreate.tempo_phrase m = BgmCreate.TEMPO_UPBEAT.
Proof.
  intros segs m.
  apply (proj1 (mood_follows_weights segs
                  ltac:(repeat constructor; discriminate)
                  ltac:(reflexivity))).
  vm_compute. discriminate.
Defined.

(** X21. The cue and the tempo go together, for weights that are not
    negative: the uplifting cue always comes at the upbeat tempo; the
    serious and the tense cues never do; at the slow tempo the cue is neither
    the uplifting nor the warm one; and a total weight of 0 gives the
    unobtrusive cue at the slow tempo. *)
Theorem mood_and_tempo_consistent :
  forall (segs : list (BgmCreate.MoodSeg * Q)),
    weights_nonneg segs ->
    let m := BgmCreate._analyze_mood segs in
    (BgmCreate.mood_core m = BgmCreate.MOOD_UPLIFTING ->
     BgmCreate.tempo_phrase m = BgmCreate.TEMPO_UPBEAT)
    /\ (BgmCreate.mood_core m = BgmCreate.MOOD_SERIOUS
        \/ BgmCreate.mood_core m = BgmCreate.MOOD_TENSE ->
        BgmCreate.tempo_phrase m <> BgmCreate.TEMPO_UPBEAT)
    /\ (BgmCreate.tempo_phrase m = BgmCreate.TEMPO_SLOW ->
        BgmCreate.mood_core m <> BgmCreate.MOOD_UPLIFTING
        /\ BgmCreate.mood_core m <> BgmCreate.MOOD_WARM)
    /\ (total_weight segs == 0 ->
        BgmCreate.mood_core m = BgmCreate.MOOD_UNOBTRUSIVE
        /\ BgmCreate.tempo_phrase m = BgmCreate.TEMPO_SLOW).
Proof.
  intros segs Hw m.
  pose proof (mood_ratios segs Hw) as R.
  pose proof (mood_floats segs Hw) as F.
  subst m. mood_setup segs R F.
  destruct R as (Rh & Ra & Rs & Rn & Rsum & _ & _).
  destruct F as ((Ch1 & Ch2 & Ca1 & Ca2 & Cs1 & Cs2 & Cn1 & Cn2
                  & Cm1 & Cm2 & Cb1 & Cb2) & Fzero).
  float_consts.
  repeat match goal with |- _ /\ _ => split end.
  - clear Fzero. py_split; mood_solve.
  - clear Fzero. py_split; mood_solve.
  - clear Fzero. py_split; mood_solve.
  - intro H0. destruct (Fzero H0) as (Zh & Za & Zs & Zn & Zb). clear Fzero H0.
    py_split; mood_solve.
Qed.

Lemma mood_and_tempo_consistent_witness :
  let segs := [(BgmCreate.mkMoodSeg (Some "ANGRY"%string) None None None, 7);
               (BgmCreate.mkMoodSeg (Some "neutral"%string) None None None, 3)] in
  BgmCreate.mood_core (BgmCreate._analyze_mood segs) = BgmCreate.MOOD_SERIOUS
  /\ BgmCreate.tempo_phrase (BgmCreate._analyze_mood segs) <> BgmCreate.TEMPO_UPBEAT.
Proof.
  intro segs. split; [vm_compute; reflexivity|].
  apply (proj1 (proj2 (mood_and_tempo_consistent segs
                         ltac:(repeat constructor; discriminate)))).
  left. vm_compute. reflexivity.
Defined.

(** X22. The group without segments.  [main] gives [_analyze_mood] the
    single segment [dummy_seg] with the length of the window as its weight:
    there is no nuance, no texture phrase, and the tempo estimate is the
    default 100; for a length other than 0 the cue is the uplifting one at
    the upbeat tempo, for the length 0 the unobtrusive one at the slow
    tempo. *)
Theorem window_without_speech_cue :
  forall (w : Q),
    let m := BgmCreate._analyze_mood [(BgmCreate.dummy_seg, w)] in
    BgmCreate.mood_nuance m = ""%string
    /\ BgmCreate.avg_bpm m = 100
    /\ BgmCreate.texture_phrase m = ""%string
    /\ (~ w == 0 ->
        BgmCreate.mood_core m = BgmCreate.MOOD_UPLIFTING
        /\ BgmCreate.tempo_phrase m = BgmCreate.TEMPO_UPBEAT)
    /\ (w == 0 ->
        BgmCreate.mood_core m = BgmCreate.MOOD_UNOBTRUSIVE
        /\ BgmCreate.tempo_phrase m = BgmCreate.TEMPO_SLOW).
Proof.
  intros w m. subst m. unfold BgmCreate._analyze_mood, BgmCreate.mood_loop.
  cbn [fold_left BgmCreate.mood_step BgmCreate.dummy_seg BgmCreate.emo_key
       BgmCreate.emotion BgmCreate.counts_bpm BgmCreate.bpm_est
       BgmCreate.arrangement_tag BgmCreate.rhythm_tag BgmCreate.count_tag
       BgmCreate.emo_dur BgmCreate.bpm_sum BgmCreate.bpm_w
       BgmCreate.arr_counts BgmCreate.rhythm_counts
       BgmCreate._pick_top_label BgmCreate.texture_part app
       BgmCreate.mood_core BgmCreate.mood_nuance BgmCreate.tempo_phrase
       BgmCreate.avg_bpm BgmCreate.texture_phrase].
  change (BgmCreate.emo_key BgmCreate.dummy_seg) with BgmCreate.neu.
  cbn [BgmCreate.emo_add BgmCreate.d_hap BgmCreate.d_ang BgmCreate.d_sad
       BgmCreate.d_neu BgmCreate.d_other BgmCreate.max_item fst snd].
  set (total_dur := if Qeq_bool _ 0 then 1 else _).
  assert (Hzero : Py.fdiv 0 total_dur = 0).
  { unfold Py.fdiv. apply float_zero. unfold Qdiv. ring. }
  assert (Hneu : (~ w == 0 -> Py.fdiv (0 + w) total_dur = 1)
                 /\ (w == 0 -> Py.fdiv (0 + w) total_dur = 0)).
  { unfold Py.fdiv. subst total_dur.
    destruct (Qeq_bool (0 + 0 + 0 + 0 + (0 + w) + 0) 0) eqn:E.
    - apply Qeq_bool_iff in E. split; intro Hw.
      + exfalso. apply Hw. lra.
      + apply float_zero. rewrite Hw. reflexivity.
    - apply Qeq_bool_neq in E. split; intro Hw.
      + rewrite (float_comp _ 1); [reflexivity|]. field. lra.
      + exfalso. apply E. rewrite Hw. reflexivity. }
  clearbody total_dur. rewrite !Hzero.
  destruct Hneu as [Hone Hnone].
  destruct (Qeq_dec w 0) as [Hw|Hw].
  - rewrite (Hnone Hw).
    split; [lazy; reflexivity|]. split; [lazy; reflexivity|].
    split; [reflexivity|]. split; [intro H; contradiction|].
    intros _. split; vm_compute; reflexivity.
  - rewrite (Hone Hw).
    split; [lazy; reflexivity|]. split; [lazy; reflexivity|].
    split; [reflexivity|]. split; [|intro H; contradiction].
    intros _. split; vm_compute; reflexivity.
Qed.

Lemma window_without_speech_cue_witness :
  let m := BgmCreate._analyze_mood [(BgmCreate.dummy_seg, 20)] in
  BgmCreate.mood_core m = BgmCreate.MOOD_UPLIFTING
  /\ BgmCreate.tempo_phrase m = BgmCreate.TEMPO_UPBEAT.
Proof.
  intro m.
  apply (proj1 (proj2 (proj2 (proj2 (window_without_speech_cue 20))))).
  discriminate.
Defined.

(** ** The tempo estimate *)

Lemma mood_loop_bpm (segs : list (BgmCreate.MoodSeg * Q)) :
  forall st,
    BgmCreate.bpm_w (fold_left BgmCreate.mood_step segs st)
    == BgmCreate.bpm_w st + total_weight (tempo_votes segs)
    /\ BgmCreate.bpm_sum (fold_left BgmCreate.mood_step segs st)
       == BgmCreate.bpm_sum st + bpm_mass segs.
Proof.
  unfold bpm_mass, total_weight, tempo_votes.
  induction segs as [|[seg w] segs IH]; intros st.
  - simpl. split; lra.
  - simpl fold_left. destruct (IH (BgmCreate.mood_step st (seg, w))) as [H1 H2].
    rewrite H1, H2. unfold BgmCreate.mood_step.
    cbn [BgmCreate.bpm_w BgmCreate.bpm_sum filter fst].
    destruct (BgmCreate.counts_bpm seg); cbn [map fst snd];
      [change (Qsum (?x :: ?l)) with (x + Qsum l)|]; split; lra.
Qed.

Lemma bpm_mass_bounds (lo hi : Q) (segs : list (BgmCreate.MoodSeg * Q)) :
  weights_nonneg segs ->
  (forall sw, In sw (tempo_votes segs) ->
     lo <= Py.get (BgmCreate.bpm_est (fst sw)) 0 <= hi) ->
  0 <= total_weight (tempo_votes segs)
  /\ lo * total_weight (tempo_votes segs) <= bpm_mass segs
  /\ bpm_mass segs <= hi * total_weight (tempo_votes segs).
Proof.
  unfold bpm_mass, total_weight, tempo_votes.
  induction segs as [|[seg w] segs IH]; intros Hw Hb.
  - simpl. lra.
  - inversion Hw as [|? ? Hw0 Hw']; subst. simpl in Hw0. cbn [filter fst] in *.
    destruct (BgmCreate.counts_bpm seg).
    + destruct IH as (I0 & I1 & I2);
        [exact Hw' | intros sw Hsw; apply Hb; right; exact Hsw |].
      pose proof (Hb (seg, w) (or_introl eq_refl)) as Hseg. simpl in Hseg.
      cbn [map fst snd]. change (Qsum (?x :: ?l)) with (x + Qsum l).
      set (b := Py.get (BgmCreate.bpm_est seg) 0) in *. clearbody b.
      repeat split; nra.
    + apply IH; assumption.
Qed.

(** X23. The tempo estimate is a weighted mean.  For weights that are not
    negative, when every tempo estimate above 0 lies between [lo] and [hi]:
    [avg_bpm] lies between [lo] and [hi] as soon as a segment with such an
    estimate has a positive weight, and is the default 100 otherwise. *)
Theorem avg_bpm_weighted_mean :
  forall (segs : list (BgmCreate.MoodSeg * Q)) (lo hi : Q),
    weights_nonneg segs ->
    (forall sw, In sw (tempo_votes segs) ->
       lo <= Py.get (BgmCreate.bpm_est (fst sw)) 0 <= hi) ->
    let m := BgmCreate._analyze_mood segs in
    (0 < total_weight (tempo_votes segs) ->
     lo <= BgmCreate.avg_bpm m <= hi
     /\ BgmCreate.avg_bpm m * total_weight (tempo_votes segs) == bpm_mass segs)
    /\ (total_weight (tempo_votes segs) == 0 -> BgmCreate.avg_bpm m = 100).
Proof.
  intros segs lo hi Hw Hb m. subst m. unfold BgmCreate._analyze_mood.
  cbn [BgmCreate.avg_bpm]. unfold BgmCreate.mood_loop.
  destruct (mood_loop_bpm segs
              {| BgmCreate.emo_dur :=
                   {| BgmCreate.d_hap := 0; BgmCreate.d_ang := 0;
                      BgmCreate.d_sad := 0; BgmCreate.d_neu := 0;
                      BgmCreate.d_other := 0 |};
                 BgmCreate.bpm_sum := 0; BgmCreate.bpm_w := 0;
                 BgmCreate.arr_counts := []; BgmCreate.rhythm_counts := [] |})
    as [HW HS].
  cbn [BgmCreate.bpm_w BgmCreate.bpm_sum] in HW, HS.
  destruct (bpm_mass_bounds lo hi segs Hw Hb) as (B0 & B1 & B2).
  set (Wt := BgmCreate.bpm_w _) in *. set (St := BgmCreate.bpm_sum _) in *.
  clearbody Wt St.
  set (V := total_weight (tempo_votes segs)) in *. clearbody V.
  set (M := bpm_mass segs) in *. clearbody M.
  split.
  - intro HV. assert (E : Py.ltb 0 Wt = true) by (apply ltb_true; lra).
    rewrite E. split; [split|].
    + apply Qle_shift_div_l; [lra|]. setoid_replace Wt with V by lra. lra.
    + apply Qle_shift_div_r; [lra|]. setoid_replace Wt with V by lra. lra.
    + setoid_replace V with Wt by lra. assert (HWt : ~ Wt == 0) by lra.
      rewrite Qmult_comm, (Qmult_div_r St Wt HWt). lra.
  - intro HV. assert (E : Py.ltb 0 Wt = false) by (apply ltb_false; lra).
    rewrite E. reflexivity.
Qed.

Lemma avg_bpm_weighted_mean_witness :
  let segs := [(BgmCreate.mkMoodSeg None (Some 90) None None, 3);
               (BgmCreate.mkMoodSeg None (Some 120) None None, 1);
               (BgmCreate.mkMoodSeg None None None None, 5)] in
  90 <= BgmCreate.avg_bpm (BgmCreate._analyze_mood segs) <= 120.
Proof.
  intro segs.
  refine (proj1 (proj1 (avg_bpm_weighted_mean segs 90 120 _ _) _)).
  - repeat constructor; discriminate.
  - intros sw [<-|[<-|[]]]; split; discriminate.
  - reflexivity.
Defined.

(** ** The labels of the texture phrase *)

Lemma counter_get_add (c : list (string * Q)) (t k : string) (w : Q) :
  counter_get (BgmCreate.counter_add c t w) k
  == counter_get c k + (if String.eqb t k then w else 0).
Proof.
  induction c as [|[k' v] c IH]; simpl.
  - rewrite (String.eqb_sym k t). destruct (String.eqb t k); lra.
  - destruct (String.eqb t k') eqn:E1; simpl.
    + apply String.eqb_eq in E1. subst k'. rewrite (String.eqb_sym k t).
      destruct (String.eqb t k); lra.
    + destruct (String.eqb k k') eqn:E2.
      * apply String.eqb_eq in E2. subst k'. rewrite E1. lra.
      * exact IH.
Qed.

Lemma counter_add_keys (c : list (string * Q)) (t k : string) (w : Q) :
  In k (map fst (BgmCreate.counter_add c t w)) <-> k = t \/ In k (map fst c).
Proof.
  induction c as [|[k' v] c IH]; simpl.
  - intuition.
  - destruct (String.eqb t k') eqn:E; simpl.
    + apply String.eqb_eq in E. subst k'. intuition.
    + rewrite IH. intuition.
Qed.

Lemma counter_add_NoDup (c : list (string * Q)) (t : string) (w : Q) :
  NoDup (map fst c) -> NoDup (map fst (BgmCreate.counter_add c t w)).
Proof.
  induction c as [|[k' v] c IH]; simpl; intro H.
  - constructor; [intros [] | constructor].
  - destruct (String.eqb t k') eqn:E; simpl; [exact H|].
    inversion H as [|? ? Hnot Hrest]; subst. constructor; [|apply IH, Hrest].
    rewrite counter_add_keys. intros [->|Hin]; [|contradiction].
    rewrite String.eqb_refl in E. discriminate.
Qed.

Lemma counter_get_In (c : list (string * Q)) (k : string) (v : Q) :
  NoDup (map fst c) -> In (k, v) c -> counter_get c k = v.
Proof.
  induction c as [|[k' v'] c IH]; simpl; intros Hnd Hin; [contradiction|].
  inversion Hnd as [|? ? Hnot Hrest]; subst.
  destruct Hin as [Heq|Hin].
  - injection Heq as -> ->. rewrite String.eqb_refl. reflexivity.
  - destruct (String.eqb k k') eqn:E; [|apply IH; assumption].
    apply String.eqb_eq in E. subst k'. exfalso. apply Hnot.
    apply (in_map fst) in Hin. exact Hin.
Qed.

(** The counter after the loop: its keys are the non-empty tags seen, each
    once, each with the weight of the segments that carry it. *)
Lemma count_all_spec (tag_of : BgmCreate.MoodSeg -> option string)
  (segs : list (BgmCreate.MoodSeg * Q)) :
  forall c,
    NoDup (map fst c) ->
    NoDup (map fst (count_all tag_of c segs))
    /\ (forall k, In k (map fst (count_all tag_of c segs))
                  <-> In k (map fst c) \/ tagged tag_of k segs)
    /\ (forall k, k <> ""%string ->
          counter_get (count_all tag_of c segs) k
          == counter_get c k + tag_weight tag_of k segs).
Proof.
  unfold count_all, tag_weight, tagged.
  induction segs as [|[seg w] segs IH]; intros c Hnd.
  - simpl. split; [exact Hnd|]. split.
    + intro k. split; [tauto|]. intros [H|(_ & sw & [] & _)]. exact H.
    + intros k _. lra.
  - cbn [fold_left fst snd].
    assert (Hstep : NoDup (map fst (BgmCreate.count_tag c (tag_of seg) w))).
    { unfold BgmCreate.count_tag. destruct (tag_of seg) as [t|]; [|exact Hnd].
      destruct (String.eqb t ""); [exact Hnd|]. apply counter_add_NoDup, Hnd. }
    destruct (IH _ Hstep) as (I1 & I2 & I3). split; [exact I1|]. split.
    + intro k. rewrite I2. unfold BgmCreate.count_tag.
      destruct (tag_of seg) as [t|] eqn:Et.
      * destruct (String.eqb t "") eqn:E0.
        -- apply String.eqb_eq in E0. subst t. split.
           ++ intros [H|(Hk & sw & Hsw & Htag)]; [left; exact H|].
              right. split; [exact Hk|]. exists sw. split; [right|]; assumption.
           ++ intros [H|(Hk & sw & [<-|Hsw] & Htag)]; [left; exact H | |].
              ** simpl in Htag. congruence.
              ** right. split; [exact Hk|]. exists sw. split; assumption.
        -- apply String.eqb_neq in E0. rewrite counter_add_keys. split.
           ++ intros [[->|H]|(Hk & sw & Hsw & Htag)].
              ** right. split; [exact E0|]. exists (seg, w).
                 split; [left; reflexivity | exact Et].
              ** left; exact H.
              ** right. split; [exact Hk|]. exists sw. split; [right|]; assumption.
           ++ intros [H|(Hk & sw & [<-|Hsw] & Htag)].
              ** left. right. exact H.
              ** simpl in Htag. left. left. congruence.
              ** right. split; [exact Hk|]. exists sw. split; assumption.
      * split.
        -- intros [H|(Hk & sw & Hsw & Htag)]; [left; exact H|].
           right. split; [exact Hk|]. exists sw. split; [right|]; assumption.
        -- intros [H|(Hk & sw & [<-|Hsw] & Htag)]; [left; exact H | |].
           ++ simpl in Htag. congruence.
           ++ right. split; [exact Hk|]. exists sw. split; assumption.
    + intros k Hk. rewrite (I3 k Hk). cbn [map fst snd].
      change (Qsum (?x :: ?l)) with (x + Qsum l).
      unfold BgmCreate.count_tag. destruct (tag_of seg) as [t|]; [|lra].
      destruct (String.eqb t "") eqn:E0.
      * apply String.eqb_eq in E0. subst t.
        destruct (String.eqb "" k) eqn:E1; [|lra].
        apply String.eqb_eq in E1. congruence.
      * rewrite counter_get_add. lra.
Qed.

Lemma mood_loop_counters (segs : list (BgmCreate.MoodSeg * Q)) :
  forall st,
    BgmCreate.arr_counts (fold_left BgmCreate.mood_step segs st)
    = count_all BgmCreate.arrangement_tag (BgmCreate.arr_counts st) segs
    /\ BgmCreate.rhythm_counts (fold_left BgmCreate.mood_step segs st)
       = count_all BgmCreate.rhythm_tag (BgmCreate.rhythm_counts st) segs.
Proof.
  unfold count_all.
  induction segs as [|[seg w] segs IH]; intros st; [split; reflexivity|].
  cbn [fold_left]. destruct (IH (BgmCreate.mood_step st (seg, w))) as [H1 H2].
  rewrite H1, H2. split; reflexivity.
Qed.

Lemma max_item_spec {K : Type} (items : list (K * Q)) :
  forall best,
    In (BgmCreate.max_item best items) (best :: items)
    /\ forall y, In y (best :: items) ->
         snd y <= snd (BgmCreate.max_item best items).
Proof.
  induction items as [|x items IH]; intros best; simpl.
  - split; [left; reflexivity|]. intros y [<-|[]]. lra.
  - destruct (IH (if Py.ltb (snd best) (snd x) then x else best)) as [H1 H2].
    split.
    + destruct H1 as [H1|H1]; [|right; right; exact H1].
      rewrite <- H1. destruct (Py.ltb (snd best) (snd x)); auto.
    + intros y Hy.
      assert (Hb : snd best <= snd (if Py.ltb (snd best) (snd x) then x else best)
                   /\ snd x <= snd (if Py.ltb (snd best) (snd x) then x else best)).
      { py_split; split; lra. }
      destruct Hb as [Hb Hx].
      pose proof (H2 _ (or_introl eq_refl)) as Hm.
      destruct Hy as [<-|[<-|Hy]]; [lra | lra |].
      apply H2. right. exact Hy.
Qed.

Lemma pick_top_heaviest (tag_of : BgmCreate.MoodSeg -> option string)
  (segs : list (BgmCreate.MoodSeg * Q)) :
  heaviest_tag tag_of segs
    (BgmCreate._pick_top_label (count_all tag_of [] segs)).
Proof.
  destruct (count_all_spec tag_of segs [] (NoDup_nil _)) as (Hnd & Hkeys & Hget).
  unfold BgmCreate._pick_top_label.
  destruct (count_all tag_of [] segs) as [|x r] eqn:E; simpl.
  - intros t Ht. apply (proj2 (Hkeys t)). right. exact Ht.
  - destruct (max_item_spec r x) as [Hin Hmax].
    set (top := BgmCreate.max_item x r) in *. clearbody top.
    destruct top as [t v]. simpl.
    assert (Ht : tagged tag_of t segs).
    { destruct (proj1 (Hkeys t)) as [[]|H]; [|exact H].
      apply (in_map fst) in Hin. exact Hin. }
    split; [exact Ht|]. intros t' Ht'.
    assert (Hin' : In t' (map fst (x :: r))) by (apply Hkeys; right; exact Ht').
    apply in_map_iff in Hin'. destruct Hin' as ([k' v'] & Hk' & Hin').
    simpl in Hk'. subst k'.
    pose proof (Hmax _ Hin') as Hle. simpl in Hle.
    pose proof (Hget t (proj1 Ht)) as G. pose proof (Hget t' (proj1 Ht')) as G'.
    rewrite (counter_get_In _ _ _ Hnd Hin) in G.
    rewrite (counter_get_In _ _ _ Hnd Hin') in G'.
    simpl in G, G'. lra.
Qed.

Lemma texture_part_nil (tag_of : BgmCreate.MoodSeg -> option string)
  (segs : list (BgmCreate.MoodSeg * Q)) (intro : string) (label : option string) :
  heaviest_tag tag_of segs label ->
  (BgmCreate.texture_part intro label = [] <-> label = None).
Proof.
  intro H. unfold BgmCreate.texture_part. destruct label as [t|]; [|tauto].
  destruct H as [[Hne _] _]. apply String.eqb_neq in Hne. rewrite Hne.
  split; discriminate.
Qed.

(** X24. The labels of the texture phrase.  The arrangement label and the
    rhythm label that [_analyze_mood] picks are each a non-empty tag of some
    segment whose accumulated weight is the largest among the tags of its
    field, and there is no label exactly when no segment carries a
    non-empty tag of that field; the texture phrase is empty exactly when
    there is neither label. *)
Theorem texture_labels_heaviest :
  forall (segs : list (BgmCreate.MoodSeg * Q)),
    let st := BgmCreate.mood_loop segs in
    let arrangement := BgmCreate._pick_top_label (BgmCreate.arr_counts st) in
    let rhythm := BgmCreate._pick_top_label (BgmCreate.rhythm_counts st) in
    heaviest_tag BgmCreate.arrangement_tag segs arrangement
    /\ heaviest_tag BgmCreate.rhythm_tag segs rhythm
    /\ (BgmCreate.texture_phrase (BgmCreate._analyze_mood segs) = ""%string
        <-> arrangement = None /\ rhythm = None).
Proof.
  intros segs st arrangement rhythm.
  destruct (mood_loop_counters segs
              {| BgmCreate.emo_dur :=
                   {| BgmCreate.d_hap := 0; BgmCreate.d_ang := 0;
                      BgmCreate.d_sad := 0; BgmCreate.d_neu := 0;
                      BgmCreate.d_other := 0 |};
                 BgmCreate.bpm_sum := 0; BgmCreate.bpm_w := 0;
                 BgmCreate.arr_counts := []; BgmCreate.rhythm_counts := [] |})
    as [Ha Hr].
  cbn [BgmCreate.arr_counts BgmCreate.rhythm_counts] in Ha, Hr.
  assert (HA : heaviest_tag BgmCreate.arrangement_tag segs arrangement).
  { subst arrangement st. unfold BgmCreate.mood_loop. rewrite Ha.
    apply pick_top_heaviest. }
  assert (HR : heaviest_tag BgmCreate.rhythm_tag segs rhythm).
  { subst rhythm st. unfold BgmCreate.mood_loop. rewrite Hr.
    apply pick_top_heaviest. }
  split; [exact HA|]. split; [exact HR|].
  unfold BgmCreate._analyze_mood. cbn [BgmCreate.texture_phrase].
  fold st. fold arrangement. fold rhythm.
  pose proof (texture_part_nil _ segs "arrangement that feels like "
                arrangement HA) as TA.
  pose proof (texture_part_nil _ segs "rhythmic feel similar to "
                rhythm HR) as TR.
  clearbody arrangement rhythm.
  destruct (BgmCreate.texture_part "arrangement that feels like " arrangement)
    as [|pa la]; destruct (BgmCreate.texture_part "rhythmic feel similar to " rhythm)
    as [|pr lr]; simpl.
  - split; [intros _; split; [apply TA | apply TR]; reflexivity | reflexivity].
  - split; [discriminate|]. intros [_ H]. apply TR in H. discriminate.
  - split; [discriminate|]. intros [H _]. apply TA in H. discriminate.
  - split; [discriminate|]. intros [H _]. apply TA in H. discriminate.
Qed.

(** ** The segments merged into the shots by [main.py] *)

(** On the first shots of the keys, the inner loop is the attachment to
    the first shot that holds the midpoint. *)
Lemma attach_in_dict_first (mid : Q) (entry : Segment)
  (d : list (string * list Shot)) :
  Forall2 (fun shot shot' =>
             shot' = shot
             \/ (shot' = Hardcut.append_segment shot entry
                 /\ fst (span shot) <= mid <= snd (span shot)))
          (Hardcut.first_shots d)
          (Hardcut.first_shots (Main.attach_in_dict mid entry d))
  /\ map fst (Main.attach_in_dict mid entry d) = map fst d
  /\ (List.length (flat_map shot_segments
                     (Hardcut.first_shots (Main.attach_in_dict mid entry d)))
      <= S (List.length (flat_map shot_segments (Hardcut.first_shots d))))%nat.
Proof.
  assert (Hrefl : forall l : list Shot,
             Forall2 (fun shot shot' =>
                        shot' = shot
                        \/ (shot' = Hardcut.append_segment shot entry
                            /\ fst (span shot) <= mid <= snd (span shot))) l l).
  { induction l; constructor; auto. }
  induction d as [|[k [|shot others]] d IH]; simpl.
  - split; [constructor|]. split; [reflexivity | lia].
  - destruct IH as (I1 & I2 & I3). split; [exact I1|].
    split; [rewrite I2; reflexivity | exact I3].
  - destruct IH as (I1 & I2 & I3).
    destruct (Py.leb (Py.get (shot_start shot) 0) mid
              && Py.leb mid (Py.get (shot_end shot) 0)) eqn:E; simpl.
    + apply andb_true_iff in E. destruct E as [E1 E2].
      apply leb_true in E1. apply leb_true in E2.
      split; [|split; [reflexivity|]].
      * constructor; [right; split; [reflexivity | simpl; split; assumption]|].
        apply Hrefl.
      * rewrite !length_app. simpl. lia.
    + split; [constructor; [left; reflexivity | exact I1]|].
      split; [rewrite I2; reflexivity|].
      rewrite !length_app in *. lia.
Qed.

Lemma shot_grown_refl (segments : list Segment) (shot : Shot) :
  shot_grown segments shot shot.
Proof.
  split; [reflexivity|]. exists []. rewrite app_nil_r. split; [reflexivity|].
  constructor.
Qed.

Lemma merged_from_more (S S' : list Segment) (sp : Interval) (seg : Segment) :
  (forall raw, In raw S -> In raw S') ->
  merged_from S sp seg -> merged_from S' sp seg.
Proof.
  intros Hsub (raw & H1 & H2). exists raw. split; [apply Hsub, H1 | exact H2].
Qed.

Lemma merge_steps_grow (segments : list Segment) :
  forall d,
    Forall2 (shot_grown segments) (Hardcut.first_shots d)
            (Hardcut.first_shots (fold_left Main.merge_step segments d))
    /\ map fst (fold_left Main.merge_step segments d) = map fst d
    /\ (List.length (flat_map shot_segments
                       (Hardcut.first_shots
                          (fold_left Main.merge_step segments d)))
        <= List.length (flat_map shot_segments (Hardcut.first_shots d))
           + List.length segments)%nat.
Proof.
  induction segments as [|raw segments IH]; intros d.
  - simpl. split; [|split; [reflexivity | lia]].
    induction (Hardcut.first_shots d); constructor;
      [apply shot_grown_refl | assumption].
  - cbn [fold_left]. destruct (IH (Main.merge_step d raw)) as (I1 & I2 & I3).
    assert (Hstep :
              Forall2 (shot_grown [raw]) (Hardcut.first_shots d)
                      (Hardcut.first_shots (Main.merge_step d raw))
              /\ map fst (Main.merge_step d raw) = map fst d
              /\ (List.length (flat_map shot_segments
                                 (Hardcut.first_shots (Main.merge_step d raw)))
                  <= S (List.length (flat_map shot_segments
                                       (Hardcut.first_shots d))))%nat).
    { unfold Main.merge_step.
      destruct (Py.leb (Py.get (seg_end raw) 0) (Py.get (seg_start raw) 0)) eqn:E.
      - split; [|split; [reflexivity | lia]].
        induction (Hardcut.first_shots d); constructor;
          [apply shot_grown_refl | assumption].
      - apply leb_false in E.
        destruct (attach_in_dict_first
                    ((1 # 2) * (Py.get (seg_start raw) 0 + Py.get (seg_end raw) 0))
                    (Main.seg_entry raw) d) as (A1 & A2 & A3).
        split; [|split; assumption].
        eapply Forall2_impl; [|exact A1].
        intros shot shot' [->|[-> Hmid]]; [apply shot_grown_refl|].
        split; [reflexivity|]. exists [Main.seg_entry raw].
        split; [reflexivity|]. constructor; [|constructor].
        exists raw. split; [left; reflexivity|].
        split; [exact E|]. split; [reflexivity | exact Hmid]. }
    destruct Hstep as (S1 & S2 & S3).
    split; [|split; [rewrite I2; exact S2 | simpl; lia]].
    clear I2 I3 S2 S3 IH.
    revert I1. generalize (Hardcut.first_shots
                             (fold_left Main.merge_step segments
                                (Main.merge_step d raw))).
    induction S1 as [|shot shot1 l l1 Hg _ IHl]; intros l2 I1;
      inversion I1 as [|? shot2 ? l2' Hg2 Hrest]; subst; constructor.
    + destruct Hg as (Hsp & added & Hadd & Hall).
      destruct Hg2 as (Hsp2 & added2 & Hadd2 & Hall2).
      split; [congruence|]. exists (added ++ added2).
      split; [rewrite Hadd2, Hadd, app_assoc; reflexivity|].
      apply Forall_app. split.
      * eapply Forall_impl; [|exact Hall]. intros seg.
        apply merged_from_more. intros r [<-|[]]. left. reflexivity.
      * rewrite Hsp in Hall2. eapply Forall_impl; [|exact Hall2]. intros seg.
        apply merged_from_more. intros r Hr. right. exact Hr.
    + apply IHl. exact Hrest.
Qed.

(** X25. What [_merge_segments_into_shots] stores.  The keys of the shots
    stay as they are, and so do the start and the end of every shot; a shot
    keeps its segments and gets, after them, entries of transcribed segments
    that are not empty and whose midpoint lies between the start and the end
    of that shot, both included; no more segments are stored than
    transcribed ones were given; and [whisper.num_segments] is the number of
    the transcribed segments, stored or not. *)
Theorem merged_segments_lie_in_their_shot :
  forall (shot_meta : Doc) (segments : list Segment),
    let merged := Main._merge_segments_into_shots shot_meta segments in
    map fst (shots merged) = map fst (shots shot_meta)
    /\ Forall2 (shot_grown segments)
               (Hardcut.first_shots (shots shot_meta))
               (Hardcut.first_shots (shots merged))
    /\ (List.length (Hardcut._collect_segments merged)
        <= List.length (Hardcut._collect_segments shot_meta)
           + List.length segments)%nat
    /\ whisper_num_segments merged = Some (List.length segments).
Proof.
  intros shot_meta segments merged.
  destruct (merge_steps_grow segments (shots shot_meta)) as (H1 & H2 & H3).
  repeat split; assumption.
Qed.
